(** * Event / Booking pre-save hooks and the MongoDB connection manager

    A shallow embedding of
      - [database/event.model.ts]   (schema options and [EventSchema.pre('save')]),
      - [database/booking.model.ts] (schema options and [BookingSchema.pre('save')]),
      - [lib/mongodb.ts]            ([MongoConnectionManager]),
    together with the properties the specification states about them.

    JavaScript strings are sequences of UTF-16 code units; a code unit is a
    number of type [N].  Objects used as dictionaries are finite maps. *)

From Stdlib Require Import ZArith NArith List String Ascii Bool Lia Sorted.
From stdpp Require Import gmap strings.

Import ListNotations.
Local Open Scope N_scope.

(* ===================================================================== *)
(** ** JavaScript strings                                                 *)
(* ===================================================================== *)

Definition jsstring := list N.

(** A literal: the code units of an ASCII string constant of the source. *)
Definition js (s : string) : jsstring :=
  List.map N_of_ascii (list_ascii_of_string s).

Definition inRange (lo hi c : N) : bool := (lo <=? c) && (c <=? hi).

(** [a-z], [0-9] and the hyphen of the character classes of the source. *)
Definition isLowerAZ (c : N) : bool := inRange 97 122 c.
Definition isDigit (c : N) : bool := inRange 48 57 c.
Definition isHyphen (c : N) : bool := c =? 45.

(** [\s] of an ECMAScript regular expression, which is also the set that
    [String.prototype.trim] removes: WhiteSpace (TAB, VT, FF, SP, NBSP,
    ZWNBSP and the Unicode space separators) and LineTerminator (LF, CR,
    LS, PS). *)
Definition isSpace (c : N) : bool :=
  inRange 9 13 c || (c =? 32) || (c =? 160) || (c =? 5760)
  || inRange 8192 8202 c || (c =? 8232) || (c =? 8233) || (c =? 8239)
  || (c =? 8287) || (c =? 12288) || (c =? 65279).

(** [String.prototype.toLowerCase] on a string of ASCII code units. Outside
    ASCII the result is given by the Unicode tables of the engine, see
    [Section Engine]. *)
Definition asciiLower (c : N) : N := if inRange 65 90 c then c + 32 else c.
Definition asciiToLowerCase (s : jsstring) : jsstring := List.map asciiLower s.

Fixpoint dropWhile (p : N -> bool) (s : jsstring) : jsstring :=
  match s with
  | [] => []
  | c :: t => if p c then dropWhile p t else s
  end.

(** [String.prototype.trim]. *)
Definition trim (s : jsstring) : jsstring :=
  rev (dropWhile isSpace (rev (dropWhile isSpace s))).

(** Truthiness of a string-valued property that may be missing:
    [undefined] and [''] are falsy. *)
Definition truthy (v : option jsstring) : bool :=
  match v with
  | Some (_ :: _) => true
  | _ => false
  end.

(* ===================================================================== *)
(** ** Regular expressions used with [RegExp.prototype.test]              *)
(* ===================================================================== *)

(** The patterns tested in the source use character classes, sequencing,
    alternation, [?] and [+], and are anchored with [^] and [$] (no flags,
    so [$] is the end of the input). *)
Inductive regex : Type :=
  | Empty : regex
  | Eps : regex
  | Chr : (N -> bool) -> regex
  | Alt : regex -> regex -> regex
  | Cat : regex -> regex -> regex
  | Star : regex -> regex.

Definition Opt (r : regex) : regex := Alt Eps r.
Definition Plus (r : regex) : regex := Cat r (Star r).

Fixpoint nullable (r : regex) : bool :=
  match r with
  | Empty => false
  | Eps => true
  | Chr _ => false
  | Alt a b => nullable a || nullable b
  | Cat a b => nullable a && nullable b
  | Star _ => true
  end.

Fixpoint deriv (c : N) (r : regex) : regex :=
  match r with
  | Empty => Empty
  | Eps => Empty
  | Chr p => if p c then Eps else Empty
  | Alt a b => Alt (deriv c a) (deriv c b)
  | Cat a b =>
      if nullable a then Alt (Cat (deriv c a) b) (deriv c b)
      else Cat (deriv c a) b
  | Star a => Cat (deriv c a) (Star a)
  end.

(** [/^r$/.test(s)]: the whole of [s] is matched by [r]. *)
Fixpoint test (r : regex) (s : jsstring) : bool :=
  match s with
  | [] => nullable r
  | c :: t => test (deriv c r) t
  end.

(** The strings a pattern denotes. *)
Fixpoint lang (r : regex) (s : jsstring) : Prop :=
  match r with
  | Empty => False
  | Eps => s = []
  | Chr p => exists c, s = [c] /\ p c = true
  | Alt a b => lang a s \/ lang b s
  | Cat a b => exists s1 s2, s = s1 ++ s2 /\ lang a s1 /\ lang b s2
  | Star a =>
      exists ss, s = concat ss /\ Forall (fun x => x <> [] /\ lang a x) ss
  end.

(** [/^([01]?[0-9]|2[0-3]):[0-5][0-9]$/] *)
Definition timeRegex : regex :=
  Cat (Alt (Cat (Opt (Chr (inRange 48 49))) (Chr (inRange 48 57)))
           (Cat (Chr (N.eqb 50)) (Chr (inRange 48 51))))
      (Cat (Chr (N.eqb 58))
           (Cat (Chr (inRange 48 53)) (Chr (inRange 48 57)))).

(** [[^\s@]] *)
Definition notSpaceAt (c : N) : bool := negb (isSpace c || (c =? 64)).

(** [/^[^\s@]+@[^\s@]+\.[^\s@]+$/] *)
Definition emailRegex : regex :=
  Cat (Plus (Chr notSpaceAt))
      (Cat (Chr (N.eqb 64))
           (Cat (Plus (Chr notSpaceAt))
                (Cat (Chr (N.eqb 46)) (Plus (Chr notSpaceAt))))).

(* ===================================================================== *)
(** ** Slug derivation                                                    *)
(* ===================================================================== *)

(** [[a-z0-9\s-]], the characters the first replacement keeps. *)
Definition slugKeep (c : N) : bool :=
  isLowerAZ c || isDigit c || isSpace c || isHyphen c.

(** [.replace(/[^a-z0-9\s-]/g, '')] *)
Definition stripOthers (s : jsstring) : jsstring := List.filter slugKeep s.

(** [.replace(/X+/g, '-')] for a character class [X]: every maximal run of
    [X] is replaced by one hyphen. [inRun] tells that the previous code unit
    belonged to the run being replaced. *)
Fixpoint replaceRuns (p : N -> bool) (inRun : bool) (s : jsstring) : jsstring :=
  match s with
  | [] => []
  | c :: t =>
      if p c then (if inRun then replaceRuns p true t else 45 :: replaceRuns p true t)
      else c :: replaceRuns p false t
  end.

(** [.replace(/\s+/g, '-')] and [.replace(/-+/g, '-')] *)
Definition spacesToHyphen (s : jsstring) : jsstring := replaceRuns isSpace false s.
Definition collapseHyphens (s : jsstring) : jsstring := replaceRuns isHyphen false s.

(** The alternative [-$]: a hyphen that is the last code unit. *)
Definition dropLastHyphen (s : jsstring) : jsstring :=
  match rev s with
  | c :: t => if isHyphen c then rev t else s
  | [] => s
  end.

(** [.replace(/^--|-$/g, '')]: the alternative [^--] matches two hyphens at
    the start of the input, the search then goes on behind them. *)
Definition stripEdges (s : jsstring) : jsstring :=
  match s with
  | a :: b :: t =>
      if isHyphen a && isHyphen b then dropLastHyphen t else dropLastHyphen s
  | _ => dropLastHyphen s
  end.

(** The chain of replacements applied to the lower-cased title. *)
Definition slugChain (lowered : jsstring) : jsstring :=
  trim (stripEdges (collapseHyphens (spacesToHyphen (stripOthers lowered)))).

(* ===================================================================== *)
(** ** Dates: time values, [toISOString] and [Date.parse]                 *)
(* ===================================================================== *)

Local Open Scope Z_scope.

(** ECMAScript time values are milliseconds since the epoch, in UTC. *)
Definition msPerDay : Z := 86400000.
Definition maxTime : Z := 8640000000000000.

Definition Day (t : Z) : Z := t / msPerDay.

Definition DayFromYear (y : Z) : Z :=
  365 * (y - 1970) + (y - 1969) / 4 - (y - 1901) / 100 + (y - 1601) / 400.

Definition isLeap (y : Z) : bool :=
  (y mod 4 =? 0) && (negb (y mod 100 =? 0) || (y mod 400 =? 0)).

Definition leapDay (y : Z) : Z := if isLeap y then 1 else 0.

(** The year that contains day number [d]: the largest [y] with
    [DayFromYear y <= d], found next to the estimate by the mean length of a
    Gregorian year. *)
Definition YearFromDay (d : Z) : Z :=
  let y0 := 1970 + (400 * d) / 146097 in
  if DayFromYear (y0 + 1) <=? d then y0 + 1
  else if DayFromYear y0 <=? d then y0
  else y0 - 1.

(** Number of days of the year before month [m] (0 = January). *)
Definition monthStart (l m : Z) : Z :=
  if m <=? 0 then 0 else if m =? 1 then 31 else if m =? 2 then 59 + l
  else if m =? 3 then 90 + l else if m =? 4 then 120 + l
  else if m =? 5 then 151 + l else if m =? 6 then 181 + l
  else if m =? 7 then 212 + l else if m =? 8 then 243 + l
  else if m =? 9 then 273 + l else if m =? 10 then 304 + l
  else if m =? 11 then 334 + l else 365 + l.

(** [MonthFromTime], from the day within the year. *)
Definition MonthFromDayInYear (l dy : Z) : Z :=
  if dy <? 31 then 0 else if dy <? 59 + l then 1 else if dy <? 90 + l then 2
  else if dy <? 120 + l then 3 else if dy <? 151 + l then 4
  else if dy <? 181 + l then 5 else if dy <? 212 + l then 6
  else if dy <? 243 + l then 7 else if dy <? 273 + l then 8
  else if dy <? 304 + l then 9 else if dy <? 334 + l then 10 else 11.

Definition YearFromTime (t : Z) : Z := YearFromDay (Day t).
Definition DayWithinYear (t : Z) : Z := Day t - DayFromYear (YearFromTime t).
Definition MonthFromTime (t : Z) : Z :=
  MonthFromDayInYear (leapDay (YearFromTime t)) (DayWithinYear t).
Definition DateFromTime (t : Z) : Z :=
  DayWithinYear t - monthStart (leapDay (YearFromTime t)) (MonthFromTime t) + 1.

(** [MakeDay] for a month in 0..11, and [MakeDate] at midnight. *)
Definition MakeDay (y m d : Z) : Z := DayFromYear y + monthStart (leapDay y) m + d - 1.
Definition MakeDate (day : Z) : Z := day * msPerDay.

(** [TimeClip]: [None] stands for NaN. *)
Definition TimeClip (t : Z) : option Z :=
  if Z.abs t <=? maxTime then Some t else None.

Definition digitChar (d : Z) : N := Z.to_N (48 + d).
Definition digitVal (c : N) : Z := Z.of_N c - 48.

Definition pad2 (n : Z) : jsstring := [digitChar (n / 10); digitChar (n mod 10)].
Definition pad4 (n : Z) : jsstring :=
  [digitChar (n / 1000); digitChar (n / 100 mod 10);
   digitChar (n / 10 mod 10); digitChar (n mod 10)].
Definition pad6 (n : Z) : jsstring :=
  [digitChar (n / 100000); digitChar (n / 10000 mod 10)] ++ pad4 (n mod 10000).

(** The year of [toISOString]: four digits from 0 to 9999, otherwise a sign
    and six digits. *)
Definition isoYear (y : Z) : jsstring :=
  if (0 <=? y) && (y <=? 9999) then pad4 y
  else if y <? 0 then (45%N :: pad6 (- y)) else (43%N :: pad6 y).

(** [d.toISOString().split('T')[0]] for a valid time value. *)
Definition isoDatePart (t : Z) : jsstring :=
  isoYear (YearFromTime t) ++ [45%N] ++ pad2 (MonthFromTime t + 1)
  ++ [45%N] ++ pad2 (DateFromTime t).

Definition DaysInMonth (y m : Z) : Z :=
  monthStart (leapDay y) (m + 1) - monthStart (leapDay y) m.

Definition allDigits (s : jsstring) : bool := forallb isDigit s.

Definition number (s : jsstring) : Z :=
  fold_left (fun acc c => 10 * acc + digitVal c) s 0.

(** The fields read from the digits of a date: the month is in 01..12 and
    the day exists in that month of that year. *)
Definition isoDateFields (ys ms ds : jsstring) (sign : Z) : option (Z * Z * Z) :=
  if allDigits ys && allDigits ms && allDigits ds then
    let y := sign * number ys in
    let m := number ms in
    let d := number ds in
    if (1 <=? m) && (m <=? 12) && (1 <=? d) && (d <=? DaysInMonth y (m - 1))
    then Some (y, m, d) else None
  else None.

(** [YYYY-MM-DD] *)
Definition isoPlainDate (s : jsstring) : option (Z * Z * Z) :=
  match s with
  | [y1; y2; y3; y4; h1; m1; m2; h2; d1; d2] =>
      if (h1 =? 45)%N && (h2 =? 45)%N
      then isoDateFields [y1; y2; y3; y4] [m1; m2] [d1; d2] 1
      else None
  | _ => None
  end.

(** [YYYYYY-MM-DD] behind the sign of an expanded year. *)
Definition isoExpandedDate (sign : Z) (s : jsstring) : option (Z * Z * Z) :=
  match s with
  | [y1; y2; y3; y4; y5; y6; h1; m1; m2; h2; d1; d2] =>
      if (h1 =? 45)%N && (h2 =? 45)%N
         && negb ((sign <? 0) && (number [y1; y2; y3; y4; y5; y6] =? 0))
      then isoDateFields [y1; y2; y3; y4; y5; y6] [m1; m2] [d1; d2] sign
      else None
  | _ => None
  end.

(** The year, month and day of a complete date-only string of the
    ECMAScript date-time format: [YYYY-MM-DD], or with an expanded year
    [+YYYYYY-MM-DD] / [-YYYYYY-MM-DD] (never [-000000]). *)
Definition isoDateOnly (s : jsstring) : option (Z * Z * Z) :=
  match s with
  | c :: rest =>
      if (c =? 43)%N then isoExpandedDate 1 rest
      else if (c =? 45)%N then isoExpandedDate (-1) rest
      else isoPlainDate s
  | [] => None
  end.

Local Close Scope Z_scope.

(* ===================================================================== *)
(** ** Documents and hook outcomes                                        *)
(* ===================================================================== *)

(** What a [pre('save')] hook does with its document: call [next()], call
    [next(err)] with an [Error] of the given name and message, or throw (the
    [TypeError] of a method call on [undefined]). *)
Inductive outcome (A : Type) : Type :=
  | Next : A -> outcome A
  | NextError : string -> string -> outcome A
  | Throws : outcome A.

Arguments Next {A} _.
Arguments NextError {A} _ _.
Arguments Throws {A}.

#[global] Instance outcome_bind : MBind outcome := fun A B k o =>
  match o with
  | Next a => k a
  | NextError n m => NextError n m
  | Throws => Throws
  end.

Definition ObjectId := N.

(* ===================================================================== *)
(** ** What the engine decides                                            *)
(* ===================================================================== *)

Section Engine.

(** The two places where the result is fixed by the engine and not by the
    source: the Unicode case tables, used by [toLowerCase] on a string
    with a code unit outside ASCII, and what [Date.parse] does with a
    string that is not a complete date-only form (the forms with a time
    and the implementation-defined formats). [None] is NaN. *)
Variable unicodeLower : jsstring -> jsstring.
Variable parseOther : jsstring -> option Z.

(** [String.prototype.toLowerCase] *)
Definition toLowerCase (s : jsstring) : jsstring :=
  if forallb (fun c => c <? 128) s then asciiToLowerCase s else unicodeLower s.

(** The time value of [new Date(s)] for a string [s]. *)
Definition DateParse (s : jsstring) : option Z :=
  match isoDateOnly s with
  | Some (y, m, d) => TimeClip (MakeDate (MakeDay y (m - 1) d))
  | None =>
      match parseOther s with
      | Some t => TimeClip t
      | None => None
      end
  end.

End Engine.

(** An engine for closed examples. Its answers are used only for ASCII
    strings, where [toLowerCase] does not consult the Unicode tables, and for
    date strings that are complete date-only forms or that no engine reads
    as a date. *)
Definition noUnicode (s : jsstring) : jsstring := s.
Definition noOtherFormat (s : jsstring) : option Z := None.

(* ===================================================================== *)
(** ** [database/event.model.ts]                                          *)
(* ===================================================================== *)

Module Event.

(** The paths of [IEvent] that the hook and the schema options read. The
    string-valued paths may be missing ([None] is [undefined]). *)
Record Fields : Type := {
  title : option jsstring;
  slug : option jsstring;
  description : option jsstring;
  overview : option jsstring;
  image : option jsstring;
  venue : option jsstring;
  location : option jsstring;
  date : option jsstring;
  time : option jsstring;
  mode : option jsstring;
  audience : option jsstring;
  agenda : list jsstring;
  organizer : option jsstring;
  tags : list jsstring
}.

(** A Mongoose document: its values, [isNew] and the modified paths. *)
Record Doc : Type := {
  _id : ObjectId;
  fields : Fields;
  isNew : bool;
  modifiedPaths : list string
}.

Definition isModified (doc : Doc) (path : string) : bool :=
  existsb (String.eqb path) (modifiedPaths doc).

Definition withSlug (v : option jsstring) (f : Fields) : Fields :=
  {| title := title f; slug := v; description := description f;
     overview := overview f; image := image f; venue := venue f;
     location := location f; date := date f; time := time f; mode := mode f;
     audience := audience f; agenda := agenda f; organizer := organizer f;
     tags := tags f |}.

Definition withDate (v : option jsstring) (f : Fields) : Fields :=
  {| title := title f; slug := slug f; description := description f;
     overview := overview f; image := image f; venue := venue f;
     location := location f; date := v; time := time f; mode := mode f;
     audience := audience f; agenda := agenda f; organizer := organizer f;
     tags := tags f |}.

(** [markModified(path)]: a path that is marked keeps its place, a newly
    marked one comes last. *)
Definition markModified (path : string) (paths : list string) : list string :=
  if existsb (String.eqb path) paths then paths else paths ++ [path].

(** The modified paths after an assignment [this.path = v]: Mongoose marks
    the path when the document is new or when the value (as the setters
    leave it) is not the one the path had. *)
Definition assigned (path : string) (changed : bool) (doc : Doc) : list string :=
  if isNew doc || changed then markModified path (modifiedPaths doc)
  else modifiedPaths doc.

(** [this.get(field)] for a string-valued path. *)
Definition get (f : Fields) (field : string) : option jsstring :=
  if String.eqb field "title" then title f
  else if String.eqb field "description" then description f
  else if String.eqb field "overview" then overview f
  else if String.eqb field "image" then image f
  else if String.eqb field "venue" then venue f
  else if String.eqb field "location" then location f
  else if String.eqb field "date" then date f
  else if String.eqb field "time" then time f
  else if String.eqb field "mode" then mode f
  else if String.eqb field "audience" then audience f
  else if String.eqb field "organizer" then organizer f
  else if String.eqb field "slug" then slug f
  else None.

Definition requiredFields : list string :=
  ["title"; "description"; "overview"; "image"; "venue"; "location";
   "date"; "time"; "mode"; "audience"; "organizer"]%string.

(** The loop over [requiredFields]: the first name whose value is falsy. *)
Fixpoint firstMissing (f : Fields) (names : list string) : option string :=
  match names with
  | [] => None
  | name :: rest =>
      if truthy (get f name) then firstMissing f rest else Some name
  end.

Section Hooks.

Variable unicodeLower : jsstring -> jsstring.
Variable parseOther : jsstring -> option Z.

(** The schema options of [slug] ([lowercase: true], [trim: true]) are
    setters, they run at every assignment to the path. *)
Definition slugSetter (v : jsstring) : jsstring :=
  toLowerCase unicodeLower (trim v).

(** [this.title.toLowerCase().replace(...)...trim()] *)
Definition slugify (t : jsstring) : jsstring :=
  slugChain (toLowerCase unicodeLower t).

(** Auto-generate slug from title if it's new or title has changed. *)
Definition stepSlug (doc : Doc) : outcome Doc :=
  if isModified doc "title" || isNew doc then
    match title (fields doc) with
    | None => Throws
    | Some t =>
        Next {| _id := _id doc;
                fields := withSlug (Some (slugSetter (slugify t))) (fields doc);
                isNew := isNew doc;
                modifiedPaths :=
                  assigned "slug"
                    (negb (bool_decide
                             (slug (fields doc)
                              = Some (slugSetter (slugify t)))))
                    doc |}
    end
  else Next doc.

(** [new Date(this.date)], [isNaN(parsedDate.getTime())]. A missing
    [date] gives [new Date(undefined)], an invalid date. *)
Definition parsedDate (doc : Doc) : option Z :=
  match date (fields doc) with
  | Some s => DateParse parseOther s
  | None => None
  end.

(** Validate and normalize date to ISO format. *)
Definition stepDate (doc : Doc) : outcome Doc :=
  if isModified doc "date" then
    match parsedDate doc with
    | None => NextError "Error" "Invalid date format"
    | Some t =>
        Next {| _id := _id doc;
                fields := withDate (Some (isoDatePart t)) (fields doc);
                isNew := isNew doc;
                modifiedPaths := modifiedPaths doc |}
    end
  else Next doc.

(** [timeRegex.test(this.time)]; a missing [time] is tested as the
    string ['undefined']. *)
Definition timeTest (doc : Doc) : bool :=
  match time (fields doc) with
  | Some s => test timeRegex s
  | None => test timeRegex (js "undefined")
  end.

(** Ensure time format consistency (HH:MM). *)
Definition stepTime (doc : Doc) : outcome Doc :=
  if isModified doc "time" then
    if timeTest doc then Next doc
    else NextError "Error" "Time must be in HH:MM format"
  else Next doc.

(** Validate required fields. *)
Definition stepRequired (doc : Doc) : outcome Doc :=
  match firstMissing (fields doc) requiredFields with
  | Some name => NextError "Error" (String.append name " is required")
  | None => Next doc
  end.

(** [EventSchema.pre('save', function(next) { ... })] *)
Definition pre_save (doc : Doc) : outcome Doc :=
  d1 ← stepSlug doc;
  d2 ← stepDate d1;
  d3 ← stepTime d2;
  stepRequired d3.

(** *** Schema options *)

Definition trimmed (v : option jsstring) : option jsstring :=
  match v with
  | Some s => Some (trim s)
  | None => None
  end.

(** The setters of the schema ([trim: true], [lowercase: true]) applied
    to the values a document is built from. *)
Definition applySetters (f : Fields) : Fields :=
  {| title := trimmed (title f);
     slug := match slug f with Some s => Some (slugSetter s) | None => None end;
     description := trimmed (description f);
     overview := trimmed (overview f);
     image := image f;
     venue := trimmed (venue f);
     location := trimmed (location f);
     date := date f;
     time := time f;
     mode := mode f;
     audience := trimmed (audience f);
     agenda := agenda f;
     organizer := trimmed (organizer f);
     tags := tags f |}.

(** The failure a path reports: the message given in the schema, or the
    built-in message of the [enum] validator with the rejected value. *)
Inductive validatorError : Type :=
  | Message : string -> validatorError
  | NotInEnum : jsstring -> validatorError.

(** [required: [true, msg]] on a string: missing and [''] fail. *)
Definition required (path msg : string) (v : option jsstring)
  : list (string * validatorError) :=
  if truthy v then [] else [(path, Message msg)].

(** [required] first, then [maxlength: [n, msg]]. *)
Definition requiredMax (path reqMsg : string) (n : nat) (maxMsg : string)
    (v : option jsstring) : list (string * validatorError) :=
  match v with
  | Some (c :: s) =>
      if (n <? List.length (c :: s))%nat then [(path, Message maxMsg)] else []
  | _ => [(path, Message reqMsg)]
  end.

Definition modeEnum : list jsstring := [js "online"; js "offline"; js "hybrid"].

Definition requiredEnum (path reqMsg : string) (v : option jsstring)
  : list (string * validatorError) :=
  match v with
  | Some (c :: s) =>
      if existsb (fun e => bool_decide (e = c :: s)) modeEnum then []
      else [(path, NotInEnum (c :: s))]
  | _ => [(path, Message reqMsg)]
  end.

(** [validate: { validator: v => v.length > 0, message: msg }] *)
Definition nonEmptyArray (path msg : string) (v : list jsstring)
  : list (string * validatorError) :=
  match v with
  | [] => [(path, Message msg)]
  | _ => []
  end.

(** The validation Mongoose runs before the [pre('save')] hooks: one
    failure at most for each path, in the order of the schema. *)
Definition validate (f : Fields) : list (string * validatorError) :=
  requiredMax "title" "Title is required" 100
              "Title cannot exceed 100 characters" (title f)
  ++ requiredMax "description" "Description is required" 1000
              "Description cannot exceed 1000 characters" (description f)
  ++ requiredMax "overview" "Overview is required" 500
              "Overview cannot exceed 500 characters" (overview f)
  ++ required "image" "Image is required" (image f)
  ++ required "venue" "Venue is required" (venue f)
  ++ required "location" "Location is required" (location f)
  ++ required "date" "Date is required" (date f)
  ++ required "time" "Time is required" (time f)
  ++ requiredEnum "mode" "Mode is required" (mode f)
  ++ required "audience" "Audience is required" (audience f)
  ++ nonEmptyArray "agenda" "Agenda must have at least one item" (agenda f)
  ++ required "organizer" "Organizer is required" (organizer f)
  ++ nonEmptyArray "tags" "There must be at least one tag" (tags f).

(** The string paths a payload gives a value to. *)
Definition givenPaths (f : Fields) : list string :=
  List.filter (fun p => match get f p with Some _ => true | None => false end)
              ("slug" :: requiredFields)%string.

(** [new Event(payload)] *)
Definition build (oid : ObjectId) (payload : Fields) : Doc :=
  {| _id := oid; fields := applySetters payload; isNew := true;
     modifiedPaths := givenPaths payload |}.

End Hooks.

End Event.

(* ===================================================================== *)
(** ** [database/booking.model.ts]                                        *)
(* ===================================================================== *)

Module Booking.

Record Fields : Type := {
  eventId : ObjectId;
  email : option jsstring
}.

Record Doc : Type := {
  _id : ObjectId;
  fields : Fields;
  isNew : bool;
  modifiedPaths : list string
}.

Definition isModified (doc : Doc) (path : string) : bool :=
  existsb (String.eqb path) (modifiedPaths doc).

(** [emailRegex.test(this.email)] on a truthy [email]. *)
Definition emailTest (doc : Doc) : bool :=
  match email (fields doc) with
  | Some s => test emailRegex s
  | None => false
  end.

(** Validate that referenced event exists. [eventExists] is the answer of
    [await Event.exists({ _id: this.eventId })]: [Some b] when the query
    resolves, [None] when it rejects. *)
Definition checkEvent (eventExists : ObjectId -> option bool) (doc : Doc)
  : outcome Doc :=
  if isNew doc || isModified doc "eventId" then
    match eventExists (eventId (fields doc)) with
    | Some true => Next doc
    | Some false => NextError "Error" "Referenced event does not exist"
    | None =>
        NextError "ValidationError" "Invalid event ID format or database error"
    end
  else Next doc.

(** Validate email format. *)
Definition checkEmail (doc : Doc) : outcome Doc :=
  if negb (truthy (email (fields doc))) then
    NextError "Error" "Email is required"
  else if negb (emailTest doc) then NextError "Error" "Invalid email format"
  else Next doc.

(** [BookingSchema.pre('save', async function(next) { ... })] *)
Definition pre_save (eventExists : ObjectId -> option bool) (doc : Doc)
  : outcome Doc :=
  d1 ← checkEvent eventExists doc;
  checkEmail d1.

(** The validation of the schema: [required] and the [validate] option of
    [email]. *)
Definition validate (f : Fields) : list (string * string) :=
  match email f with
  | Some (c :: s) =>
      if test emailRegex (c :: s) then [] else [("email", "Invalid email format")]
  | _ => [("email", "Email is required")]
  end%string.

End Booking.

(* ===================================================================== *)
(** ** The store and [save]                                               *)
(* ===================================================================== *)

(** The two collections, and whether the store answers. *)
Record Database : Type := {
  events : list (ObjectId * Event.Fields);
  bookings : list (ObjectId * Booking.Fields);
  online : bool
}.

(** [Event.exists({ _id: id })] *)
Definition Event_exists (db : Database) (id : ObjectId) : option bool :=
  if online db then Some (existsb (fun r => fst r =? id) (events db)) else None.

Inductive saveResult (D E : Type) : Type :=
  | Saved : D -> saveResult D E
  | ValidationFailed : list (string * E) -> saveResult D E
  | Rejected : string -> string -> saveResult D E
  | Threw : saveResult D E
  | DuplicateKey : string -> saveResult D E
  | WriteFailed : saveResult D E.

Arguments Saved {D E} _.
Arguments ValidationFailed {D E} _.
Arguments Rejected {D E} _ _.
Arguments Threw {D E}.
Arguments DuplicateKey {D E} _.
Arguments WriteFailed {D E}.

(** Insert a new record, or replace the record of that identity. *)
Definition put {F : Type} (new : bool) (id : ObjectId) (f : F)
    (records : list (ObjectId * F)) : list (ObjectId * F) :=
  if new then records ++ [(id, f)]
  else List.map (fun r => if fst r =? id then (id, f) else r) records.

(** The unique index on [slug]: another record already has this value. *)
Definition slugTaken (db : Database) (id : ObjectId) (f : Event.Fields) : bool :=
  existsb (fun r => negb (fst r =? id)
                    && bool_decide (Event.slug (snd r) = Event.slug f))
          (events db).

Section Save.

Variable unicodeLower : jsstring -> jsstring.
Variable parseOther : jsstring -> option Z.

(** [doc.save()] of an Event: validation, the [pre('save')] hook, then the
    write, which the unique index may refuse. *)
Definition saveEvent (db : Database) (doc : Event.Doc)
  : Database * saveResult Event.Doc Event.validatorError :=
  match Event.validate (Event.fields doc) with
  | e :: es => (db, ValidationFailed (e :: es))
  | [] =>
      match Event.pre_save unicodeLower parseOther doc with
      | Next d =>
          if negb (online db) then (db, WriteFailed)
          else if slugTaken db (Event._id d) (Event.fields d)
          then (db, DuplicateKey "slug")
          else ({| events := put (Event.isNew d) (Event._id d) (Event.fields d)
                                 (events db);
                   bookings := bookings db;
                   online := online db |}, Saved d)
      | NextError n m => (db, Rejected n m)
      | Throws => (db, Threw)
      end
  end.

(** [Event.create(payload)] *)
Definition createEvent (db : Database) (oid : ObjectId) (payload : Event.Fields)
  : Database * saveResult Event.Doc Event.validatorError :=
  saveEvent db (Event.build unicodeLower oid payload).

End Save.

(** [doc.save()] of a Booking. *)
Definition saveBooking (db : Database) (doc : Booking.Doc)
  : Database * saveResult Booking.Doc string :=
  match Booking.validate (Booking.fields doc) with
  | e :: es => (db, ValidationFailed (e :: es))
  | [] =>
      match Booking.pre_save (Event_exists db) doc with
      | Next d =>
          if negb (online db) then (db, WriteFailed)
          else ({| events := events db;
                   bookings := put (Booking.isNew d) (Booking._id d)
                                   (Booking.fields d) (bookings db);
                   online := online db |}, Saved d)
      | NextError n m => (db, Rejected n m)
      | Throws => (db, Threw)
      end
  end.

(* ===================================================================== *)
(** ** [lib/mongodb.ts]: [MongoConnectionManager]                         *)
(* ===================================================================== *)

Module Manager.

(** A connection object of the driver, named by the order of creation. *)
Definition Connection := nat.

(** The names of the members a plain object inherits from
    [Object.prototype]. The two dictionaries of the class are plain
    objects: [this.connectionCache[uri]] and [this.isConnected[uri]] read
    the inherited member (a function or, for [__proto__], the prototype
    itself: truthy, and not [true]) when [uri] is one of these names and
    the dictionary has no property of its own under it. *)
Definition inheritedNames : list string :=
  ["constructor"; "__defineGetter__"; "__defineSetter__"; "hasOwnProperty";
   "__lookupGetter__"; "__lookupSetter__"; "isPrototypeOf";
   "propertyIsEnumerable"; "toString"; "valueOf"; "__proto__";
   "toLocaleString"]%string.

Definition inherited (uri : string) : bool :=
  bool_decide (uri ∈ inheritedNames).

(** The two dictionaries of the class: the properties of their own, keyed
    by the connection string. The functions below read a dictionary at
    [uri] as its own property; that is what the code reads at every
    connection string that is not the name of an inherited member. *)
Record State : Type := {
  connectionCache : gmap string Connection;
  isConnected : gmap string bool
}.

(** The manager together with the driver: the connection objects created
    so far, those whose connection was established, and the connection
    string captured by the listeners registered on a connection. *)
Record World : Type := {
  manager : State;
  created : nat;
  established : list Connection;
  listeners : gmap Connection string
}.

(** [MongoConnectionManager.getInstance()] in a fresh process. *)
Definition initial : World :=
  {| manager := {| connectionCache := ∅; isConnected := ∅ |};
     created := 0; established := []; listeners := ∅ |}.

Definition withManager (st : State) (w : World) : World :=
  {| manager := st; created := created w; established := established w;
     listeners := listeners w |}.

(** [this.isConnected[uri]] used as a condition. *)
Definition flag (st : State) (uri : string) : bool :=
  match isConnected st !! uri with
  | Some b => b
  | None => false
  end.

(** [delete this.connectionCache[uri]; delete this.isConnected[uri]] *)
Definition evict (uri : string) (st : State) : State :=
  {| connectionCache := delete uri (connectionCache st);
     isConnected := delete uri (isConnected st) |}.

(** Where [connect] stands when it first gives up control: it has returned
    the cached connection, or it awaits [mongoose.createConnection], which
    has created the connection object [c]. *)
Inductive started : Type :=
  | Cached : Connection -> started
  | Awaiting : Connection -> started.

(** [connect], up to the [await]. (At the name of an inherited member
    that the dictionaries do not hold, the code finds the member under
    both dictionaries and returns it here, without creating anything.) *)
Definition connect_begin (w : World) (uri : string) : World * started :=
  let dial (st : State) :=
    ({| manager := st; created := S (created w);
        established := established w; listeners := listeners w |},
     Awaiting (created w)) in
  match connectionCache (manager w) !! uri with
  | Some c =>
      if flag (manager w) uri then (w, Cached c)
      else dial (evict uri (manager w))
  | None => dial (manager w)
  end.

(** [connect], after the [await]: when the connection is established the
    listeners are registered and the connection is cached and returned;
    otherwise the error is thrown to the caller ([None]) and nothing is
    cached. *)
Definition connect_resume (w : World) (uri : string) (c : Connection)
    (ok : bool) : World * option Connection :=
  if ok then
    ({| manager :=
          {| connectionCache := <[uri := c]> (connectionCache (manager w));
             isConnected := isConnected (manager w) |};
        created := created w;
        established := established w ++ [c];
        listeners := <[c := uri]> (listeners w) |}, Some c)
  else (w, None).

(** A call of [connect] that nothing interleaves with. *)
Definition connect (w : World) (uri : string) (ok : bool)
  : World * option Connection :=
  match connect_begin w uri with
  | (w1, Cached c) => (w1, Some c)
  | (w1, Awaiting c) => connect_resume w1 uri c ok
  end.

Inductive event : Type := connected | error | disconnected.

(** The three listeners registered by [connect] for [uri]. *)
Definition handler (ev : event) (uri : string) (st : State) : State :=
  match ev with
  | connected =>
      {| connectionCache := connectionCache st;
         isConnected := <[uri := true]> (isConnected st) |}
  | error =>
      {| connectionCache := delete uri (connectionCache st);
         isConnected := <[uri := false]> (isConnected st) |}
  | disconnected =>
      {| connectionCache := connectionCache st;
         isConnected := <[uri := false]> (isConnected st) |}
  end.

(** The driver emits [ev] on the connection [c]. *)
Definition emit (c : Connection) (ev : event) (w : World) : World :=
  match listeners w !! c with
  | Some uri => withManager (handler ev uri (manager w)) w
  | None => w
  end.

(** [return this.connectionCache[uri] || null]: the cached connection.
    (At the name of an inherited member that the cache does not hold, the
    code returns the member.) *)
Definition getConnection (w : World) (uri : string) : option Connection :=
  connectionCache (manager w) !! uri.

(** [return this.isConnected[uri] === true] *)
Definition isConnectionAlive (w : World) (uri : string) : bool :=
  flag (manager w) uri.

(** No property of the two dictionaries is the name of an inherited
    member. So it is in a fresh manager, and so it stays: at such a name
    [connect] returns the inherited member before it writes anything or
    registers a listener, and the other methods only delete. *)
Definition ownKeysOrdinary (w : World) : Prop :=
  forall uri, inherited uri = true ->
    connectionCache (manager w) !! uri = None /\
    isConnected (manager w) !! uri = None.

(** [Object.keys(this.connectionCache)]: each cached connection string
    once. (The order of the array, the order of insertion, is not
    modelled.) *)
Definition keys (st : State) : list string :=
  (map_to_list (connectionCache st)).*1.

(** [return Object.keys(this.connectionCache).length] *)
Definition getConnectionCount (w : World) : nat :=
  List.length (keys (manager w)).

(** [return Object.keys(this.connectionCache)] *)
Definition getActiveConnections (w : World) : list string :=
  keys (manager w).

(** [disconnect]: [closed] tells whether [await connection.close()]
    resolves or rejects. The result tells whether the call resolves
    ([true]) or rethrows the error of [close] ([false]). The events the
    driver emits for the closed connection are transitions of their own
    ([emit]). (At the name of an inherited member that the cache does not
    hold, the code calls [close] on the member, which throws.) *)
Definition disconnect (w : World) (uri : string) (closed : bool)
  : World * bool :=
  match connectionCache (manager w) !! uri with
  | Some c =>
      if closed then (withManager (evict uri (manager w)) w, true)
      else (w, false)
  | None => (w, true)
  end.

(** [disconnectAll]: one [disconnect] for each cached connection string,
    all of them run to their end; [Promise.all] resolves when every one
    resolves. [closed uri] tells whether the connection of [uri] closes. *)
Definition disconnectAll (w : World) (closed : string -> bool)
  : World * bool :=
  fold_left
    (fun acc uri =>
       let (w1, ok1) := disconnect (fst acc) uri (closed uri) in
       (w1, snd acc && ok1))
    (keys (manager w)) (w, true).

(** The body of the [forEach] of [cleanup] for one connection string;
    [n] is [cleanedCount]. *)
Definition cleanupStep (acc : State * nat) (uri : string) : State * nat :=
  if flag (fst acc) uri then acc else (evict uri (fst acc), S (snd acc)).

(** [cleanup]: the new state and [cleanedCount]. *)
Definition cleanup (w : World) : World * nat :=
  let r := fold_left cleanupStep (keys (manager w)) (manager w, 0%nat) in
  (withManager (fst r) w, snd r).

End Manager.

(* ===================================================================== *)
(** ** The formats named by the specification                             *)
(* ===================================================================== *)

Definition twoDigits (n : N) : jsstring := [48 + n / 10; 48 + n mod 10].

(** Follows the specification: 24-hour [HH:MM], hours 00-23 and minutes
    00-59, both written with two digits. *)
Definition HHMM (t : jsstring) : Prop :=
  exists h m, h <= 23 /\ m <= 59 /\ t = twoDigits h ++ [58] ++ twoDigits m.

(** An hour below ten written with one digit, [H:MM]. *)
Definition HMM (t : jsstring) : Prop :=
  exists h m, h <= 9 /\ m <= 59 /\ t = [48 + h] ++ [58] ++ twoDigits m.

(** Follows the specification: the canonical [YYYY-MM-DD] form of the day
    [day] of the month [month] of the year [year]: four digits, two digits
    and two digits that read these numbers, with a hyphen between them. *)
Definition dateDigits (year month day : Z) (s : jsstring) : Prop :=
  exists ys ms ds,
    s = ys ++ [45] ++ ms ++ [45] ++ ds /\
    List.length ys = 4%nat /\ List.length ms = 2%nat /\
    List.length ds = 2%nat /\
    allDigits ys = true /\ allDigits ms = true /\ allDigits ds = true /\
    number ys = year /\ number ms = month /\ number ds = day.

Definition YYYYMMDD (s : jsstring) : Prop :=
  exists year month day, dateDigits year month day s.

(** Follows the specification: a character that is neither a space nor [@]. *)
Definition plain (c : N) : Prop := isSpace c = false /\ c <> 64.

(** Follows the specification: one or more plain characters, [@], one or
    more plain characters, [.], one or more plain characters. *)
Definition emailSyntax (e : jsstring) : Prop :=
  exists a b c,
    a <> [] /\ b <> [] /\ c <> [] /\
    Forall plain a /\ Forall plain b /\ Forall plain c /\
    e = a ++ [64] ++ b ++ [46] ++ c.

(** Follows the specification: lowercase letters, digits and hyphens. *)
Definition slugChar (c : N) : bool := isLowerAZ c || isDigit c || isHyphen c.

Definition headHyphen (s : jsstring) : bool :=
  match s with
  | c :: _ => isHyphen c
  | [] => false
  end.

Definition lastHyphen (s : jsstring) : bool := headHyphen (rev s).

(** No run of two or more consecutive hyphens. *)
Fixpoint singleHyphens (s : jsstring) : bool :=
  match s with
  | a :: t => negb (isHyphen a && headHyphen t) && singleHyphens t
  | [] => true
  end.

(** Follows the specification: only lowercase letters, digits and single
    hyphens, no leading and no trailing hyphen. *)
Definition wellFormedSlug (s : jsstring) : bool :=
  forallb slugChar s && singleHyphens s
  && negb (headHyphen s) && negb (lastHyphen s).

(* ===================================================================== *)
(** ** Concurrent calls of [connect]                                      *)
(* ===================================================================== *)

(** The rest of a call of [connect] that has been started. *)
Definition finish (w : Manager.World) (uri : string) (s : Manager.started)
    (ok : bool) : Manager.World * option Manager.Connection :=
  match s with
  | Manager.Cached c => (w, Some c)
  | Manager.Awaiting c => Manager.connect_resume w uri c ok
  end.

(** Two calls [A] and [B] of [connect] for the same [uri], both started
    before either connection is established, both successful. [aFirst]
    tells whose connection is established first. The result is the final
    world and what [A] and [B] receive. *)
Definition concurrentConnects (w : Manager.World) (uri : string) (aFirst : bool)
  : Manager.World * option Manager.Connection * option Manager.Connection :=
  let (w1, sA) := Manager.connect_begin w uri in
  let (w2, sB) := Manager.connect_begin w1 uri in
  if aFirst then
    let (w3, rA) := finish w2 uri sA true in
    let (w4, rB) := finish w3 uri sB true in
    (w4, rA, rB)
  else
    let (w3, rB) := finish w2 uri sB true in
    let (w4, rA) := finish w3 uri sA true in
    (w4, rA, rB).

(* ===================================================================== *)
(** ** Sample records                                                     *)
(* ===================================================================== *)

Definition sampleEvent (t d tm : jsstring) : Event.Fields :=
  {| Event.title := Some t;
     Event.slug := None;
     Event.description := Some (js "Talks and workshops for developers");
     Event.overview := Some (js "Two days of talks");
     Event.image := Some (js "/images/event1.png");
     Event.venue := Some (js "Las Vegas Convention Center");
     Event.location := Some (js "Las Vegas, NV");
     Event.date := Some d;
     Event.time := Some tm;
     Event.mode := Some (js "offline");
     Event.audience := Some (js "Developers");
     Event.agenda := [js "Keynote"];
     Event.organizer := Some (js "AWS");
     Event.tags := [js "cloud"] |}.

(** A stored Event loaded for an update that changed the given paths. *)
Definition storedEvent (t d tm : jsstring) (changed : list string) : Event.Doc :=
  {| Event._id := 7;
     Event.fields := Event.withSlug (Some (js "aws-reinvent-2024")) (sampleEvent t d tm);
     Event.isNew := false;
     Event.modifiedPaths := changed |}.

Definition emptyStore : Database :=
  {| events := []; bookings := []; online := true |}.

Definition oneEventStore : Database :=
  {| events := [(7, Event.withSlug (Some (js "aws-reinvent-2024"))
                      (sampleEvent (js "AWS re:Invent 2024") (js "2024-11-18")
                                   (js "09:00")))];
     bookings := []; online := true |}.

Definition newBooking (event : ObjectId) (e : jsstring) : Booking.Doc :=
  {| Booking._id := 21;
     Booking.fields := {| Booking.eventId := event; Booking.email := Some e |};
     Booking.isNew := true;
     Booking.modifiedPaths := ["eventId"; "email"]%string |}.

(** 100 letters followed by a space: 101 code units. *)
Definition paddedTitle : jsstring := repeat 97 100%nat ++ [32].

Definition sampleUri : string := "mongodb://localhost:27017/dev-events".

(** The manager after [connect(sampleUri)] succeeded and the driver
    reported [connected] on the connection. *)
Definition liveWorld : Manager.World :=
  Manager.emit 0%nat Manager.connected
               (fst (Manager.connect Manager.initial sampleUri true)).

(* ===================================================================== *)
(** ** The exported functions of [lib/mongodb.ts]                         *)
(* ===================================================================== *)

(** The value of a property of a [ConnectionOptions] object. A property
    may be present with the value [undefined]. *)
Inductive optionValue : Type :=
  | Num : N -> optionValue
  | Flag : bool -> optionValue
  | Undefined : optionValue.

(** [defaultConnectionOptions], and the [defaultOptions] of [connect]: the
    same ten properties. *)
Definition defaultConnectionOptions : gmap string optionValue :=
  list_to_map
    [("useNewUrlParser", Flag true); ("useUnifiedTopology", Flag true);
     ("maxPoolSize", Num 10); ("minPoolSize", Num 0);
     ("maxIdleTimeMS", Num 30000); ("serverSelectionTimeoutMS", Num 5000);
     ("connectTimeoutMS", Num 10000); ("socketTimeoutMS", Num 45000);
     ("retryWrites", Flag true); ("bufferMaxEntries", Num 0)]%string.

Definition defaultOptions : gmap string optionValue := defaultConnectionOptions.

(** [{ ...a, ...b }]: the properties of [b], and those of [a] that [b]
    does not have. *)
Definition spread (a b : gmap string optionValue) : gmap string optionValue :=
  b ∪ a.

(** The [connectionOptions] that [connect] passes to
    [mongoose.createConnection]. *)
Definition connectionOptions (options : gmap string optionValue)
  : gmap string optionValue :=
  spread defaultOptions options.

(** The options [connectToDatabase] passes to [connect]. *)
Definition connectToDatabaseOptions (options : gmap string optionValue)
  : gmap string optionValue :=
  spread defaultConnectionOptions options.

(** [a || b] on strings that may be missing: the empty string is falsy. *)
Definition orElse (a b : option string) : option string :=
  match a with
  | Some (String c s) => Some (String c s)
  | _ => b
  end.

(** How a call of [connectToDatabase] ends: with a connection, with the
    error of [connect], or with the error thrown when there is no
    connection string. *)
Inductive connectResult : Type :=
  | Handle : Manager.Connection -> connectResult
  | ConnectFailed : connectResult
  | UriMissing : connectResult.

(** [connectToDatabase(uri, options)]; [env] is [process.env.MONGODB_URI]
    and [ok] the outcome of the connection attempt, if one is made. *)
Definition connectToDatabase (env : option string) (w : Manager.World)
    (uri : option string) (ok : bool) : Manager.World * connectResult :=
  match orElse uri env with
  | Some (String c s) =>
      match Manager.connect w (String c s) ok with
      | (w1, Some h) => (w1, Handle h)
      | (w1, None) => (w1, ConnectFailed)
      end
  | _ => (w, UriMissing)
  end.

(** [getDatabaseConnection()] *)
Definition getDatabaseConnection (env : option string) (w : Manager.World)
  : option Manager.Connection :=
  match env with
  | Some (String c s) => Manager.getConnection w (String c s)
  | _ => None
  end.

(** [isDatabaseConnected()] *)
Definition isDatabaseConnected (env : option string) (w : Manager.World) : bool :=
  match env with
  | Some (String c s) => Manager.isConnectionAlive w (String c s)
  | _ => false
  end.

(** [disconnectDatabase()] *)
Definition disconnectDatabase (env : option string) (w : Manager.World)
    (closed : bool) : Manager.World * bool :=
  match env with
  | Some (String c s) => Manager.disconnect w (String c s) closed
  | _ => (w, true)
  end.

(* ===================================================================== *)
(** ** What is expected of the store                                      *)
(* ===================================================================== *)

(** No two Events of the store share an [_id], and no two share a slug. *)
Definition uniqueEvents (db : Database) : Prop :=
  NoDup (events db).*1 /\
  NoDup ((fun r => Event.slug (snd r)) <$> events db).

(* ===================================================================== *)
(** ** The list of events shown on the pages                              *)
(* ===================================================================== *)

Module Listing.

(** [interface Event] of the list. *)
Record Event : Type := {
  title : jsstring;
  image : jsstring;
  slug : jsstring;
  location : jsstring;
  date : jsstring;
  time : jsstring
}.

(** [events.slice(0, 6)] *)
Definition featuredEvents (events : list Event) : list Event :=
  firstn 6 events.

(** The names of the members a plain object inherits from
    [Object.prototype]: under each of them [acc[name]] is a function (or,
    for [__proto__], the prototype itself), which is truthy and has no
    [push]. *)
Definition objectPrototypeNames : list jsstring :=
  js <$> ["constructor"; "__defineGetter__"; "__defineSetter__";
          "hasOwnProperty"; "__lookupGetter__"; "__lookupSetter__";
          "isPrototypeOf"; "propertyIsEnumerable"; "toString"; "valueOf";
          "__proto__"; "toLocaleString"]%string.

Definition inherited (name : jsstring) : bool :=
  bool_decide (name ∈ objectPrototypeNames).

(** One step of the [reduce] of [eventsByLocation]: the array of the
    location is created when [acc[event.location]] is falsy, and the event
    is pushed. [None]: the step throws, [push] not being a function of the
    inherited member. *)
Definition addByLocation (acc : gmap jsstring (list Event)) (event : Event)
  : option (gmap jsstring (list Event)) :=
  match acc !! location event with
  | Some group => Some (<[location event := group ++ [event]]> acc)
  | None =>
      if inherited (location event) then None
      else Some (<[location event := [event]]> acc)
  end.

(** [events.reduce((acc, event) => ..., {})]; [None] when a step throws. *)
Definition eventsByLocation (events : list Event)
  : option (gmap jsstring (list Event)) :=
  fold_left (fun acc event => acc ← acc; addByLocation acc event)
            events (Some ∅).

Section Upcoming.

Variable parseOther : jsstring -> option Z.

(** [new Date(event.date).getTime()]; [None] is NaN. *)
Definition dateOf (event : Event) : option Z :=
  DateParse parseOther (date event).

(** [new Date(event.date) >= new Date()], where [now] is the time at
    which the callback runs: a comparison with NaN is false. *)
Definition isUpcoming (now : Z) (event : Event) : bool :=
  match dateOf event with
  | Some t => (now <=? t)%Z
  | None => false
  end.

(** [events.filter(event => new Date(event.date) >= new Date())] from the
    element of index [i] on: [clock i] is the time at which the callback
    runs for the element of index [i]. *)
Fixpoint filterUpcoming (clock : nat -> Z) (i : nat) (events : list Event)
  : list Event :=
  match events with
  | [] => []
  | event :: rest =>
      if isUpcoming (clock i) event
      then event :: filterUpcoming clock (S i) rest
      else filterUpcoming clock (S i) rest
  end.

(** The number the comparator of [sort] subtracts, for an event that has
    passed the filter (its date is valid). *)
Definition sortKey (event : Event) : Z :=
  match dateOf event with
  | Some t => t
  | None => 0%Z
  end.

(** [Array.prototype.sort] with the comparator
    [(a, b) => new Date(a.date).getTime() - new Date(b.date).getTime()]:
    ascending, and stable. *)
Fixpoint insertByDate (event : Event) (sorted : list Event) : list Event :=
  match sorted with
  | [] => [event]
  | x :: rest =>
      if (sortKey event <=? sortKey x)%Z then event :: x :: rest
      else x :: insertByDate event rest
  end.

Definition sortByDate (events : list Event) : list Event :=
  fold_right insertByDate [] events.

(** [events.filter(...).sort(...)] *)
Definition upcomingEvents (clock : nat -> Z) (events : list Event)
  : list Event :=
  sortByDate (filterUpcoming clock 0 events).

End Upcoming.

End Listing.

(* ===================================================================== *)
(** ** [app/api/events/route.ts]                                          *)
(* ===================================================================== *)

(** The status and the [message] of the JSON response. *)
Record response : Type := {
  status : N;
  message : string
}.

Section Route.

Variable unicodeLower : jsstring -> jsstring.
Variable parseOther : jsstring -> option Z.

(** [POST(req)]. [env] is [MONGODB_URI] and [ok] the outcome of the
    connection attempt; [body] is the payload read from the request, with
    its values as the schema casts them ([None] when reading it rejects),
    [copied] tells whether the copy made in the inner [try] succeeds; [db]
    is the store the Event model writes to and [oid] the [_id] of the new
    document. *)
Definition POST (env : option string) (w : Manager.World) (db : Database)
    (body : option Event.Fields) (copied : bool) (oid : ObjectId) (ok : bool)
  : Manager.World * Database * response :=
  match connectToDatabase env w None ok with
  | (w1, Handle _) =>
      match body with
      | Some payload =>
          if copied then
            match createEvent unicodeLower parseOther db oid payload with
            | (db1, Saved _) =>
                (w1, db1, {| status := 201;
                             message := "Event created successfully" |})
            | (db1, _) =>
                (w1, db1, {| status := 500;
                             message := "Event creation failed" |})
            end
          else (w1, db, {| status := 400; message := "Invalid form data" |})
      | None =>
          (w1, db, {| status := 500; message := "Event creation failed" |})
      end
  | (w1, _) =>
      (w1, db, {| status := 500; message := "Event creation failed" |})
  end.

End Route.

(* ===================================================================== *)
(** ** Lemmas on regular expressions                                      *)
(* ===================================================================== *)

Lemma nullable_lang r : nullable r = true <-> lang r [].
Proof.
  induction r as [| | p | a IHa b IHb | a IHa b IHb | a IHa]; simpl.
  - split; [discriminate | tauto].
  - tauto.
  - split; [discriminate | intros (c & E & _); discriminate].
  - rewrite orb_true_iff. tauto.
  - rewrite andb_true_iff. split.
    + intros [Ha Hb]. exists [], []. tauto.
    + intros (s1 & s2 & E & Ha & Hb).
      symmetry in E. apply app_eq_nil in E as [-> ->]. tauto.
  - split; [intros _ | reflexivity]. exists []. split; [reflexivity | constructor].
Qed.

Lemma deriv_lang r : forall c s, lang (deriv c r) s <-> lang r (c :: s).
Proof.
  induction r as [| | p | a IHa b IHb | a IHa b IHb | a IHa]; intros c s; simpl.
  - tauto.
  - split; [tauto | discriminate].
  - destruct (p c) eqn:Hp; simpl.
    + split.
      * intros ->. exists c. tauto.
      * intros (c' & E & _). now inversion E.
    + split; [tauto |].
      intros (c' & E & Hc'). inversion E; subst. congruence.
  - rewrite IHa, IHb. tauto.
  - assert (Hcat : lang (Cat (deriv c a) b) s <->
                   exists s1 s2, c :: s = (c :: s1) ++ s2 /\ lang a (c :: s1) /\ lang b s2).
    { simpl. split.
      - intros (s1 & s2 & -> & H1 & H2). exists s1, s2. rewrite <- IHa. tauto.
      - intros (s1 & s2 & E & H1 & H2). exists s1, s2. rewrite IHa.
        simpl in E. inversion E. tauto. }
    destruct (nullable a) eqn:Hn.
    + change (lang (Cat (deriv c a) b) s \/ lang (deriv c b) s <->
              exists s1 s2, c :: s = s1 ++ s2 /\ lang a s1 /\ lang b s2).
      rewrite Hcat, IHb. split.
      * intros [(s1 & s2 & E & H1 & H2) | Hb].
        -- exists (c :: s1), s2. tauto.
        -- exists [], (c :: s). apply nullable_lang in Hn. tauto.
      * intros (s1 & s2 & E & H1 & H2). destruct s1 as [| c' s1].
        -- right. simpl in E. now subst.
        -- left. simpl in E. inversion E; subst. exists s1, s2. tauto.
    + rewrite Hcat. split.
      * intros (s1 & s2 & E & H1 & H2). exists (c :: s1), s2. tauto.
      * intros (s1 & s2 & E & H1 & H2). destruct s1 as [| c' s1].
        -- apply nullable_lang in H1. congruence.
        -- simpl in E. inversion E; subst. exists s1, s2. tauto.
  - split.
    + intros (s1 & s2 & -> & H1 & ss & -> & Hss).
      exists ((c :: s1) :: ss). split; [reflexivity |].
      constructor; [| assumption]. split; [discriminate | now apply IHa].
    + intros (ss & E & Hss). destruct Hss as [| x ss [Hx Hax] Hss].
      * discriminate.
      * destruct x as [| c' x]; [congruence |].
        simpl in E. inversion E; subst.
        exists x, (concat ss). split; [reflexivity |]. split; [now apply IHa |].
        exists ss. tauto.
Qed.

Lemma test_lang s : forall r, test r s = true <-> lang r s.
Proof.
  induction s as [| c s IH]; intros r; simpl.
  - apply nullable_lang.
  - rewrite IH. apply deriv_lang.
Qed.

(* ===================================================================== *)
(** ** The time and e-mail patterns                                       *)
(* ===================================================================== *)

Lemma inRange_spec lo hi c : inRange lo hi c = true <-> lo <= c <= hi.
Proof.
  unfold inRange. rewrite andb_true_iff, !N.leb_le. tauto.
Qed.

Ltac break_lang :=
  repeat match goal with
    | H : exists _, _ |- _ => destruct H
    | H : _ /\ _ |- _ => destruct H
    | H : _ \/ _ |- _ => destruct H
    | H : inRange _ _ _ = true |- _ => apply inRange_spec in H
    | H : N.eqb _ _ = true |- _ => apply N.eqb_eq in H
    end; subst.

(** Quotients and remainders become plain unknowns for [lia]. *)
Ltac hide_divmod :=
  repeat match goal with
    | |- context [N.div ?a ?b] =>
        let q := fresh "q" in set (q := N.div a b) in *; clearbody q
    | |- context [N.modulo ?a ?b] =>
        let r := fresh "r" in set (r := N.modulo a b) in *; clearbody r
    | H : context [N.div ?a ?b] |- _ =>
        let q := fresh "q" in set (q := N.div a b) in *; clearbody q
    | H : context [N.modulo ?a ?b] |- _ =>
        let r := fresh "r" in set (r := N.modulo a b) in *; clearbody r
    end.

Lemma chr_lang p c : p c = true -> lang (Chr p) [c].
Proof. intros H. exists c. tauto. Qed.

Lemma twoDigits_of_chars a b :
  48 <= a <= 57 -> 48 <= b <= 57 ->
  twoDigits (10 * (a - 48) + (b - 48)) = [a; b].
Proof.
  intros Ha Hb. unfold twoDigits.
  replace ((10 * (a - 48) + (b - 48)) / 10) with (a - 48)
    by (apply N.div_unique with (r := b - 48); lia).
  replace ((10 * (a - 48) + (b - 48)) mod 10) with (b - 48)
    by (apply N.mod_unique with (q := a - 48); lia).
  f_equal; [lia | f_equal; lia].
Qed.

Lemma timeRegex_lang t : lang timeRegex t <-> HHMM t \/ HMM t.
Proof.
  split.
  - intros H. unfold timeRegex, Opt in H. cbn [lang] in H. break_lang;
      cbn [app];
      match goal with
      | |- _ \/ HMM [?b; 58; ?c; ?d] =>
          right; exists (b - 48), (10 * (c - 48) + (d - 48));
          rewrite twoDigits_of_chars by lia;
          split; [lia |]; split; [lia |]; cbn [app]; f_equal; lia
      | |- HHMM [?a; ?b; 58; ?c; ?d] \/ _ =>
          left; exists (10 * (a - 48) + (b - 48)), (10 * (c - 48) + (d - 48));
          rewrite !twoDigits_of_chars by lia;
          split; [lia |]; split; [lia |]; reflexivity
      end.
  - assert (Hmin : forall m, m <= 59 ->
              lang (Cat (Chr (N.eqb 58)) (Cat (Chr (inRange 48 53)) (Chr (inRange 48 57))))
                   ([58] ++ twoDigits m)).
    { intros m Hm.
      assert (m / 10 < 6) by (apply N.Div0.div_lt_upper_bound; lia).
      assert (m mod 10 < 10) by (apply N.mod_lt; lia).
      exists [58], (twoDigits m). split; [reflexivity |].
      split; [now apply chr_lang |].
      exists [48 + m / 10], [48 + m mod 10]. split; [reflexivity |].
      split; apply chr_lang, inRange_spec; hide_divmod; lia. }
    intros [(h & m & Hh & Hm & ->) | (h & m & Hh & Hm & ->)].
    + assert (h mod 10 < 10) by (apply N.mod_lt; lia).
      exists (twoDigits h), ([58] ++ twoDigits m). split; [reflexivity |].
      split; [| now apply Hmin].
      destruct (N.lt_ge_cases h 20) as [Hlt | Hge].
      * assert (h / 10 < 2) by (apply N.Div0.div_lt_upper_bound; lia).
        left. exists [48 + h / 10], [48 + h mod 10]. split; [reflexivity |].
        split; [right |]; apply chr_lang, inRange_spec; hide_divmod; lia.
      * assert (h / 10 = 2 /\ h mod 10 = h - 20) as [E1 E2].
        { split; symmetry.
          - apply N.div_unique with (r := h - 20); lia.
          - apply N.mod_unique with (q := 2); lia. }
        right. exists [48 + h / 10], [48 + h mod 10]. split; [reflexivity |].
        split; apply chr_lang; [apply N.eqb_eq | apply inRange_spec]; rewrite ?E1, ?E2; lia.
    + exists [48 + h], ([58] ++ twoDigits m). split; [reflexivity |].
      split; [| now apply Hmin].
      left. exists [], [48 + h]. split; [reflexivity |].
      split; [now left | apply chr_lang, inRange_spec; lia].
Qed.

Lemma timeRegex_test t : test timeRegex t = true <-> HHMM t \/ HMM t.
Proof. rewrite test_lang. apply timeRegex_lang. Qed.

Lemma notSpaceAt_plain c : notSpaceAt c = true <-> plain c.
Proof.
  unfold notSpaceAt, plain.
  rewrite negb_true_iff, orb_false_iff, N.eqb_neq. tauto.
Qed.

Lemma star_chr_lang p s :
  lang (Star (Chr p)) s <-> Forall (fun c => p c = true) s.
Proof.
  split.
  - intros (ss & -> & Hss). induction Hss as [| x ss [_ (c & -> & Hc)] _ IH]; cbn.
    + constructor.
    + now constructor.
  - intros H. induction H as [| c s Hc _ (ss & -> & Hss)].
    + exists []. split; [reflexivity | constructor].
    + exists ([c] :: ss). split; [reflexivity |].
      constructor; [| assumption]. split; [discriminate | now apply chr_lang].
Qed.

Lemma plus_chr_lang p s :
  lang (Plus (Chr p)) s <-> s <> [] /\ Forall (fun c => p c = true) s.
Proof.
  unfold Plus. split.
  - intros (s1 & s2 & -> & (c & -> & Hc) & H2). apply star_chr_lang in H2.
    split; [discriminate | now constructor].
  - intros [Hne H]. destruct H as [| c s Hc H]; [congruence |].
    exists [c], s. split; [reflexivity |].
    split; [now apply chr_lang | now apply star_chr_lang].
Qed.

Lemma Forall_plain s :
  Forall (fun c => notSpaceAt c = true) s <-> Forall plain s.
Proof.
  split; intros H; induction H; constructor; auto; now apply notSpaceAt_plain.
Qed.

Lemma emailRegex_lang e : lang emailRegex e <-> emailSyntax e.
Proof.
  unfold emailRegex, emailSyntax. split.
  - intros (a & r1 & -> & Ha & s1 & r2 & -> & (c1 & -> & Hc1) & b & r3 & -> & Hb
            & s2 & c & -> & (c2 & -> & Hc2) & Hc).
    apply plus_chr_lang in Ha as [Hna Ha], Hb as [Hnb Hb], Hc as [Hnc Hc].
    apply N.eqb_eq in Hc1, Hc2. subst c1 c2.
    exists a, b, c. rewrite <- !Forall_plain. tauto.
  - intros (a & b & c & Hna & Hnb & Hnc & Ha & Hb & Hc & ->).
    rewrite <- Forall_plain in Ha, Hb, Hc.
    exists a, ([64] ++ b ++ [46] ++ c). split; [reflexivity |].
    split; [now apply plus_chr_lang |].
    exists [64], (b ++ [46] ++ c). split; [reflexivity |].
    split; [now apply chr_lang |].
    exists b, ([46] ++ c). split; [reflexivity |].
    split; [now apply plus_chr_lang |].
    exists [46], c. split; [reflexivity |].
    split; [now apply chr_lang | now apply plus_chr_lang].
Qed.

Lemma emailRegex_test e : test emailRegex e = true <-> emailSyntax e.
Proof. rewrite test_lang. apply emailRegex_lang. Qed.

(* ===================================================================== *)
(** ** The calendar: [toISOString] and [Date.parse] are inverse           *)
(* ===================================================================== *)

Section Calendar.

Local Open Scope Z_scope.

Ltac zlia := Z.to_euclidean_division_equations; lia.

(** Evaluates the table [monthStart] at the months of the goal. *)
Ltac month_case :=
  cbn;
  repeat match goal with
    | |- context [monthStart _ (?k + 1)] =>
        let v := eval vm_compute in (k + 1) in change (k + 1) with v
    end;
  unfold monthStart; cbn; lia.

Lemma YearFromDay_spec d :
  DayFromYear (YearFromDay d) <= d < DayFromYear (YearFromDay d + 1).
Proof.
  unfold YearFromDay.
  destruct (Z.leb_spec (DayFromYear (1970 + (400 * d) / 146097 + 1)) d) as [H1 | H1].
  - split; [exact H1 |]. clear H1. unfold DayFromYear. zlia.
  - destruct (Z.leb_spec (DayFromYear (1970 + (400 * d) / 146097)) d) as [H2 | H2].
    + split; [exact H2 | exact H1].
    + clear H1. split.
      * unfold DayFromYear. zlia.
      * replace (1970 + (400 * d) / 146097 - 1 + 1)
          with (1970 + (400 * d) / 146097) by lia.
        exact H2.
Qed.

Lemma YearFromDay_range d :
  -100000000 <= d <= 100000000 -> -271821 <= YearFromDay d <= 275760.
Proof.
  intros Hd. pose proof (YearFromDay_spec d) as H.
  unfold DayFromYear in H. zlia.
Qed.

Lemma leapDay_cases y : leapDay y = 0 \/ leapDay y = 1.
Proof. unfold leapDay. destruct (isLeap y); auto. Qed.

Lemma DayFromYear_succ y :
  DayFromYear (y + 1) = DayFromYear y + 365 + leapDay y.
Proof.
  unfold DayFromYear, leapDay, isLeap.
  destruct (Z.eqb_spec (y mod 4) 0), (Z.eqb_spec (y mod 100) 0),
    (Z.eqb_spec (y mod 400) 0); cbn; zlia.
Qed.

Lemma MonthFromDayInYear_spec l dy :
  l = 0 \/ l = 1 -> 0 <= dy < 365 + l ->
  0 <= MonthFromDayInYear l dy <= 11 /\
  monthStart l (MonthFromDayInYear l dy) <= dy
    < monthStart l (MonthFromDayInYear l dy + 1).
Proof.
  intros Hl Hdy. unfold MonthFromDayInYear.
  destruct (Z.ltb_spec dy 31); [month_case |].
  destruct (Z.ltb_spec dy (59 + l)); [month_case |].
  destruct (Z.ltb_spec dy (90 + l)); [month_case |].
  destruct (Z.ltb_spec dy (120 + l)); [month_case |].
  destruct (Z.ltb_spec dy (151 + l)); [month_case |].
  destruct (Z.ltb_spec dy (181 + l)); [month_case |].
  destruct (Z.ltb_spec dy (212 + l)); [month_case |].
  destruct (Z.ltb_spec dy (243 + l)); [month_case |].
  destruct (Z.ltb_spec dy (273 + l)); [month_case |].
  destruct (Z.ltb_spec dy (304 + l)); [month_case |].
  destruct (Z.ltb_spec dy (334 + l)); [month_case |].
  month_case.
Qed.

Lemma DaysInMonth_le y m : 0 <= m <= 11 -> DaysInMonth y m <= 31.
Proof.
  intros Hm. unfold DaysInMonth.
  destruct (leapDay_cases y) as [-> | ->];
    assert (m = 0 \/ m = 1 \/ m = 2 \/ m = 3 \/ m = 4 \/ m = 5 \/ m = 6 \/
            m = 7 \/ m = 8 \/ m = 9 \/ m = 10 \/ m = 11) as Hc by lia;
    repeat destruct Hc as [-> | Hc]; subst; month_case.
Qed.

(** The fields [toISOString] prints are a date of the calendar, and
    [MakeDay] leads back from them to the day. *)
Lemma civil_fields t :
  0 <= MonthFromTime t <= 11 /\
  1 <= DateFromTime t <= DaysInMonth (YearFromTime t) (MonthFromTime t) /\
  MakeDay (YearFromTime t) (MonthFromTime t) (DateFromTime t) = Day t.
Proof.
  unfold DateFromTime, MonthFromTime, DaysInMonth, MakeDay, DayWithinYear,
    YearFromTime.
  pose proof (YearFromDay_spec (Day t)) as Hy.
  rewrite DayFromYear_succ in Hy.
  set (y := YearFromDay (Day t)) in *.
  pose proof (leapDay_cases y) as Hl.
  destruct (MonthFromDayInYear_spec (leapDay y) (Day t - DayFromYear y) Hl)
    as [Hm Hs]; [lia |].
  lia.
Qed.

Lemma digitVal_digitChar q : 0 <= q <= 9 -> digitVal (digitChar q) = q.
Proof. intros Hq. unfold digitVal, digitChar. lia. Qed.

Lemma isDigit_digitChar q : 0 <= q <= 9 -> isDigit (digitChar q) = true.
Proof.
  intros Hq. unfold isDigit, digitChar. apply inRange_spec. lia.
Qed.

Lemma digitChar_not c q :
  0 <= q <= 9 -> (c < 48)%N -> (digitChar q =? c)%N = false.
Proof. intros Hq Hc. apply N.eqb_neq. unfold digitChar. lia. Qed.

Lemma pad2_digits n :
  0 <= n <= 99 -> allDigits (pad2 n) = true /\ number (pad2 n) = n.
Proof.
  intros Hn. unfold allDigits, number, pad2. cbn [forallb fold_left].
  rewrite !isDigit_digitChar, !digitVal_digitChar by zlia.
  split; [reflexivity | zlia].
Qed.

Lemma pad4_digits n :
  0 <= n <= 9999 -> allDigits (pad4 n) = true /\ number (pad4 n) = n.
Proof.
  intros Hn. unfold allDigits, number, pad4. cbn [forallb fold_left].
  rewrite !isDigit_digitChar, !digitVal_digitChar by zlia.
  split; [reflexivity | zlia].
Qed.

Lemma pad6_digits n :
  0 <= n <= 999999 -> allDigits (pad6 n) = true /\ number (pad6 n) = n.
Proof.
  intros Hn. unfold allDigits, number, pad6, pad4. cbn [forallb fold_left app].
  rewrite !isDigit_digitChar, !digitVal_digitChar by zlia.
  split; [reflexivity | zlia].
Qed.

Lemma isoDateFields_digits ys ms ds sign y m d :
  allDigits ys = true -> allDigits ms = true -> allDigits ds = true ->
  sign * number ys = y -> number ms = m -> number ds = d ->
  1 <= m <= 12 -> 1 <= d <= DaysInMonth y (m - 1) ->
  isoDateFields ys ms ds sign = Some (y, m, d).
Proof.
  intros Hys Hms Hds Hy Hm Hd Rm Rd. unfold isoDateFields.
  rewrite Hys, Hms, Hds, Hy, Hm, Hd. cbn [andb].
  replace ((1 <=? m) && (m <=? 12) && (1 <=? d) && (d <=? DaysInMonth y (m - 1)))
    with true; [reflexivity |].
  symmetry. rewrite !andb_true_iff, !Z.leb_le. lia.
Qed.

(** A date printed by [toISOString] is read back field by field. *)
Lemma isoDateOnly_print y m d :
  -999999 <= y <= 999999 -> 1 <= m <= 12 -> 1 <= d <= DaysInMonth y (m - 1) ->
  isoDateOnly (isoYear y ++ [45%N] ++ pad2 m ++ [45%N] ++ pad2 d)
  = Some (y, m, d).
Proof.
  intros Hy Hm Hd.
  assert (Hd31 : d <= 31) by (pose proof (DaysInMonth_le y (m - 1)); lia).
  destruct (pad2_digits m) as [Am Nm]; [lia |].
  destruct (pad2_digits d) as [Ad Nd]; [lia |].
  unfold isoYear.
  destruct (Z.leb_spec 0 y) as [H0 | H0]; cbn [andb].
  - destruct (Z.leb_spec y 9999) as [H9 | H9].
    + destruct (pad4_digits y) as [Ay Ny]; [lia |].
      revert Ay Ny Am Nm Ad Nd. unfold pad4, pad2. intros.
      cbn [app isoDateOnly].
      rewrite !digitChar_not by (lia || zlia).
      cbn [isoPlainDate]. rewrite N.eqb_refl. cbn [andb].
      apply isoDateFields_digits; auto; lia.
    + destruct (Z.ltb_spec y 0) as [Hneg | _]; [lia |].
      destruct (pad6_digits y) as [Ay Ny]; [lia |].
      revert Ay Ny Am Nm Ad Nd. unfold pad6, pad4, pad2. intros.
      cbn [app] in Ay, Ny.
      cbn [app isoDateOnly]. rewrite N.eqb_refl.
      cbn [isoExpandedDate]. rewrite N.eqb_refl. cbn [andb Z.ltb Z.compare negb].
      apply isoDateFields_digits; auto; lia.
  - destruct (Z.ltb_spec y 0) as [_ | Hpos]; [| lia].
    destruct (pad6_digits (- y)) as [Ay Ny]; [lia |].
    revert Ay Ny Am Nm Ad Nd. unfold pad6, pad4, pad2. intros.
    cbn [app] in Ay, Ny.
    cbn [app isoDateOnly].
    change ((45 =? 43)%N) with false. rewrite N.eqb_refl. cbn iota.
    cbn [isoExpandedDate]. rewrite N.eqb_refl, Ny.
    replace (- y =? 0) with false by (symmetry; apply Z.eqb_neq; lia).
    cbn [andb Z.ltb Z.compare negb Z.opp].
    apply isoDateFields_digits; auto; lia.
Qed.

Lemma Day_range t :
  Z.abs t <= maxTime -> -100000000 <= Day t <= 100000000.
Proof. unfold Day, maxTime, msPerDay. intros H. zlia. Qed.

Lemma Day_MakeDate d : Day (MakeDate d) = d.
Proof. unfold Day, MakeDate, msPerDay. apply Z.div_mul. discriminate. Qed.

Lemma isoDatePart_Day t : isoDatePart (MakeDate (Day t)) = isoDatePart t.
Proof.
  unfold isoDatePart, DateFromTime, MonthFromTime, DayWithinYear, YearFromTime.
  now rewrite Day_MakeDate.
Qed.

Variable parseOther : jsstring -> option Z.

(** Parsing what [toISOString] printed gives midnight of the same day. *)
Lemma DateParse_isoDatePart t :
  Z.abs t <= maxTime ->
  DateParse parseOther (isoDatePart t) = Some (MakeDate (Day t)).
Proof.
  intros Ht. pose proof (Day_range t Ht) as Hd.
  destruct (civil_fields t) as (Hm & Hdd & Hmk).
  pose proof (YearFromDay_range (Day t) Hd) as Hy. fold (YearFromTime t) in Hy.
  unfold DateParse, isoDatePart.
  rewrite isoDateOnly_print.
  - replace (MonthFromTime t + 1 - 1) with (MonthFromTime t) by lia.
    rewrite Hmk. unfold TimeClip.
    replace (Z.abs (MakeDate (Day t)) <=? maxTime) with true; [reflexivity |].
    symmetry. apply Z.leb_le. unfold MakeDate, maxTime, msPerDay. lia.
  - lia.
  - lia.
  - replace (MonthFromTime t + 1 - 1) with (MonthFromTime t) by lia. exact Hdd.
Qed.

Lemma DateParse_clipped s t :
  DateParse parseOther s = Some t -> Z.abs t <= maxTime.
Proof.
  unfold DateParse, TimeClip. intros H.
  destruct (isoDateOnly s) as [[[y m] d] |].
  - destruct (Z.leb_spec (Z.abs (MakeDate (MakeDay y (m - 1) d))) maxTime);
      inversion H; subst; assumption.
  - destruct (parseOther s) as [t' |]; [| discriminate].
    destruct (Z.leb_spec (Z.abs t') maxTime); inversion H; subst; assumption.
Qed.

End Calendar.

(* ===================================================================== *)
(** ** The chain of replacements that derives the slug                    *)
(* ===================================================================== *)

Lemma slugChar_not_space c : slugChar c = true -> isSpace c = false.
Proof.
  unfold slugChar, isLowerAZ, isDigit, isHyphen. intros H.
  rewrite !orb_true_iff, !inRange_spec, N.eqb_eq in H.
  apply not_true_iff_false. unfold isSpace.
  rewrite !orb_true_iff, !inRange_spec, !N.eqb_eq. lia.
Qed.

Lemma slugKeep_cases c :
  slugKeep c = true -> isSpace c = true \/ slugChar c = true.
Proof.
  unfold slugKeep, slugChar. rewrite !orb_true_iff. tauto.
Qed.

Lemma slugChar_hyphen : slugChar 45 = true.
Proof. reflexivity. Qed.

Lemma isHyphen_slugChar c : isHyphen c = true -> slugChar c = true.
Proof. unfold slugChar. intros ->. apply orb_true_r. Qed.

Lemma stripOthers_keep s : forallb slugKeep (stripOthers s) = true.
Proof.
  unfold stripOthers. induction s as [| c s IH]; cbn; [reflexivity |].
  destruct (slugKeep c) eqn:Hc; cbn; [rewrite Hc |]; exact IH.
Qed.

Lemma spacesToHyphen_chars s : forall b,
  forallb slugKeep s = true ->
  forallb slugChar (replaceRuns isSpace b s) = true.
Proof.
  induction s as [| c s IH]; intros b H; cbn; [reflexivity |].
  cbn in H. apply andb_true_iff in H as [Hc Hs].
  destruct (isSpace c) eqn:Hsp.
  - destruct b; cbn; auto.
  - destruct (slugKeep_cases c Hc) as [E | E]; [congruence |].
    cbn. rewrite E. cbn. auto.
Qed.

Lemma collapseHyphens_chars s : forall b,
  forallb slugChar s = true ->
  forallb slugChar (replaceRuns isHyphen b s) = true.
Proof.
  induction s as [| c s IH]; intros b H; cbn; [reflexivity |].
  cbn in H. apply andb_true_iff in H as [Hc Hs].
  destruct (isHyphen c) eqn:Hh.
  - destruct b; cbn; auto.
  - cbn. rewrite Hc. cbn. auto.
Qed.

Lemma collapseHyphens_head s :
  headHyphen (replaceRuns isHyphen true s) = false.
Proof.
  induction s as [| c s IH]; cbn; [reflexivity |].
  destruct (isHyphen c) eqn:Hh; [exact IH | exact Hh].
Qed.

Lemma collapseHyphens_single s : forall b,
  singleHyphens (replaceRuns isHyphen b s) = true.
Proof.
  induction s as [| c s IH]; intros b; cbn; [reflexivity |].
  destruct (isHyphen c) eqn:Hh.
  - destruct b; [apply IH |].
    cbn. rewrite collapseHyphens_head. cbn. apply IH.
  - cbn. rewrite Hh. cbn. apply IH.
Qed.

Lemma singleHyphens_app a : forall b,
  singleHyphens (a ++ b) = true -> singleHyphens a = true.
Proof.
  induction a as [| x a IH]; intros b H; cbn in *; [reflexivity |].
  apply andb_true_iff in H as [Hx Ha].
  rewrite (IH _ Ha), andb_true_r.
  destruct a as [| y a]; cbn in *; [now rewrite andb_false_r | exact Hx].
Qed.

Lemma singleHyphens_last a : forall x y,
  singleHyphens (a ++ [x; y]) = true -> isHyphen x && isHyphen y = false.
Proof.
  induction a as [| z a IH]; intros x y H; cbn in H.
  - rewrite andb_true_r in H. apply andb_true_iff in H as [H _].
    now apply negb_true_iff in H.
  - apply andb_true_iff in H as [_ H]. now apply IH.
Qed.

Lemma singleHyphens_tail a t : singleHyphens (a :: t) = true -> singleHyphens t = true.
Proof. cbn. intros H. now apply andb_true_iff in H as [_ H]. Qed.

Lemma forallb_tail {A} (p : A -> bool) a t :
  forallb p (a :: t) = true -> forallb p t = true.
Proof. cbn. intros H. now apply andb_true_iff in H as [_ H]. Qed.

Lemma dropLastHyphen_chars s :
  forallb slugChar s = true -> forallb slugChar (dropLastHyphen s) = true.
Proof.
  intros H. unfold dropLastHyphen.
  destruct (rev s) as [| c t] eqn:E; [exact H |].
  destruct (isHyphen c); [| exact H].
  rewrite <- (rev_involutive s), E in H. cbn in H.
  rewrite forallb_app in H. now apply andb_true_iff in H as [H _].
Qed.

Lemma dropLastHyphen_single s :
  singleHyphens s = true ->
  singleHyphens (dropLastHyphen s) = true /\ lastHyphen (dropLastHyphen s) = false.
Proof.
  intros H. unfold dropLastHyphen, lastHyphen.
  destruct (rev s) as [| c t] eqn:E.
  - rewrite E. auto.
  - destruct (isHyphen c) eqn:Hc.
    + rewrite <- (rev_involutive s), E in H. cbn in H. split.
      * now apply singleHyphens_app in H.
      * rewrite rev_involutive. destruct t as [| d t]; [reflexivity |].
        cbn in H. rewrite <- app_assoc in H. cbn in H.
        apply singleHyphens_last in H. rewrite Hc, andb_true_r in H. exact H.
    + rewrite E. cbn. auto.
Qed.

Lemma stripEdges_chars s :
  forallb slugChar s = true -> forallb slugChar (stripEdges s) = true.
Proof.
  intros H. unfold stripEdges.
  destruct s as [| a [| b t]]; try now apply dropLastHyphen_chars.
  destruct (isHyphen a && isHyphen b); apply dropLastHyphen_chars; [| exact H].
  now apply forallb_tail, forallb_tail in H.
Qed.

Lemma stripEdges_single s :
  singleHyphens s = true ->
  singleHyphens (stripEdges s) = true /\ lastHyphen (stripEdges s) = false.
Proof.
  intros H. unfold stripEdges.
  destruct s as [| a [| b t]]; try now apply dropLastHyphen_single.
  destruct (isHyphen a && isHyphen b); apply dropLastHyphen_single; [| exact H].
  now apply singleHyphens_tail, singleHyphens_tail in H.
Qed.

Lemma dropWhile_none p s :
  forallb (fun c => negb (p c)) s = true -> dropWhile p s = s.
Proof.
  destruct s as [| c s]; cbn; [reflexivity |].
  intros H. apply andb_true_iff in H as [Hc _].
  apply negb_true_iff in Hc. now rewrite Hc.
Qed.

Lemma forallb_rev {A} (p : A -> bool) s :
  forallb p s = true -> forallb p (rev s) = true.
Proof.
  rewrite !forallb_forall. intros H x Hx. apply H. now apply in_rev.
Qed.

Lemma forallb_impl {A} (p q : A -> bool) s :
  (forall x, p x = true -> q x = true) ->
  forallb p s = true -> forallb q s = true.
Proof.
  intros Hpq. rewrite !forallb_forall. auto.
Qed.

Lemma trim_slugChars s : forallb slugChar s = true -> trim s = s.
Proof.
  intros H.
  assert (Hs : forallb (fun c => negb (isSpace c)) s = true).
  { revert H. apply forallb_impl. intros c Hc.
    now rewrite (slugChar_not_space c Hc). }
  unfold trim. rewrite (dropWhile_none _ s Hs).
  rewrite (dropWhile_none _ (rev s)) by now apply forallb_rev.
  apply rev_involutive.
Qed.

Lemma asciiLower_slugChar c : slugChar c = true -> asciiLower c = c /\ (c <? 128) = true.
Proof.
  unfold slugChar, isLowerAZ, isDigit, isHyphen, asciiLower. intros H.
  rewrite !orb_true_iff, !inRange_spec, N.eqb_eq in H.
  replace (inRange 65 90 c) with false.
  - split; [reflexivity | apply N.ltb_lt; lia].
  - symmetry. apply not_true_iff_false. rewrite inRange_spec. lia.
Qed.

Lemma toLowerCase_slugChars ul s :
  forallb slugChar s = true -> toLowerCase ul s = s.
Proof.
  intros H. unfold toLowerCase.
  replace (forallb (fun c => c <? 128) s) with true.
  - unfold asciiToLowerCase. induction s as [| c s IH]; cbn; [reflexivity |].
    cbn in H. apply andb_true_iff in H as [Hc Hs].
    now rewrite (proj1 (asciiLower_slugChar c Hc)), IH.
  - symmetry. revert H. apply forallb_impl. intros c Hc.
    apply (asciiLower_slugChar c Hc).
Qed.

(** What holds of every derived slug: its characters are lowercase letters,
    digits and hyphens, no two hyphens follow each other and the last
    character is not a hyphen; the setters of the path keep it as it is. *)
Lemma slugChain_shape s :
  forallb slugChar (slugChain s) = true /\
  singleHyphens (slugChain s) = true /\
  lastHyphen (slugChain s) = false.
Proof.
  unfold slugChain, collapseHyphens, spacesToHyphen.
  set (u := stripEdges _).
  assert (Hc : forallb slugChar u = true).
  { apply stripEdges_chars, collapseHyphens_chars, spacesToHyphen_chars,
      stripOthers_keep. }
  destruct (stripEdges_single (replaceRuns isHyphen false
             (replaceRuns isSpace false (stripOthers s))))
    as [H1 H2]; [apply collapseHyphens_single |].
  fold u in H1, H2. rewrite (trim_slugChars u Hc). auto.
Qed.

Lemma slugSetter_slugChain ul s :
  Event.slugSetter ul (slugChain s) = slugChain s.
Proof.
  destruct (slugChain_shape s) as [Hc _]. unfold Event.slugSetter.
  now rewrite (trim_slugChars _ Hc), (toLowerCase_slugChars _ _ Hc).
Qed.

(* ===================================================================== *)
(** ** The steps of [EventSchema.pre('save')]                             *)
(* ===================================================================== *)

Section EventHook.

Variable unicodeLower : jsstring -> jsstring.
Variable parseOther : jsstring -> option Z.

Abbreviation stepSlug := (Event.stepSlug unicodeLower).
Abbreviation stepDate := (Event.stepDate parseOther).
Abbreviation pre_save := (Event.pre_save unicodeLower parseOther).

Lemma isModified_markModified (path : string) (paths : list string) :
  path <> "slug"%string ->
  existsb (String.eqb path) (Event.markModified "slug" paths)
  = existsb (String.eqb path) paths.
Proof.
  intros Hne. unfold Event.markModified.
  destruct (existsb (String.eqb "slug") paths); [reflexivity |].
  rewrite existsb_app. cbn. apply String.eqb_neq in Hne.
  now rewrite Hne, !orb_false_r.
Qed.

Lemma isModified_assigned (path : string) (changed : bool) (doc : Event.Doc) :
  path <> "slug"%string ->
  existsb (String.eqb path) (Event.assigned "slug" changed doc)
  = Event.isModified doc path.
Proof.
  intros Hne. unfold Event.assigned, Event.isModified.
  destruct (Event.isNew doc || changed); [| reflexivity].
  now apply isModified_markModified.
Qed.

Lemma markModified_again (path : string) (paths : list string) :
  Event.markModified path (Event.markModified path paths)
  = Event.markModified path paths.
Proof.
  unfold Event.markModified.
  destruct (existsb (String.eqb path) paths) eqn:E; [now rewrite E |].
  rewrite existsb_app. cbn. now rewrite String.eqb_refl, orb_true_r.
Qed.

(** The slug step changes the slug and marks it, nothing else. *)
Lemma stepSlug_frame doc d :
  stepSlug doc = Next d ->
  Event.isNew d = Event.isNew doc /\
  Event._id d = Event._id doc /\
  (forall path, path <> "slug"%string ->
     Event.isModified d path = Event.isModified doc path) /\
  (forall name, In name Event.requiredFields ->
     Event.get (Event.fields d) name = Event.get (Event.fields doc) name).
Proof.
  unfold Event.stepSlug. intros H.
  destruct (Event.isModified doc "title" || Event.isNew doc).
  - destruct (Event.title (Event.fields doc)) as [t |]; [| discriminate].
    inversion H; subst; clear H. cbn. repeat split; auto.
    + intros path Hne. unfold Event.isModified. cbn.
      now apply isModified_assigned.
    + intros name Hin. cbn in Hin.
      repeat destruct Hin as [<- | Hin]; try reflexivity. contradiction.
  - inversion H; subst. repeat split; auto.
Qed.


(** The date step changes the date, nothing else. *)
Lemma stepDate_frame doc d :
  stepDate doc = Next d ->
  Event.isNew d = Event.isNew doc /\
  Event._id d = Event._id doc /\
  Event.modifiedPaths d = Event.modifiedPaths doc /\
  Event.slug (Event.fields d) = Event.slug (Event.fields doc) /\
  (forall name, In name Event.requiredFields -> name <> "date"%string ->
     Event.get (Event.fields d) name = Event.get (Event.fields doc) name).
Proof.
  unfold Event.stepDate. intros H.
  destruct (Event.isModified doc "date").
  - destruct (Event.parsedDate parseOther doc) as [t |]; [| discriminate].
    inversion H; subst; clear H. cbn. repeat split; auto.
    intros name Hin Hne. cbn in Hin.
    repeat destruct Hin as [<- | Hin]; try reflexivity; try contradiction.
  - inversion H; subst. repeat split; auto.
Qed.

Lemma stepTime_Next doc d : Event.stepTime doc = Next d -> d = doc.
Proof.
  unfold Event.stepTime. intros H.
  destruct (Event.isModified doc "time");
    [destruct (Event.timeTest doc); [| discriminate] |];
    now inversion H.
Qed.

Lemma stepRequired_Next doc d : Event.stepRequired doc = Next d -> d = doc.
Proof.
  unfold Event.stepRequired. intros H.
  destruct (Event.firstMissing (Event.fields doc) Event.requiredFields);
    [discriminate | now inversion H].
Qed.

(** A hook that calls [next()] has passed its four steps in turn. *)
Lemma pre_save_Next doc d :
  pre_save doc = Next d ->
  exists d1, stepSlug doc = Next d1 /\ stepDate d1 = Next d /\
             Event.stepTime d = Next d /\ Event.stepRequired d = Next d.
Proof.
  unfold Event.pre_save, mbind, outcome_bind. intros H.
  destruct (stepSlug doc) as [d1 | |]; try discriminate.
  destruct (stepDate d1) as [d2 | |] eqn:E2; try discriminate.
  destruct (Event.stepTime d2) as [d3 | |] eqn:E3; try discriminate.
  pose proof (stepTime_Next _ _ E3) as ->.
  pose proof (stepRequired_Next _ _ H) as ->.
  exists d1. auto.
Qed.

(** The loop over the required fields stops at the first falsy one. *)
Lemma firstMissing_Some f names name :
  Event.firstMissing f names = Some name ->
  exists before after,
    names = before ++ name :: after /\
    truthy (Event.get f name) = false /\
    forall n, In n before -> truthy (Event.get f n) = true.
Proof.
  induction names as [| n names IH]; cbn; [discriminate |].
  destruct (truthy (Event.get f n)) eqn:Hn.
  - intros H. destruct (IH H) as (before & after & -> & Hname & Hb).
    exists (n :: before), after. split; [reflexivity |]. split; [exact Hname |].
    intros n' [<- | Hin]; auto.
  - intros H. inversion H; subst. exists [], names. cbn. tauto.
Qed.

Lemma firstMissing_None f names :
  Event.firstMissing f names = None ->
  forall n, In n names -> truthy (Event.get f n) = true.
Proof.
  induction names as [| n names IH]; cbn; [tauto |].
  destruct (truthy (Event.get f n)) eqn:Hn; [| discriminate].
  intros H n' [<- | Hin]; auto.
Qed.

End EventHook.

(* ===================================================================== *)
(** ** Properties of the Event hook                                       *)
(* ===================================================================== *)

Section EventClaims.

Variable unicodeLower : jsstring -> jsstring.
Variable parseOther : jsstring -> option Z.

(** X14. Every slug the hook derives consists of lowercase letters, digits and
    hyphens, has no two hyphens in a row and does not end in a hyphen.
    (Nothing is said here about its first character.) *)
Lemma derived_slug_shape doc d :
  Event.isModified doc "title" || Event.isNew doc = true ->
  Event.stepSlug unicodeLower doc = Next d ->
  exists s, Event.slug (Event.fields d) = Some s /\
            forallb slugChar s = true /\ singleHyphens s = true /\
            lastHyphen s = false.
Proof.
  unfold Event.stepSlug. intros -> H.
  destruct (Event.title (Event.fields doc)) as [t |]; [| discriminate].
  inversion H; subst; clear H. cbn. unfold Event.slugify.
  rewrite slugSetter_slugChain. eexists. split; [reflexivity |].
  apply slugChain_shape.
Qed.

(** C1. The title ["- Keynote"] of a new Event gives the slug
    ["-keynote"]: the hook accepts the record and stores a slug with a
    leading hyphen, which is not a well-formed slug. *)
Theorem C1_slug_keeps_leading_hyphen :
  exists d,
    Event.pre_save unicodeLower parseOther
      (Event.build unicodeLower 1
         (sampleEvent (js "- Keynote") (js "2024-11-18") (js "09:00")))
    = Next d /\
    Event.slug (Event.fields d) = Some (js "-keynote") /\
    headHyphen (js "-keynote") = true /\
    wellFormedSlug (js "-keynote") = false.
Proof.
  eexists. split; [vm_compute; reflexivity |].
  repeat split; vm_compute; reflexivity.
Qed.

(** C2. A modified time is accepted by the time step exactly when it is
    [HH:MM] with hours 00-23 and minutes 00-59, or [H:MM] with a one-digit
    hour 0-9; the step then leaves the document as it is, otherwise it
    rejects with the format error. When the whole hook accepts, the time
    it leaves is the time it was given, in one of these two forms.
    ["09:05"] and ["23:59"] are [HH:MM]; ["9:5"] and ["24:00"] have
    neither form. *)
Theorem C2_time_validation (doc : Event.Doc) (t : jsstring) :
  Event.isModified doc "time" = true ->
  Event.time (Event.fields doc) = Some t ->
  (HHMM t \/ HMM t -> Event.stepTime doc = Next doc) /\
  (~ (HHMM t \/ HMM t) ->
     Event.stepTime doc = NextError "Error" "Time must be in HH:MM format") /\
  (forall d, Event.pre_save unicodeLower parseOther doc = Next d ->
     Event.time (Event.fields d) = Some t /\ (HHMM t \/ HMM t)) /\
  (HHMM (js "09:05") /\ HHMM (js "23:59") /\
   ~ (HHMM (js "9:5") \/ HMM (js "9:5")) /\
   ~ (HHMM (js "24:00") \/ HMM (js "24:00"))).
Proof.
  intros Hmod Ht.
  assert (Hex : HHMM (js "09:05") /\ HHMM (js "23:59") /\
                ~ (HHMM (js "9:5") \/ HMM (js "9:5")) /\
                ~ (HHMM (js "24:00") \/ HMM (js "24:00"))).
  { split; [exists 9%N, 5%N; repeat split; vm_compute; congruence |].
    split; [exists 23%N, 59%N; repeat split; vm_compute; congruence |].
    split; intros H; apply timeRegex_test in H; vm_compute in H; discriminate. }
  assert (Hstep : forall d', Event.isModified d' "time" = true ->
            Event.time (Event.fields d') = Some t ->
            (HHMM t \/ HMM t -> Event.stepTime d' = Next d') /\
            (~ (HHMM t \/ HMM t) ->
             Event.stepTime d' = NextError "Error" "Time must be in HH:MM format")).
  { intros d' Hm' Ht'. unfold Event.stepTime, Event.timeTest.
    rewrite Hm', Ht'. destruct (test timeRegex t) eqn:E.
    - split; [reflexivity |]. intros Hn. apply timeRegex_test in E. tauto.
    - split; [| reflexivity]. intros Hy. apply timeRegex_test in Hy. congruence. }
  destruct (Hstep doc Hmod Ht) as [Hacc Hrej].
  split; [exact Hacc |]. split; [exact Hrej |]. split; [| exact Hex].
  intros d Hd.
  destruct (pre_save_Next _ _ _ _ Hd) as (d1 & H1 & H2 & H3 & _).
  destruct (stepSlug_frame _ _ _ H1) as (_ & _ & Hm1 & Hg1).
  destruct (stepDate_frame _ _ _ H2) as (_ & _ & Hp2 & _ & Hg2).
  assert (Htime : Event.time (Event.fields d) = Some t).
  { change (Event.get (Event.fields d) "time" = Some t).
    rewrite Hg2, Hg1; [exact Ht | | | discriminate]; cbn; tauto. }
  assert (Hmd : Event.isModified d "time" = true).
  { unfold Event.isModified. rewrite Hp2.
    change (Event.isModified d1 "time" = true).
    rewrite Hm1; [exact Hmod | discriminate]. }
  split; [exact Htime |].
  destruct (Hstep d Hmd Htime) as [_ Hrej'].
  destruct (test timeRegex t) eqn:E; [now apply timeRegex_test |].
  assert (Hn : ~ (HHMM t \/ HMM t)).
  { intros Hy. apply timeRegex_test in Hy. congruence. }
  rewrite (Hrej' Hn) in H3. discriminate.
Qed.

(** C8. When the slug, date and time steps pass, the hook rejects a
    record with a missing required field with the error that names the
    first such field in the order of the list, and accepts a record with
    all of them. The fields are as the earlier steps leave them: all but
    [date] are those of the record given. *)
Theorem C8_required_fields (doc d1 d2 : Event.Doc) :
  Event.stepSlug unicodeLower doc = Next d1 ->
  Event.stepDate parseOther d1 = Next d2 ->
  Event.stepTime d2 = Next d2 ->
  (forall name,
     Event.firstMissing (Event.fields d2) Event.requiredFields = Some name ->
     Event.pre_save unicodeLower parseOther doc
     = NextError "Error" (String.append name " is required") /\
     exists before after,
       Event.requiredFields = before ++ name :: after /\
       truthy (Event.get (Event.fields d2) name) = false /\
       forall n, In n before -> truthy (Event.get (Event.fields d2) n) = true) /\
  (Event.firstMissing (Event.fields d2) Event.requiredFields = None ->
     Event.pre_save unicodeLower parseOther doc = Next d2 /\
     forall n, In n Event.requiredFields ->
               truthy (Event.get (Event.fields d2) n) = true) /\
  (forall n, In n Event.requiredFields -> n <> "date"%string ->
     Event.get (Event.fields d2) n = Event.get (Event.fields doc) n).
Proof.
  intros H1 H2 H3.
  assert (Hrun : Event.pre_save unicodeLower parseOther doc = Event.stepRequired d2).
  { unfold Event.pre_save, mbind, outcome_bind. now rewrite H1, H2, H3. }
  split; [| split].
  - intros name Hname. split.
    + rewrite Hrun. unfold Event.stepRequired. now rewrite Hname.
    + now apply firstMissing_Some.
  - intros Hnone. split.
    + rewrite Hrun. unfold Event.stepRequired. now rewrite Hnone.
    + now apply firstMissing_None.
  - intros n Hin Hne.
    destruct (stepSlug_frame _ _ _ H1) as (_ & _ & _ & Hg1).
    destruct (stepDate_frame _ _ _ H2) as (_ & _ & _ & _ & Hg2).
    rewrite Hg2, Hg1; auto.
Qed.

(** C9. A save of a stored Event whose title was not modified leaves the
    slug as it is: the slug step does nothing, and whatever document the
    hook or the save accepts carries the slug it was given. *)
Theorem C9_slug_kept (doc : Event.Doc) :
  Event.isNew doc = false ->
  Event.isModified doc "title" = false ->
  Event.stepSlug unicodeLower doc = Next doc /\
  (forall d, Event.pre_save unicodeLower parseOther doc = Next d ->
     Event.slug (Event.fields d) = Event.slug (Event.fields doc)) /\
  (forall db db' d, saveEvent unicodeLower parseOther db doc = (db', Saved d) ->
     Event.slug (Event.fields d) = Event.slug (Event.fields doc)).
Proof.
  intros Hnew Hmod.
  assert (Hs : Event.stepSlug unicodeLower doc = Next doc).
  { unfold Event.stepSlug. now rewrite Hmod, Hnew. }
  assert (Hhook : forall d, Event.pre_save unicodeLower parseOther doc = Next d ->
            Event.slug (Event.fields d) = Event.slug (Event.fields doc)).
  { intros d Hd.
    destruct (pre_save_Next _ _ _ _ Hd) as (d1 & H1 & H2 & _).
    rewrite Hs in H1. inversion H1; subst d1.
    now destruct (stepDate_frame _ _ _ H2) as (_ & _ & _ & Hslug & _). }
  split; [exact Hs |]. split; [exact Hhook |].
  intros db db' d Hsave. unfold saveEvent in Hsave.
  destruct (Event.validate (Event.fields doc)); [| discriminate].
  destruct (Event.pre_save unicodeLower parseOther doc) as [d' | |] eqn:Hd;
    try discriminate.
  destruct (negb (online db)); [discriminate |].
  destruct (slugTaken db (Event._id d') (Event.fields d')); [discriminate |].
  inversion Hsave; subst. now apply Hhook.
Qed.

(** C10. A payload whose title is longer than 100 characters once the
    surrounding white space is trimmed is not created: validation fails
    with the message of the [maxlength] option for [title], and the store
    is left as it was. *)
Theorem C10_title_maxlength (db : Database) (oid : ObjectId)
    (payload : Event.Fields) (t : jsstring) :
  Event.title payload = Some t ->
  (100 < List.length (trim t))%nat ->
  exists errs,
    createEvent unicodeLower parseOther db oid payload
    = (db, ValidationFailed errs) /\
    In ("title"%string, Event.Message "Title cannot exceed 100 characters") errs.
Proof.
  intros Ht Hlen. unfold createEvent, saveEvent, Event.build. cbn [Event.fields].
  unfold Event.validate at 1. cbn [Event.applySetters Event.title].
  rewrite Ht. cbn [Event.trimmed]. unfold Event.requiredMax at 1.
  destruct (trim t) as [| c s] eqn:E; [cbn in Hlen; lia |].
  replace (100 <? List.length (c :: s))%nat with true
    by (symmetry; apply Nat.ltb_lt; exact Hlen).
  cbn [app]. eexists. split; [reflexivity |]. now left.
Qed.

End EventClaims.

(* ===================================================================== *)
(** ** Properties of the Booking hook                                     *)
(* ===================================================================== *)

Lemma Event_exists_absent db id :
  online db = true ->
  (forall f, ~ In (id, f) (events db)) ->
  Event_exists db id = Some false.
Proof.
  intros Hon Habs. unfold Event_exists. rewrite Hon. f_equal.
  apply not_true_iff_false. intros H.
  apply existsb_exists in H as ([id' f] & Hin & Heq).
  cbn in Heq. apply N.eqb_eq in Heq. subst id'. exact (Habs f Hin).
Qed.

(** C6. A Booking that is new, or whose [eventId] was modified, and whose
    Event is not in the store when the store is asked, is rejected by the
    hook with the referential-integrity error; the save writes nothing,
    and this is the error it reports once the validation of the schema has
    passed. *)
Theorem C6_missing_event_rejected (db : Database) (doc : Booking.Doc) :
  Booking.isNew doc || Booking.isModified doc "eventId" = true ->
  online db = true ->
  (forall f, ~ In (Booking.eventId (Booking.fields doc), f) (events db)) ->
  Booking.pre_save (Event_exists db) doc
  = NextError "Error" "Referenced event does not exist" /\
  fst (saveBooking db doc) = db /\
  (Booking.validate (Booking.fields doc) = [] ->
   saveBooking db doc = (db, Rejected "Error" "Referenced event does not exist")).
Proof.
  intros Hnew Hon Habs.
  assert (Hhook : Booking.pre_save (Event_exists db) doc
                  = NextError "Error" "Referenced event does not exist").
  { unfold Booking.pre_save, Booking.checkEvent, mbind, outcome_bind.
    now rewrite Hnew, (Event_exists_absent _ _ Hon Habs). }
  split; [exact Hhook |].
  unfold saveBooking. rewrite Hhook.
  split; [now destruct (Booking.validate (Booking.fields doc)) |].
  now intros ->.
Qed.

(** C7. Once the check of the Event has passed, the hook accepts an e-mail
    exactly when it is one or more plain characters, [@], one or more plain
    characters, [.], one or more plain characters: it then calls [next()]
    with the document as it is; any other non-empty e-mail is rejected with
    the format error, the empty one with [Email is required].
    ["a@b.co"] has the syntax, ["not-an-email"] has not. *)
Theorem C7_email_syntax (eventExists : ObjectId -> option bool)
    (doc : Booking.Doc) (e : jsstring) :
  Booking.email (Booking.fields doc) = Some e ->
  Booking.checkEvent eventExists doc = Next doc ->
  (emailSyntax e -> Booking.pre_save eventExists doc = Next doc) /\
  (~ emailSyntax e -> e <> [] ->
   Booking.pre_save eventExists doc = NextError "Error" "Invalid email format") /\
  (e = [] ->
   Booking.pre_save eventExists doc = NextError "Error" "Email is required") /\
  emailSyntax (js "a@b.co") /\ ~ emailSyntax (js "not-an-email").
Proof.
  intros He Hev.
  assert (Hrun : Booking.pre_save eventExists doc = Booking.checkEmail doc).
  { unfold Booking.pre_save, mbind, outcome_bind. now rewrite Hev. }
  rewrite Hrun. unfold Booking.checkEmail, Booking.emailTest. rewrite He.
  repeat split.
  - intros Hs. pose proof Hs as Ht. apply emailRegex_test in Ht. rewrite Ht.
    destruct e as [| c e]; [| reflexivity].
    destruct Hs as (a & b & c & Ha & _ & _ & _ & _ & _ & E).
    destruct a; [congruence | discriminate].
  - intros Hn Hne. destruct e as [| c e]; [congruence |]. cbn [truthy negb].
    destruct (test emailRegex (c :: e)) eqn:E; [| reflexivity].
    apply emailRegex_test in E. contradiction.
  - now intros ->.
  - apply emailRegex_test. vm_compute. reflexivity.
  - intros H. apply emailRegex_test in H. vm_compute in H. discriminate.
Qed.

(* ===================================================================== *)
(** ** Properties of the connection manager                               *)
(* ===================================================================== *)

Lemma connect_begin_Cached w uri w' c :
  Manager.connect_begin w uri = (w', Manager.Cached c) ->
  w' = w /\ Manager.getConnection w uri = Some c /\
  Manager.isConnectionAlive w uri = true.
Proof.
  unfold Manager.connect_begin, Manager.getConnection, Manager.isConnectionAlive.
  destruct (Manager.connectionCache (Manager.manager w) !! uri) as [c0 |];
    [| discriminate].
  destruct (Manager.flag (Manager.manager w) uri); [| discriminate].
  intros H. inversion H; subst. auto.
Qed.

(** C3. When the driver reports [error] on a connection, the entry of its
    identity is removed and [getConnection] returns nothing. When it reports
    [disconnected], the entry is marked as not alive and stays in the cache:
    [getConnection] returns what it returned before. [connect] returns a
    cached connection only if it is marked alive; after [disconnected] it
    removes the entry and creates a new connection. *)
Theorem C3_dead_entry_lookup (w : Manager.World) (uri : string)
    (c : Manager.Connection) :
  Manager.listeners w !! c = Some uri ->
  Manager.getConnection (Manager.emit c Manager.error w) uri = None /\
  Manager.isConnectionAlive (Manager.emit c Manager.error w) uri = false /\
  Manager.getConnection (Manager.emit c Manager.disconnected w) uri
  = Manager.getConnection w uri /\
  Manager.isConnectionAlive (Manager.emit c Manager.disconnected w) uri = false /\
  (exists w', Manager.connect_begin (Manager.emit c Manager.disconnected w) uri
              = (w', Manager.Awaiting (Manager.created w)) /\
              Manager.getConnection w' uri = None) /\
  (forall w1 w2 c', Manager.connect_begin w1 uri = (w2, Manager.Cached c') ->
                    Manager.isConnectionAlive w1 uri = true).
Proof.
  intros Hl. unfold Manager.emit. rewrite Hl.
  unfold Manager.getConnection, Manager.isConnectionAlive, Manager.flag.
  cbn [Manager.withManager Manager.manager Manager.handler
       Manager.connectionCache Manager.isConnected].
  rewrite lookup_delete_eq, !lookup_insert_eq.
  repeat split.
  - unfold Manager.connect_begin, Manager.flag.
    cbn [Manager.withManager Manager.manager Manager.connectionCache
         Manager.isConnected Manager.created Manager.established
         Manager.listeners]. rewrite lookup_insert_eq.
    destruct (Manager.connectionCache (Manager.manager w) !! uri) as [c0 |] eqn:E.
    + eexists. split; [reflexivity |]. cbn. apply lookup_delete_eq.
    + eexists. split; [reflexivity |]. exact E.
  - intros w1 w2 c' H. now apply connect_begin_Cached in H.
Qed.

(** C4. Two concurrent calls of [connect] for an identity that is not in
    the cache each create and establish a connection of their own: there are
    two more connections, each caller receives its own, and the cache keeps
    the one that was established last. *)
Theorem C4_concurrent_connects (w : Manager.World) (uri : string) (aFirst : bool) :
  Manager.getConnection w uri = None ->
  exists w',
    concurrentConnects w uri aFirst
    = (w', Some (Manager.created w), Some (S (Manager.created w))) /\
    Manager.created w' = S (S (Manager.created w)) /\
    Manager.established w'
    = Manager.established w
      ++ (if aFirst then [Manager.created w; S (Manager.created w)]
          else [S (Manager.created w); Manager.created w]) /\
    Manager.getConnection w' uri
    = Some (if aFirst then S (Manager.created w) else Manager.created w).
Proof.
  unfold Manager.getConnection. intros Hnone.
  unfold concurrentConnects, Manager.connect_begin. rewrite Hnone.
  cbn [Manager.manager]. rewrite Hnone.
  destruct aFirst; cbn [finish Manager.connect_resume Manager.manager
                        Manager.created Manager.established
                        Manager.connectionCache Manager.listeners];
    eexists; (split; [reflexivity |]);
    cbn [Manager.manager Manager.created Manager.established
         Manager.connectionCache];
    rewrite <- app_assoc, lookup_insert_eq; auto.
Qed.

(* ===================================================================== *)
(** ** The properties at sample records                                   *)
(* ===================================================================== *)

(** The times named by the specification. *)
Example time_examples :
  test timeRegex (js "9:5") = false /\ test timeRegex (js "24:00") = false /\
  test timeRegex (js "09:05") = true /\ test timeRegex (js "23:59") = true.
Proof. repeat split; vm_compute; reflexivity. Qed.

(** The time ["9:05"] is accepted, and it is not [HH:MM]. *)
Lemma C2_one_digit_hour_accepted :
  Event.stepTime (storedEvent (js "AWS re:Invent 2024") (js "2024-11-18")
                              (js "9:05") ["time"%string])
  = Next (storedEvent (js "AWS re:Invent 2024") (js "2024-11-18")
                      (js "9:05") ["time"%string]) /\
  ~ HHMM (js "9:05").
Proof.
  split; [vm_compute; reflexivity |].
  intros (h & m & _ & _ & E).
  apply (f_equal (@List.length N)) in E. vm_compute in E. discriminate.
Qed.

Lemma C2_time_validation_witness :
  Event.stepTime (storedEvent (js "AWS re:Invent 2024") (js "2024-11-18")
                              (js "09:05") ["time"%string])
  = Next (storedEvent (js "AWS re:Invent 2024") (js "2024-11-18")
                      (js "09:05") ["time"%string]).
Proof.
  apply (proj1 (C2_time_validation noUnicode noOtherFormat
                  (storedEvent (js "AWS re:Invent 2024") (js "2024-11-18")
                               (js "09:05") ["time"%string])
                  (js "09:05") eq_refl eq_refl)).
  left. exists 9, 5. repeat split; vm_compute; congruence.
Defined.

(** An update that empties [time]: the first missing field is [time], and
    the error is the one of the time step. *)
Lemma C8_earlier_step_rejects_first :
  Event.firstMissing
    (Event.fields (storedEvent (js "AWS re:Invent 2024") (js "2024-11-18") []
                               ["time"%string]))
    Event.requiredFields = Some "time"%string /\
  Event.pre_save noUnicode noOtherFormat
    (storedEvent (js "AWS re:Invent 2024") (js "2024-11-18") [] ["time"%string])
  = NextError "Error" "Time must be in HH:MM format".
Proof. split; vm_compute; reflexivity. Qed.

Lemma C8_required_fields_witness :
  Event.pre_save noUnicode noOtherFormat
    (storedEvent (js "AWS re:Invent 2024") (js "2024-11-18") [] ["venue"%string])
  = NextError "Error" "time is required".
Proof.
  exact (proj1 (proj1 (C8_required_fields noUnicode noOtherFormat
           (storedEvent (js "AWS re:Invent 2024") (js "2024-11-18") []
                        ["venue"%string])
           _ _ eq_refl eq_refl eq_refl) "time"%string eq_refl)).
Defined.

Lemma C9_slug_kept_witness :
  Event.stepSlug noUnicode
    (storedEvent (js "AWS re:Invent 2024") (js "2025-12-01") (js "10:00")
                 ["date"; "time"; "venue"]%string)
  = Next (storedEvent (js "AWS re:Invent 2024") (js "2025-12-01") (js "10:00")
                      ["date"; "time"; "venue"]%string).
Proof.
  exact (proj1 (C9_slug_kept noUnicode noOtherFormat
           (storedEvent (js "AWS re:Invent 2024") (js "2025-12-01") (js "10:00")
                        ["date"; "time"; "venue"]%string)
           eq_refl eq_refl)).
Defined.

(** A title of 101 characters, the last one a space, is created. *)
Lemma C10_padded_title_created :
  List.length paddedTitle = 101%nat /\
  exists d,
    snd (createEvent noUnicode noOtherFormat emptyStore 1
           (sampleEvent paddedTitle (js "2024-11-18") (js "09:00")))
    = Saved d.
Proof.
  split; [reflexivity |]. eexists. vm_compute. reflexivity.
Qed.

Lemma C10_title_maxlength_witness :
  exists errs,
    createEvent noUnicode noOtherFormat emptyStore 1
      (sampleEvent (repeat 97 101%nat) (js "2024-11-18") (js "09:00"))
    = (emptyStore, ValidationFailed errs) /\
    In ("title"%string, Event.Message "Title cannot exceed 100 characters") errs.
Proof.
  apply (C10_title_maxlength noUnicode noOtherFormat emptyStore 1
           (sampleEvent (repeat 97 101%nat) (js "2024-11-18") (js "09:00"))
           (repeat 97 101%nat) eq_refl).
  vm_compute. apply le_n.
Defined.

Lemma C6_missing_event_rejected_witness :
  saveBooking oneEventStore (newBooking 8 (js "a@b.co"))
  = (oneEventStore, Rejected "Error" "Referenced event does not exist").
Proof.
  assert (Habs : forall f, ~ In (8, f) (events oneEventStore)).
  { intros f [E | []]. discriminate E. }
  apply (proj2 (proj2 (C6_missing_event_rejected oneEventStore
                         (newBooking 8 (js "a@b.co")) eq_refl eq_refl Habs))).
  vm_compute. reflexivity.
Defined.

Lemma C7_email_syntax_witness :
  Booking.pre_save (Event_exists oneEventStore) (newBooking 7 (js "a@b.co"))
  = Next (newBooking 7 (js "a@b.co")).
Proof.
  apply (proj1 (C7_email_syntax (Event_exists oneEventStore)
                  (newBooking 7 (js "a@b.co")) (js "a@b.co") eq_refl eq_refl)).
  exists [97], [98], [99; 111].
  repeat split; try discriminate; repeat constructor; vm_compute; congruence.
Defined.

(** After [disconnected] the entry is not alive, and [getConnection] still
    returns it. *)
Lemma C3_disconnected_entry_returned :
  Manager.getConnection liveWorld sampleUri = Some 0%nat /\
  Manager.isConnectionAlive
    (Manager.emit 0%nat Manager.disconnected liveWorld) sampleUri = false /\
  Manager.getConnection
    (Manager.emit 0%nat Manager.disconnected liveWorld) sampleUri = Some 0%nat.
Proof. repeat split; vm_compute; reflexivity. Qed.

Lemma C3_dead_entry_lookup_witness :
  Manager.getConnection (Manager.emit 0%nat Manager.error liveWorld) sampleUri
  = None.
Proof.
  exact (proj1 (C3_dead_entry_lookup liveWorld sampleUri 0%nat eq_refl)).
Defined.

(** Two concurrent calls on a fresh manager: two connections are
    established, and the callers receive different ones. *)
Lemma C4_two_connections_established :
  exists w',
    concurrentConnects Manager.initial sampleUri true
    = (w', Some 0%nat, Some 1%nat) /\
    Manager.established w' = [0; 1]%nat.
Proof. eexists. split; vm_compute; reflexivity. Qed.

Lemma C4_concurrent_connects_witness :
  exists w',
    concurrentConnects Manager.initial sampleUri false
    = (w', Some 0%nat, Some 1%nat) /\
    Manager.created w' = 2%nat /\
    Manager.established w' = [1; 0]%nat /\
    Manager.getConnection w' sampleUri = Some 0%nat.
Proof.
  exact (C4_concurrent_connects Manager.initial sampleUri false eq_refl).
Defined.

(* ===================================================================== *)
(** ** The other operations of the connection manager                     *)
(* ===================================================================== *)

Lemma keys_elem (st : Manager.State) (u : string) :
  u ∈ Manager.keys st <-> is_Some (Manager.connectionCache st !! u).
Proof.
  unfold Manager.keys. rewrite list_elem_of_fmap. split.
  - intros ([k c] & -> & H). apply elem_of_map_to_list in H. now exists c.
  - intros [c H]. exists (u, c). split; [reflexivity |].
    now apply elem_of_map_to_list.
Qed.

Lemma keys_NoDup (st : Manager.State) : NoDup (Manager.keys st).
Proof. apply NoDup_fst_map_to_list. Qed.

Lemma keys_length (st : Manager.State) :
  List.length (Manager.keys st) = size (Manager.connectionCache st).
Proof. unfold Manager.keys. now rewrite length_fmap, length_map_to_list. Qed.

Lemma active_connections_cached_zero (w : Manager.World) :
  (forall uri, Manager.getConnection w uri = None) ->
  Manager.getConnectionCount w = 0%nat.
Proof.
  unfold Manager.getConnectionCount, Manager.getConnection. intros H.
  rewrite keys_length. apply map_size_empty_iff, map_eq. intros uri.
  now rewrite H, lookup_empty.
Qed.

(** The own keys stay ordinary. *)
Lemma ownKeysOrdinary_initial : Manager.ownKeysOrdinary Manager.initial.
Proof. intros uri _. cbn. now rewrite !lookup_empty. Qed.

Lemma ownKeysOrdinary_connect (w : Manager.World) (uri : string) (ok : bool) :
  Manager.inherited uri = false ->
  Manager.ownKeysOrdinary w ->
  Manager.ownKeysOrdinary (fst (Manager.connect w uri ok)).
Proof.
  intros Hu Hk.
  assert (Hother : forall u, Manager.inherited u = true -> u <> uri)
    by (intros u Hi ->; congruence).
  assert (Hdial : forall st,
            (forall u, Manager.inherited u = true ->
               Manager.connectionCache st !! u = None /\
               Manager.isConnected st !! u = None) ->
            Manager.ownKeysOrdinary
              (fst (Manager.connect_resume
                      {| Manager.manager := st;
                         Manager.created := S (Manager.created w);
                         Manager.established := Manager.established w;
                         Manager.listeners := Manager.listeners w |}
                      uri (Manager.created w) ok))).
  { intros st Hst. destruct ok; [| exact Hst].
    intros u Hi. specialize (Hother u Hi). cbn.
    rewrite lookup_insert_ne by congruence. now apply Hst. }
  unfold Manager.connect, Manager.connect_begin.
  destruct (Manager.connectionCache (Manager.manager w) !! uri) as [c0 |];
    [destruct (Manager.flag (Manager.manager w) uri); [exact Hk |] |].
  - apply Hdial. intros u Hi. specialize (Hother u Hi). cbn.
    rewrite !lookup_delete_ne by congruence. now apply Hk.
  - apply Hdial. exact Hk.
Qed.

Lemma ownKeysOrdinary_emit (w : Manager.World) (c : Manager.Connection)
    (ev : Manager.event) :
  (forall uri, Manager.listeners w !! c = Some uri ->
               Manager.inherited uri = false) ->
  Manager.ownKeysOrdinary w -> Manager.ownKeysOrdinary (Manager.emit c ev w).
Proof.
  intros Hl Hk. unfold Manager.emit.
  destruct (Manager.listeners w !! c) as [uri |] eqn:E; [| exact Hk].
  pose proof (Hl uri eq_refl) as Hu.
  intros u Hi. assert (u <> uri) by (intros ->; congruence).
  destruct ev; cbn;
    rewrite ?lookup_insert_ne, ?lookup_delete_ne by congruence; now apply Hk.
Qed.

(** X1. In a manager whose dictionaries have no property named like an
    inherited member: [getActiveConnections] lists exactly the connection
    strings (not such names) for which [getConnection] returns a connection,
    each of them once, and no such name; [getConnectionCount] is the number
    of these, and it is 0 exactly when [getConnection] returns nothing for
    every connection string that is not such a name. A successful
    [connect] for such a connection string with nothing cached adds it to
    the list and the count grows by one. *)
Theorem active_connections_cached (w : Manager.World) :
  Manager.ownKeysOrdinary w ->
  (forall uri, Manager.inherited uri = false ->
     (uri ∈ Manager.getActiveConnections w <->
      exists c, Manager.getConnection w uri = Some c)) /\
  (forall uri, uri ∈ Manager.getActiveConnections w ->
               Manager.inherited uri = false) /\
  NoDup (Manager.getActiveConnections w) /\
  List.length (Manager.getActiveConnections w) = Manager.getConnectionCount w /\
  (Manager.getConnectionCount w = 0%nat <->
   forall uri, Manager.inherited uri = false ->
               Manager.getConnection w uri = None) /\
  (forall uri, Manager.inherited uri = false ->
     Manager.getConnection w uri = None ->
     uri ∈ Manager.getActiveConnections (fst (Manager.connect w uri true)) /\
     Manager.getConnectionCount (fst (Manager.connect w uri true))
     = S (Manager.getConnectionCount w)).
Proof.
  intros Hk.
  assert (Hadd : forall uri, Manager.getConnection w uri = None ->
            uri ∈ Manager.getActiveConnections (fst (Manager.connect w uri true)) /\
            Manager.getConnectionCount (fst (Manager.connect w uri true))
            = S (Manager.getConnectionCount w)).
  { unfold Manager.getConnection, Manager.getActiveConnections,
      Manager.getConnectionCount, Manager.connect, Manager.connect_begin.
    intros uri Hn. rewrite Hn. cbn. split.
    - apply keys_elem. cbn. rewrite lookup_insert_eq. eauto.
    - rewrite !keys_length. cbn. now apply map_size_insert_None. }
  unfold Manager.getActiveConnections, Manager.getConnectionCount,
    Manager.getConnection.
  split; [intros uri _; apply keys_elem |].
  split.
  { intros uri Hin. apply keys_elem in Hin as [c Hc].
    destruct (Manager.inherited uri) eqn:Hi; [| reflexivity].
    destruct (Hk uri Hi) as [Hn _]. congruence. }
  split; [apply keys_NoDup |]. split; [reflexivity |].
  split; [| intros uri _; apply Hadd].
  rewrite keys_length, map_size_empty_iff. split.
  - intros ->. intros uri _. apply lookup_empty.
  - intros H. apply map_eq. intros uri. rewrite lookup_empty.
    destruct (Manager.inherited uri) eqn:Hi; [now apply Hk | now apply H].
Qed.

Lemma flag_evict (st : Manager.State) (k u : string) :
  Manager.flag st k = false ->
  Manager.flag (Manager.evict k st) u = Manager.flag st u.
Proof.
  unfold Manager.flag, Manager.evict. cbn. intros Hk.
  destruct (decide (u = k)) as [-> | Hne].
  - now rewrite lookup_delete_eq, Hk.
  - now rewrite lookup_delete_ne.
Qed.

(** What the loop of [cleanup] has done after the connection strings [l]. *)
Lemma cleanup_loop (l : list string) : forall acc : Manager.State * nat,
  (forall u, Manager.flag (fst (fold_left Manager.cleanupStep l acc)) u
             = Manager.flag (fst acc) u) /\
  (forall u, u ∈ l -> Manager.flag (fst acc) u = false ->
     Manager.connectionCache (fst (fold_left Manager.cleanupStep l acc)) !! u = None /\
     Manager.isConnected (fst (fold_left Manager.cleanupStep l acc)) !! u = None) /\
  (forall u, (u ∈ l -> Manager.flag (fst acc) u = true) ->
     Manager.connectionCache (fst (fold_left Manager.cleanupStep l acc)) !! u
     = Manager.connectionCache (fst acc) !! u /\
     Manager.isConnected (fst (fold_left Manager.cleanupStep l acc)) !! u
     = Manager.isConnected (fst acc) !! u).
Proof.
  induction l as [| k l IH]; intros acc; cbn [fold_left].
  - split; [reflexivity |]. split; [| auto].
    intros u Hu. now apply elem_of_nil in Hu.
  - destruct (IH (Manager.cleanupStep acc k)) as (Hf & Hdead & Hkeep).
    assert (Hflag : forall u, Manager.flag (fst (Manager.cleanupStep acc k)) u
                              = Manager.flag (fst acc) u).
    { intros u. unfold Manager.cleanupStep.
      destruct (Manager.flag (fst acc) k) eqn:Hk; [reflexivity |].
      now apply flag_evict. }
    split; [intros u; now rewrite Hf, Hflag |]. split.
    + intros u Hu Hd. apply elem_of_cons in Hu.
      destruct (decide (u ∈ l)) as [Hin | Hnin].
      * apply Hdead; [exact Hin | now rewrite Hflag].
      * destruct Hu as [-> | Hin]; [| contradiction].
        destruct (Hkeep k) as [Hc Hi]; [intros; contradiction |].
        rewrite Hc, Hi. unfold Manager.cleanupStep. rewrite Hd. cbn.
        now rewrite !lookup_delete_eq.
    + intros u Hu.
      destruct (Hkeep u) as [Hc Hi].
      { intros Hin. rewrite Hflag. apply Hu. now apply elem_of_cons; right. }
      rewrite Hc, Hi. unfold Manager.cleanupStep.
      destruct (Manager.flag (fst acc) k) eqn:Hk; [auto |].
      cbn. destruct (decide (u = k)) as [-> | Hne].
      * rewrite Hu in Hk; [discriminate | now apply elem_of_cons; left].
      * now rewrite !lookup_delete_ne.
Qed.

Lemma cleanup_count (l : list string) : forall acc : Manager.State * nat,
  NoDup l ->
  (forall u, u ∈ l -> is_Some (Manager.connectionCache (fst acc) !! u)) ->
  (size (Manager.connectionCache (fst (fold_left Manager.cleanupStep l acc)))
   + snd (fold_left Manager.cleanupStep l acc)
   = size (Manager.connectionCache (fst acc)) + snd acc)%nat.
Proof.
  induction l as [| k l IH]; intros acc Hnd Hin; cbn [fold_left]; [reflexivity |].
  apply NoDup_cons in Hnd as [Hk Hnd].
  rewrite IH; [| exact Hnd |].
  - unfold Manager.cleanupStep.
    destruct (Manager.flag (fst acc) k); [reflexivity |]. cbn.
    assert (Hs : is_Some (Manager.connectionCache (fst acc) !! k))
      by (apply Hin, elem_of_cons; now left).
    rewrite (map_size_delete_Some _ _ Hs).
    assert (size (Manager.connectionCache (fst acc)) <> 0%nat).
    { apply map_size_ne_0_lookup. destruct Hs as [c Hc]. eauto. }
    lia.
  - intros u Hu. unfold Manager.cleanupStep.
    destruct (Manager.flag (fst acc) k).
    + apply Hin, elem_of_cons. now right.
    + cbn. rewrite lookup_delete_ne by (intros ->; contradiction).
      apply Hin, elem_of_cons. now right.
Qed.

Lemma cleanup_lookup (w : Manager.World) (uri : string) :
  Manager.getConnection (fst (Manager.cleanup w)) uri
  = (if Manager.isConnectionAlive w uri then Manager.getConnection w uri else None) /\
  Manager.isConnectionAlive (fst (Manager.cleanup w)) uri
  = Manager.isConnectionAlive w uri.
Proof.
  unfold Manager.cleanup, Manager.getConnection, Manager.isConnectionAlive.
  cbn [fst snd Manager.withManager Manager.manager].
  destruct (cleanup_loop (Manager.keys (Manager.manager w))
              (Manager.manager w, 0%nat)) as (Hf & Hdead & Hkeep).
  cbn [fst] in Hf, Hdead, Hkeep.
  split; [| apply Hf].
  destruct (Manager.flag (Manager.manager w) uri) eqn:Ha.
  - now apply Hkeep.
  - destruct (decide (uri ∈ Manager.keys (Manager.manager w))) as [Hin | Hnin].
    + now apply Hdead.
    + destruct (Hkeep uri) as [Hc _]; [intros; contradiction |].
      rewrite Hc. rewrite keys_elem in Hnin.
      now apply eq_None_not_Some.
Qed.

(** What [cleanup] leaves of the two entries of an identity. *)
Lemma cleanup_entries (w : Manager.World) (uri : string) :
  (is_Some (Manager.connectionCache (Manager.manager w) !! uri) ->
   Manager.flag (Manager.manager w) uri = false ->
   Manager.connectionCache (Manager.manager (fst (Manager.cleanup w))) !! uri
   = None /\
   Manager.isConnected (Manager.manager (fst (Manager.cleanup w))) !! uri
   = None) /\
  (Manager.connectionCache (Manager.manager w) !! uri = None \/
   Manager.flag (Manager.manager w) uri = true ->
   Manager.connectionCache (Manager.manager (fst (Manager.cleanup w))) !! uri
   = Manager.connectionCache (Manager.manager w) !! uri /\
   Manager.isConnected (Manager.manager (fst (Manager.cleanup w))) !! uri
   = Manager.isConnected (Manager.manager w) !! uri).
Proof.
  unfold Manager.cleanup.
  cbn [fst snd Manager.withManager Manager.manager].
  destruct (cleanup_loop (Manager.keys (Manager.manager w))
              (Manager.manager w, 0%nat)) as (_ & Hdead & Hkeep).
  cbn [fst] in Hdead, Hkeep. split.
  - intros Hs Hf. apply Hdead; [now apply keys_elem | exact Hf].
  - intros [Hn | Ht]; apply Hkeep.
    + intros Hin. apply keys_elem in Hin as [c Hc]. congruence.
    + intros _. exact Ht.
Qed.

(** X2. In a manager whose dictionaries have no property named like an
    inherited member: [cleanup] deletes, from both dictionaries, the entries
    of the cached identities that are not marked connected, and leaves every
    other entry of either dictionary as it is (those of a cached identity
    that is marked connected, and the mark of an identity that is not
    cached); it returns the number of identities it removed; it creates and
    establishes no connection and registers no listener. *)
Theorem cleanup_removes_dead_only (w : Manager.World) :
  Manager.ownKeysOrdinary w ->
  (forall uri c,
     Manager.connectionCache (Manager.manager w) !! uri = Some c ->
     Manager.isConnectionAlive w uri = false ->
     Manager.connectionCache (Manager.manager (fst (Manager.cleanup w))) !! uri
     = None /\
     Manager.isConnected (Manager.manager (fst (Manager.cleanup w))) !! uri
     = None) /\
  (forall uri,
     Manager.connectionCache (Manager.manager w) !! uri = None \/
     Manager.isConnectionAlive w uri = true ->
     Manager.connectionCache (Manager.manager (fst (Manager.cleanup w))) !! uri
     = Manager.connectionCache (Manager.manager w) !! uri /\
     Manager.isConnected (Manager.manager (fst (Manager.cleanup w))) !! uri
     = Manager.isConnected (Manager.manager w) !! uri) /\
  (Manager.getConnectionCount (fst (Manager.cleanup w)) + snd (Manager.cleanup w)
   = Manager.getConnectionCount w)%nat /\
  Manager.created (fst (Manager.cleanup w)) = Manager.created w /\
  Manager.established (fst (Manager.cleanup w)) = Manager.established w /\
  Manager.listeners (fst (Manager.cleanup w)) = Manager.listeners w /\
  Manager.ownKeysOrdinary (fst (Manager.cleanup w)).
Proof.
  intros Hk. unfold Manager.isConnectionAlive.
  split; [| split; [| split; [| split; [| split; [| split]]]]];
    try reflexivity.
  - intros uri c Hc Hf. apply (cleanup_entries w uri); [eauto | exact Hf].
  - intros uri H. now apply (cleanup_entries w uri).
  - unfold Manager.cleanup, Manager.getConnectionCount.
    cbn [fst snd Manager.withManager Manager.manager].
    rewrite !keys_length.
    rewrite (cleanup_count _ (Manager.manager w, 0%nat)); cbn [fst snd].
    + lia.
    + apply keys_NoDup.
    + intros u. apply keys_elem.
  - intros uri Hi. destruct (Hk uri Hi) as [Hc Hf].
    destruct (proj2 (cleanup_entries w uri) (or_introl Hc)) as [-> ->].
    now split.
Qed.

Lemma cleanup_nothing (l : list string) (st : Manager.State) (n : nat) :
  (forall u, u ∈ l -> Manager.flag st u = true) ->
  fold_left Manager.cleanupStep l (st, n) = (st, n).
Proof.
  induction l as [| k l IH]; intros H; cbn [fold_left]; [reflexivity |].
  unfold Manager.cleanupStep at 2. cbn [fst snd].
  rewrite (H k) by (apply elem_of_cons; now left).
  apply IH. intros u Hu. apply H, elem_of_cons. now right.
Qed.

(** X3. After [cleanup] every cached entry is marked alive, so a second
    [cleanup] removes nothing and returns 0. *)
Theorem cleanup_twice (w : Manager.World) :
  (forall uri c, Manager.getConnection (fst (Manager.cleanup w)) uri = Some c ->
                 Manager.isConnectionAlive (fst (Manager.cleanup w)) uri = true) /\
  Manager.cleanup (fst (Manager.cleanup w)) = (fst (Manager.cleanup w), 0%nat).
Proof.
  assert (Hal : forall uri c,
            Manager.getConnection (fst (Manager.cleanup w)) uri = Some c ->
            Manager.isConnectionAlive (fst (Manager.cleanup w)) uri = true).
  { intros uri c Hc. destruct (cleanup_lookup w uri) as [Hg Hl].
    rewrite Hl. rewrite Hg in Hc.
    now destruct (Manager.isConnectionAlive w uri). }
  split; [exact Hal |].
  set (w' := fst (Manager.cleanup w)) in *.
  unfold Manager.cleanup at 1. rewrite cleanup_nothing.
  - cbn [fst snd]. now destruct w'.
  - intros u Hu. apply keys_elem in Hu as [c Hc]. exact (Hal u c Hc).
Qed.

(** The listeners never put a connection into the cache. *)
Lemma emit_no_insert (w : Manager.World) (c : Manager.Connection)
    (ev : Manager.event) (u : string) :
  Manager.getConnection w u = None ->
  Manager.getConnection (Manager.emit c ev w) u = None.
Proof.
  unfold Manager.emit, Manager.getConnection. intros H.
  destruct (Manager.listeners w !! c) as [uri |]; [| exact H].
  destruct ev; cbn; try exact H.
  destruct (decide (u = uri)) as [-> | Hne].
  - apply lookup_delete_eq.
  - now rewrite lookup_delete_ne.
Qed.

(** X4. [disconnect] of a cached connection that closes removes the entry of
    its identity from both dictionaries, so that one connection less is
    cached and the next [connect] creates a new one; no later event of any
    connection brings the entry back. When [close] fails, the error is
    rethrown and the manager is what it was. *)
Theorem disconnect_cached (w : Manager.World) (uri : string)
    (c : Manager.Connection) :
  Manager.getConnection w uri = Some c ->
  (exists w', Manager.disconnect w uri true = (w', true) /\
     Manager.getConnection w' uri = None /\
     Manager.isConnectionAlive w' uri = false /\
     S (Manager.getConnectionCount w') = Manager.getConnectionCount w /\
     (forall c' ev, Manager.getConnection (Manager.emit c' ev w') uri = None) /\
     exists w2, Manager.connect_begin w' uri
                = (w2, Manager.Awaiting (Manager.created w))) /\
  Manager.disconnect w uri false = (w, false).
Proof.
  unfold Manager.getConnection. intros Hc. split.
  - eexists. unfold Manager.disconnect. rewrite Hc. split; [reflexivity |].
    assert (Hnone : Manager.getConnection
                      (Manager.withManager (Manager.evict uri (Manager.manager w)) w)
                      uri = None).
    { unfold Manager.getConnection. cbn. apply lookup_delete_eq. }
    split; [exact Hnone |]. split.
    { unfold Manager.isConnectionAlive, Manager.flag. cbn.
      now rewrite lookup_delete_eq. }
    split.
    { unfold Manager.getConnectionCount. rewrite !keys_length. cbn.
      rewrite map_size_delete_Some by eauto.
      assert (size (Manager.connectionCache (Manager.manager w)) <> 0%nat)
        by (apply map_size_ne_0_lookup; eauto).
      lia. }
    split; [intros c' ev; now apply emit_no_insert |].
    unfold Manager.connect_begin. unfold Manager.getConnection in Hnone.
    rewrite Hnone. eexists. reflexivity.
  - unfold Manager.disconnect. now rewrite Hc.
Qed.

Lemma disconnect_lookup (w : Manager.World) (uri u : string) (closed : bool) :
  Manager.getConnection (fst (Manager.disconnect w uri closed)) u
  = (if decide (u = uri) then
       (if closed then None else Manager.getConnection w u)
     else Manager.getConnection w u) /\
  snd (Manager.disconnect w uri closed)
  = (closed || negb (bool_decide (is_Some (Manager.getConnection w uri)))).
Proof.
  unfold Manager.disconnect, Manager.getConnection.
  destruct (Manager.connectionCache (Manager.manager w) !! uri) as [c |] eqn:E.
  - destruct closed; cbn.
    + split; [| reflexivity]. destruct (decide (u = uri)) as [-> | Hne].
      * apply lookup_delete_eq.
      * now rewrite lookup_delete_ne.
    + split; [now destruct (decide (u = uri)) |].
      reflexivity.
  - cbn. split.
    + destruct (decide (u = uri)) as [-> | Hne]; [| reflexivity].
      rewrite E. now destruct closed.
    + now rewrite orb_true_r.
Qed.

Lemma disconnectAll_loop (closed : string -> bool) (l : list string) :
  forall acc : Manager.World * bool,
  let step := fun (acc : Manager.World * bool) (uri : string) =>
                let (w1, ok1) := Manager.disconnect (fst acc) uri (closed uri) in
                (w1, snd acc && ok1) in
  (forall u, Manager.getConnection (fst (fold_left step l acc)) u
             = if bool_decide (u ∈ l) && closed u then None
               else Manager.getConnection (fst acc) u) /\
  (snd (fold_left step l acc) = true <->
   snd acc = true /\
   forall u, u ∈ l -> is_Some (Manager.getConnection (fst acc) u) ->
             closed u = true).
Proof.
  induction l as [| k l IH]; intros acc step; cbn [fold_left].
  - split; [reflexivity |]. split; [intros H; split; [exact H |] | tauto].
    intros u Hu. now apply elem_of_nil in Hu.
  - destruct (IH (step acc k)) as [Hget Hok]. fold step in Hget, Hok.
    assert (Hstep : forall u,
              Manager.getConnection (fst (step acc k)) u
              = (if decide (u = k) then
                   (if closed k then None else Manager.getConnection (fst acc) u)
                 else Manager.getConnection (fst acc) u) /\
              snd (step acc k)
              = (snd acc && (closed k || negb (bool_decide
                   (is_Some (Manager.getConnection (fst acc) k)))))).
    { intros u. unfold step.
      destruct (disconnect_lookup (fst acc) k u (closed k)) as [H1 H2].
      destruct (Manager.disconnect (fst acc) k (closed k)) as [w1 ok1].
      cbn [fst snd] in *. now rewrite H1, H2. }
    split.
    + intros u. rewrite Hget. destruct (Hstep u) as [-> _].
      destruct (decide (u = k)) as [-> | Hne].
      * rewrite (bool_decide_eq_true_2 (k ∈ k :: l)) by (apply elem_of_cons; now left).
        cbn [andb]. destruct (closed k); [| now rewrite andb_false_r].
        now destruct (bool_decide (k ∈ l)).
      * destruct (closed u) eqn:Hcu; [| now rewrite !andb_false_r].
        rewrite !andb_true_r.
        destruct (decide (u ∈ l)) as [Hin | Hnin].
        -- rewrite !bool_decide_eq_true_2; [reflexivity | now apply elem_of_cons; right | exact Hin].
        -- rewrite !bool_decide_eq_false_2; [reflexivity | | exact Hnin].
           rewrite elem_of_cons. tauto.
    + rewrite Hok. destruct (Hstep k) as [_ ->].
      rewrite andb_true_iff, orb_true_iff, negb_true_iff, bool_decide_eq_false.
      split.
      * intros [[Ha Hk] Hrest]. split; [exact Ha |].
        intros u Hu Hs. apply elem_of_cons in Hu as [-> | Hin].
        -- destruct Hk as [Hk | Hk]; [exact Hk | contradiction].
        -- destruct (decide (u = k)) as [-> | Hne].
           ++ destruct Hk as [Hk | Hk]; [exact Hk | contradiction].
           ++ apply Hrest; [exact Hin |].
              destruct (Hstep u) as [-> _]. now rewrite decide_False.
      * intros [Ha Hall]. split; [split; [exact Ha |] |].
        -- destruct (decide (is_Some (Manager.getConnection (fst acc) k))) as [Hs | Hn].
           ++ left. apply Hall; [apply elem_of_cons; now left | exact Hs].
           ++ now right.
        -- intros u Hin Hs. destruct (Hstep u) as [Hu _]. rewrite Hu in Hs.
           destruct (decide (u = k)) as [-> | Hne].
           ++ destruct (closed k) eqn:Hck; [reflexivity |].
              rewrite <- Hck.
              apply Hall; [apply elem_of_cons; now left | exact Hs].
           ++ apply Hall; [apply elem_of_cons; now right | exact Hs].
Qed.

(** X5. [disconnectAll] removes the entry of every identity whose connection
    closes and leaves the other entries as they are; it resolves exactly
    when every cached connection closes, and then the cache is empty. *)
Theorem disconnectAll_effect (w : Manager.World) (closed : string -> bool) :
  (forall uri, Manager.getConnection (fst (Manager.disconnectAll w closed)) uri
               = if closed uri then None else Manager.getConnection w uri) /\
  (snd (Manager.disconnectAll w closed) = true <->
   forall uri c, Manager.getConnection w uri = Some c -> closed uri = true) /\
  (snd (Manager.disconnectAll w closed) = true ->
   Manager.getConnectionCount (fst (Manager.disconnectAll w closed)) = 0%nat).
Proof.
  destruct (disconnectAll_loop closed (Manager.keys (Manager.manager w)) (w, true))
    as [Hget Hok].
  cbn [fst snd] in Hget, Hok. fold (Manager.disconnectAll w closed) in Hget, Hok.
  assert (Hlook : forall uri,
            Manager.getConnection (fst (Manager.disconnectAll w closed)) uri
            = if closed uri then None else Manager.getConnection w uri).
  { intros uri. rewrite Hget. destruct (closed uri); [| now rewrite andb_false_r].
    rewrite andb_true_r.
    destruct (decide (uri ∈ Manager.keys (Manager.manager w))) as [Hin | Hnin].
    - now rewrite bool_decide_eq_true_2.
    - rewrite bool_decide_eq_false_2 by exact Hnin.
      rewrite keys_elem in Hnin. now apply eq_None_not_Some. }
  assert (Hall : snd (Manager.disconnectAll w closed) = true <->
            forall uri c, Manager.getConnection w uri = Some c -> closed uri = true).
  { rewrite Hok. split.
    - intros [_ H] uri c Hc. apply H; [| eauto]. apply keys_elem. eauto.
    - intros H. split; [reflexivity |]. intros u _ [c Hc]. eauto. }
  split; [exact Hlook |]. split; [exact Hall |].
  intros Hres. apply active_connections_cached_zero.
  intros uri. rewrite Hlook. destruct (closed uri) eqn:Hcu; [reflexivity |].
  destruct (Manager.getConnection w uri) as [c |] eqn:Hc; [| reflexivity].
  rewrite (proj1 Hall Hres uri c Hc) in Hcu. discriminate.
Qed.

(* ===================================================================== *)
(** ** Sequences of [connect], events and [disconnect]                    *)
(* ===================================================================== *)

(** A [connect] for an identity that is not marked alive creates a new
    connection, after removing what was cached for the identity. *)
Lemma connect_begin_dials (w : Manager.World) (uri : string) :
  Manager.isConnectionAlive w uri = false ->
  exists st,
    Manager.connect_begin w uri
    = ({| Manager.manager := st; Manager.created := S (Manager.created w);
          Manager.established := Manager.established w;
          Manager.listeners := Manager.listeners w |},
       Manager.Awaiting (Manager.created w)) /\
    Manager.connectionCache st !! uri = None /\
    Manager.flag st uri = false /\
    (forall u, u <> uri ->
       Manager.connectionCache st !! u
       = Manager.connectionCache (Manager.manager w) !! u /\
       Manager.isConnected st !! u = Manager.isConnected (Manager.manager w) !! u).
Proof.
  unfold Manager.isConnectionAlive, Manager.connect_begin. intros Hf.
  destruct (Manager.connectionCache (Manager.manager w) !! uri) as [c |] eqn:Hc.
  - rewrite Hf. eexists. split; [reflexivity |]. cbn.
    split; [apply lookup_delete_eq |].
    split; [unfold Manager.flag; cbn; now rewrite lookup_delete_eq |].
    intros u Hne. now rewrite !lookup_delete_ne.
  - eexists. split; [reflexivity |]. auto.
Qed.

(** A [connect] that finds nothing cached, or an entry that is not marked
    alive, creates a new connection, after removing the dead entry; the mark
    of the identity is what it was. *)
Lemma connect_begin_attempt (w : Manager.World) (uri : string) :
  Manager.getConnection w uri = None \/ Manager.isConnectionAlive w uri = false ->
  exists st,
    Manager.connect_begin w uri
    = ({| Manager.manager := st; Manager.created := S (Manager.created w);
          Manager.established := Manager.established w;
          Manager.listeners := Manager.listeners w |},
       Manager.Awaiting (Manager.created w)) /\
    Manager.connectionCache st !! uri = None /\
    Manager.flag st uri = Manager.flag (Manager.manager w) uri.
Proof.
  unfold Manager.getConnection, Manager.isConnectionAlive, Manager.connect_begin.
  intros H.
  destruct (Manager.connectionCache (Manager.manager w) !! uri) as [c |] eqn:Hc.
  - destruct H as [H | Hf]; [discriminate |]. rewrite Hf.
    eexists. split; [reflexivity |]. cbn.
    split; [apply lookup_delete_eq |].
    unfold Manager.flag in *. cbn. now rewrite lookup_delete_eq.
  - eexists. split; [reflexivity |]. auto.
Qed.

(** X6. For a connection string that is not the name of an inherited
    member and is not marked connected: a successful [connect] returns a new
    connection, and once the driver has reported [connected] for it, every
    further [connect] for the identity returns that connection and creates
    none, whatever the driver would answer. *)
Theorem connect_reuses_live_connection (w : Manager.World) (uri : string)
    (ok : bool) :
  Manager.inherited uri = false ->
  Manager.isConnectionAlive w uri = false ->
  exists w1,
    Manager.connect w uri true = (w1, Some (Manager.created w)) /\
    Manager.connect (Manager.emit (Manager.created w) Manager.connected w1) uri ok
    = (Manager.emit (Manager.created w) Manager.connected w1,
       Some (Manager.created w)) /\
    Manager.established (Manager.emit (Manager.created w) Manager.connected w1)
    = Manager.established w ++ [Manager.created w].
Proof.
  intros _ Hf. destruct (connect_begin_dials w uri Hf) as (st & Hb & _).
  unfold Manager.connect at 1. rewrite Hb. cbn [Manager.connect_resume].
  eexists. split; [reflexivity |].
  unfold Manager.emit. cbn [Manager.listeners]. rewrite lookup_insert_eq.
  split; [| reflexivity].
  unfold Manager.connect, Manager.connect_begin, Manager.flag.
  cbn [Manager.withManager Manager.manager Manager.handler
       Manager.connectionCache Manager.isConnected].
  now rewrite !lookup_insert_eq.
Qed.

(** X7. For a connection string that is not the name of an inherited
    member and for which [connect] makes an attempt (nothing is cached, or
    the cached entry is not marked connected): a successful [connect] caches
    the new connection and leaves the mark of the identity as it was. If the
    identity was not marked connected, a second successful [connect] made
    before the driver reports [connected] removes the entry, creates and
    establishes a second connection and caches that one; both are then
    established. If the identity was still marked connected with nothing
    cached (as after [error] followed by a late [connected]), every further
    [connect] returns the first connection at once. *)
Theorem connect_again_before_connected (w : Manager.World) (uri : string) :
  Manager.inherited uri = false ->
  Manager.getConnection w uri = None \/ Manager.isConnectionAlive w uri = false ->
  exists w1,
    Manager.connect w uri true = (w1, Some (Manager.created w)) /\
    Manager.getConnection w1 uri = Some (Manager.created w) /\
    Manager.isConnectionAlive w1 uri = Manager.isConnectionAlive w uri /\
    (Manager.isConnectionAlive w uri = false ->
     exists w2,
       Manager.connect w1 uri true = (w2, Some (S (Manager.created w))) /\
       Manager.getConnection w2 uri = Some (S (Manager.created w)) /\
       Manager.established w2
       = Manager.established w ++ [Manager.created w; S (Manager.created w)]) /\
    (Manager.isConnectionAlive w uri = true ->
     forall ok, Manager.connect w1 uri ok = (w1, Some (Manager.created w))).
Proof.
  intros _ H. destruct (connect_begin_attempt w uri H) as (st & Hb & _ & Hfl).
  unfold Manager.connect at 1. rewrite Hb. cbn [Manager.connect_resume].
  eexists. split; [reflexivity |].
  split; [unfold Manager.getConnection; cbn; apply lookup_insert_eq |].
  split; [exact Hfl |].
  unfold Manager.isConnectionAlive.
  split; intros Hf; rewrite Hf in Hfl.
  - unfold Manager.connect, Manager.connect_begin.
    cbn [Manager.manager Manager.connectionCache Manager.isConnected
         Manager.created Manager.established Manager.listeners].
    rewrite lookup_insert_eq.
    replace (Manager.flag _ uri) with false by (symmetry; exact Hfl).
    cbn [Manager.connect_resume Manager.manager Manager.evict
         Manager.connectionCache Manager.isConnected Manager.created
         Manager.established Manager.listeners].
    eexists. split; [reflexivity |].
    split; [unfold Manager.getConnection; cbn; apply lookup_insert_eq |].
    cbn. now rewrite <- app_assoc.
  - intros ok. unfold Manager.connect, Manager.connect_begin.
    cbn [Manager.manager Manager.connectionCache Manager.isConnected
         Manager.created Manager.established Manager.listeners].
    rewrite lookup_insert_eq.
    replace (Manager.flag _ uri) with true by (symmetry; exact Hfl).
    reflexivity.
Qed.

(** X8. For a connection string that is not the name of an inherited
    member and for which [connect] makes an attempt (nothing is cached, or
    the cached entry is not marked connected): when the attempt fails,
    [connect] throws and caches nothing. Afterwards the identity has no
    entry (a dead entry that was cached is gone), no connection has been
    established and no listener registered; the mark of the identity is what
    it was, so an identity that was still marked connected with nothing
    cached stays marked connected. *)
Theorem connect_failure_caches_nothing (w : Manager.World) (uri : string) :
  Manager.inherited uri = false ->
  Manager.getConnection w uri = None \/ Manager.isConnectionAlive w uri = false ->
  exists w1,
    Manager.connect w uri false = (w1, None) /\
    Manager.getConnection w1 uri = None /\
    Manager.isConnectionAlive w1 uri = Manager.isConnectionAlive w uri /\
    Manager.established w1 = Manager.established w /\
    Manager.listeners w1 = Manager.listeners w.
Proof.
  intros _ H. destruct (connect_begin_attempt w uri H) as (st & Hb & Hc & Hfl).
  unfold Manager.connect. rewrite Hb. cbn [Manager.connect_resume].
  eexists. split; [reflexivity |]. auto.
Qed.

(** X9. Operations on one identity leave the entries of every other
    identity as they are: [connect] (whatever the outcome), [disconnect]
    (whatever [close] does), and every event of a connection whose listeners
    were not registered for that other identity. *)
Theorem other_identities_untouched (w : Manager.World) (uri other : string)
    (b : bool) :
  other <> uri ->
  (Manager.getConnection (fst (Manager.connect w uri b)) other
   = Manager.getConnection w other /\
   Manager.isConnectionAlive (fst (Manager.connect w uri b)) other
   = Manager.isConnectionAlive w other) /\
  (Manager.getConnection (fst (Manager.disconnect w uri b)) other
   = Manager.getConnection w other /\
   Manager.isConnectionAlive (fst (Manager.disconnect w uri b)) other
   = Manager.isConnectionAlive w other) /\
  (forall c ev,
     Manager.listeners w !! c <> Some other ->
     Manager.getConnection (Manager.emit c ev w) other
     = Manager.getConnection w other /\
     Manager.isConnectionAlive (Manager.emit c ev w) other
     = Manager.isConnectionAlive w other).
Proof.
  intros Hne.
  unfold Manager.getConnection, Manager.isConnectionAlive, Manager.flag.
  split; [| split].
  - unfold Manager.connect, Manager.connect_begin.
    destruct (Manager.connectionCache (Manager.manager w) !! uri) as [c0 |].
    + destruct (Manager.flag (Manager.manager w) uri); [auto |].
      destruct b; cbn; rewrite ?lookup_insert_ne, ?lookup_delete_ne by congruence;
        auto.
    + destruct b; cbn; rewrite ?lookup_insert_ne by congruence; auto.
  - unfold Manager.disconnect.
    destruct (Manager.connectionCache (Manager.manager w) !! uri) as [c0 |];
      [| auto].
    destruct b; cbn; rewrite ?lookup_delete_ne by congruence; auto.
  - intros c ev Hl. unfold Manager.emit.
    destruct (Manager.listeners w !! c) as [u |]; [| auto].
    assert (other <> u) by congruence.
    destruct ev; cbn;
      rewrite ?lookup_insert_ne, ?lookup_delete_ne by congruence; auto.
Qed.

(* ===================================================================== *)
(** ** The exported functions of the connection module                    *)
(* ===================================================================== *)

(** X10. The driver receives the caller's options over the defaults: a property
    the caller gives (be it [undefined]) is passed as given, every other
    one has its default; merging with the defaults in [connectToDatabase]
    and again in [connect] is the same as merging once. *)
Theorem options_over_defaults (options : gmap string optionValue) :
  (forall k v, options !! k = Some v ->
     connectionOptions (connectToDatabaseOptions options) !! k = Some v) /\
  (forall k, options !! k = None ->
     connectionOptions (connectToDatabaseOptions options) !! k
     = defaultConnectionOptions !! k) /\
  connectionOptions (connectToDatabaseOptions options)
  = connectToDatabaseOptions options /\
  connectionOptions (connectToDatabaseOptions options) !! "maxPoolSize"%string
  = Some (default (Num 10) (options !! "maxPoolSize"%string)).
Proof.
  unfold connectionOptions, connectToDatabaseOptions, spread, defaultOptions.
  assert (Hl : forall k,
            ((options ∪ defaultConnectionOptions) ∪ defaultConnectionOptions) !! k
            = match options !! k with
              | Some v => Some v
              | None => defaultConnectionOptions !! k
              end).
  { intros k. rewrite !lookup_union.
    destruct (options !! k), (defaultConnectionOptions !! k); reflexivity. }
  split; [intros k v H; now rewrite Hl, H |].
  split; [intros k H; now rewrite Hl, H |].
  split.
  - apply map_eq. intros k. rewrite Hl, lookup_union.
    destruct (options !! k), (defaultConnectionOptions !! k); reflexivity.
  - rewrite Hl. now destruct (options !! "maxPoolSize"%string).
Qed.

(** X11. Without a connection string (none given or an empty one, and
    [MONGODB_URI] unset or empty) [connectToDatabase] throws before it
    reaches the manager, the accessors of the default database answer
    "absent" and "not connected", and [disconnectDatabase] does nothing. An
    empty [uri] argument stands for a missing one. *)
Theorem no_connection_string (env uri : option string) (w : Manager.World)
    (b : bool) :
  orElse env None = None ->
  orElse uri None = None ->
  connectToDatabase env w uri b = (w, UriMissing) /\
  getDatabaseConnection env w = None /\
  isDatabaseConnected env w = false /\
  disconnectDatabase env w b = (w, true).
Proof.
  unfold connectToDatabase, getDatabaseConnection, isDatabaseConnected,
    disconnectDatabase, orElse.
  destruct env as [[| c s] |], uri as [[| c' s'] |]; try discriminate; auto.
Qed.

(** X12. The accessors of the default database only look at [MONGODB_URI]: a
    connection made by [connectToDatabase] for another connection string
    (not the name of an inherited member, and not marked connected) is
    cached under that string, and [getDatabaseConnection] and
    [isDatabaseConnected] answer what they answered before. *)
Theorem explicit_uri_not_default (env uri : string) (w : Manager.World) :
  uri <> ""%string -> env <> ""%string -> uri <> env ->
  Manager.inherited uri = false ->
  Manager.isConnectionAlive w uri = false ->
  exists w1,
    connectToDatabase (Some env) w (Some uri) true
    = (w1, Handle (Manager.created w)) /\
    Manager.getConnection w1 uri = Some (Manager.created w) /\
    getDatabaseConnection (Some env) w1 = getDatabaseConnection (Some env) w /\
    isDatabaseConnected (Some env) w1 = isDatabaseConnected (Some env) w.
Proof.
  intros Hu He Hne _ Hf.
  destruct (connect_begin_dials w uri Hf) as (st & Hb & _ & _ & Hfr).
  unfold connectToDatabase, getDatabaseConnection, isDatabaseConnected.
  destruct uri as [| c s]; [congruence |].
  destruct env as [| c' s']; [congruence |].
  cbn [orElse]. unfold Manager.connect. rewrite Hb.
  cbn [Manager.connect_resume]. eexists. split; [reflexivity |].
  unfold Manager.getConnection, Manager.isConnectionAlive, Manager.flag. cbn.
  destruct (Hfr (String c' s')) as [Hc Hi]; [congruence |].
  rewrite lookup_insert_eq, lookup_insert_ne, Hc, Hi by congruence. auto.
Qed.

(** X13. The life of the default connection, for a [MONGODB_URI] that is
    not empty, not the name of an inherited member and not marked connected:
    [connectToDatabase()] caches a new connection under [MONGODB_URI], which
    [getDatabaseConnection] returns; [isDatabaseConnected] is false until
    the driver reports [connected] and true afterwards; after a
    [disconnectDatabase] whose [close] resolves the connection is absent
    again and reported as not connected. *)
Theorem default_connection_life (env : string) (w : Manager.World) :
  env <> ""%string ->
  Manager.inherited env = false ->
  Manager.isConnectionAlive w env = false ->
  exists w1 w3,
    connectToDatabase (Some env) w None true = (w1, Handle (Manager.created w)) /\
    getDatabaseConnection (Some env) w1 = Some (Manager.created w) /\
    isDatabaseConnected (Some env) w1 = false /\
    isDatabaseConnected (Some env)
      (Manager.emit (Manager.created w) Manager.connected w1) = true /\
    disconnectDatabase (Some env)
      (Manager.emit (Manager.created w) Manager.connected w1) true = (w3, true) /\
    getDatabaseConnection (Some env) w3 = None /\
    isDatabaseConnected (Some env) w3 = false.
Proof.
  intros He _ Hf.
  destruct (connect_begin_dials w env Hf) as (st & Hb & _ & Hfl & _).
  unfold connectToDatabase, getDatabaseConnection, isDatabaseConnected,
    disconnectDatabase.
  destruct env as [| c s]; [congruence |].
  cbn [orElse]. unfold Manager.connect. rewrite Hb.
  cbn [Manager.connect_resume]. eexists. eexists.
  split; [reflexivity |].
  unfold Manager.getConnection, Manager.isConnectionAlive, Manager.emit,
    Manager.disconnect.
  cbn [Manager.manager Manager.connectionCache Manager.isConnected
       Manager.listeners].
  rewrite !lookup_insert_eq.
  split; [reflexivity |]. split; [exact Hfl |].
  cbn [Manager.withManager Manager.manager Manager.handler
       Manager.connectionCache Manager.isConnected].
  rewrite !lookup_insert_eq.
  split; [unfold Manager.flag; cbn; now rewrite lookup_insert_eq |].
  split; [reflexivity |].
  unfold Manager.flag. cbn. now rewrite !lookup_delete_eq.
Qed.

(* ===================================================================== *)
(** ** More on the derivation of the slug                                 *)
(* ===================================================================== *)

Lemma replaceRuns_head (p : N -> bool) (c : N) (s : jsstring) :
  p c = false -> replaceRuns p false (c :: s) = c :: replaceRuns p false s.
Proof. intros H. cbn. now rewrite H. Qed.

(** [dropLastHyphen] keeps its argument or removes one last hyphen. *)
Lemma dropLastHyphen_cases (s : jsstring) :
  dropLastHyphen s = s \/
  exists h, isHyphen h = true /\ s = dropLastHyphen s ++ [h].
Proof.
  unfold dropLastHyphen. destruct (rev s) as [| c t] eqn:E; [now left |].
  destruct (isHyphen c) eqn:Hc; [| now left].
  right. exists c. split; [exact Hc |].
  rewrite <- (rev_involutive s), E. reflexivity.
Qed.

Lemma dropLastHyphen_head (c : N) (s : jsstring) :
  isHyphen c = false -> headHyphen (dropLastHyphen (c :: s)) = false.
Proof.
  intros Hc. destruct (dropLastHyphen_cases (c :: s)) as [-> | (h & Hh & E)].
  - exact Hc.
  - destruct (dropLastHyphen (c :: s)) as [| c' r]; [reflexivity |].
    cbn in E. inversion E; subst. exact Hc.
Qed.

Lemma slugChain_head (c : N) (rest : jsstring) (s : jsstring) :
  stripOthers s = c :: rest ->
  isLowerAZ c || isDigit c = true ->
  headHyphen (slugChain s) = false.
Proof.
  intros Hs Hc.
  assert (Hsc : slugChar c = true) by (unfold slugChar; now rewrite Hc).
  assert (Hsp : isSpace c = false) by now apply slugChar_not_space.
  assert (Hh : isHyphen c = false).
  { unfold isLowerAZ, isDigit, isHyphen in *.
    rewrite orb_true_iff, !inRange_spec in Hc. apply N.eqb_neq. lia. }
  destruct (slugChain_shape s) as (Hchars & _ & _).
  unfold slugChain in *. rewrite trim_slugChars in * by
    (apply stripEdges_chars, collapseHyphens_chars, spacesToHyphen_chars,
       stripOthers_keep).
  unfold collapseHyphens, spacesToHyphen. rewrite Hs.
  rewrite (replaceRuns_head isSpace) by exact Hsp.
  rewrite (replaceRuns_head isHyphen) by exact Hh.
  unfold stripEdges.
  destruct (replaceRuns isHyphen false (replaceRuns isSpace false rest))
    as [| b t]; [now apply dropLastHyphen_head |].
  rewrite Hh. cbn [andb]. now apply dropLastHyphen_head.
Qed.

(** X15. A derived slug is well formed exactly when it does not begin with a
    hyphen, and it does not when the first character of the lower-cased
    title that the first replacement keeps is a letter or a digit. *)
Theorem slug_well_formed_when_starts_alnum (unicodeLower : jsstring -> jsstring)
    (t : jsstring) :
  wellFormedSlug (Event.slugSetter unicodeLower (Event.slugify unicodeLower t))
  = negb (headHyphen (Event.slugSetter unicodeLower (Event.slugify unicodeLower t))) /\
  (forall c rest,
     stripOthers (toLowerCase unicodeLower t) = c :: rest ->
     isLowerAZ c || isDigit c = true ->
     wellFormedSlug (Event.slugSetter unicodeLower (Event.slugify unicodeLower t))
     = true).
Proof.
  unfold Event.slugify. rewrite slugSetter_slugChain.
  destruct (slugChain_shape (toLowerCase unicodeLower t)) as (Hc & Hs & Hl).
  assert (Hw : wellFormedSlug (slugChain (toLowerCase unicodeLower t))
               = negb (headHyphen (slugChain (toLowerCase unicodeLower t)))).
  { unfold wellFormedSlug. rewrite Hc, Hs, Hl. cbn. apply andb_true_r. }
  split; [exact Hw |].
  intros c rest Hstrip Halnum. rewrite Hw.
  now rewrite (slugChain_head c rest _ Hstrip Halnum).
Qed.

Lemma stripOthers_slugChars (s : jsstring) :
  forallb slugChar s = true -> stripOthers s = s.
Proof.
  unfold stripOthers. induction s as [| c s IH]; cbn; [reflexivity |].
  intros H. apply andb_true_iff in H as [Hc Hs].
  assert (Hk : slugKeep c = true).
  { unfold slugKeep, slugChar in *.
    rewrite !orb_true_iff in *. tauto. }
  now rewrite Hk, IH.
Qed.

Lemma replaceRuns_none (p : N -> bool) (s : jsstring) : forall b,
  forallb (fun c => negb (p c)) s = true -> replaceRuns p b s = s.
Proof.
  induction s as [| c s IH]; intros b H; cbn; [reflexivity |].
  cbn in H. apply andb_true_iff in H as [Hc Hs].
  apply negb_true_iff in Hc. now rewrite Hc, IH.
Qed.

Lemma collapseHyphens_single_id (s : jsstring) : forall b,
  singleHyphens s = true -> (b = true -> headHyphen s = false) ->
  replaceRuns isHyphen b s = s.
Proof.
  induction s as [| c s IH]; intros b Hs Hb; cbn; [reflexivity |].
  cbn in Hs. apply andb_true_iff in Hs as [Hc Hs].
  destruct (isHyphen c) eqn:Hh.
  - destruct b; [cbn in Hb; rewrite Hb in Hh by reflexivity; discriminate |].
    apply N.eqb_eq in Hh as ->. f_equal.
    apply IH; [exact Hs |]. intros _.
    cbn in Hc. now apply negb_true_iff in Hc.
  - f_equal. apply IH; [exact Hs | discriminate].
Qed.

Lemma stripEdges_id (s : jsstring) :
  singleHyphens s = true -> lastHyphen s = false -> stripEdges s = s.
Proof.
  intros Hs Hl.
  assert (Hd : dropLastHyphen s = s).
  { unfold dropLastHyphen, lastHyphen in *.
    destruct (rev s) as [| c t]; [reflexivity |]. cbn in Hl. now rewrite Hl. }
  unfold stripEdges. destruct s as [| a [| b t]]; try exact Hd.
  cbn in Hs. apply andb_true_iff in Hs as [Hab _].
  apply negb_true_iff in Hab. now rewrite Hab.
Qed.

(** X16. Deriving a slug from a derived slug gives the same slug. *)
Theorem slugify_idempotent (unicodeLower : jsstring -> jsstring) (t : jsstring) :
  Event.slugify unicodeLower (Event.slugify unicodeLower t)
  = Event.slugify unicodeLower t.
Proof.
  unfold Event.slugify.
  destruct (slugChain_shape (toLowerCase unicodeLower t)) as (Hc & Hs & Hl).
  set (s := slugChain (toLowerCase unicodeLower t)) in *.
  rewrite (toLowerCase_slugChars _ _ Hc).
  unfold slugChain, collapseHyphens, spacesToHyphen.
  rewrite (stripOthers_slugChars _ Hc).
  rewrite (replaceRuns_none isSpace).
  - rewrite (collapseHyphens_single_id s false Hs) by discriminate.
    rewrite (stripEdges_id s Hs Hl). now apply trim_slugChars.
  - revert Hc. apply forallb_impl. intros c Hc.
    now rewrite (slugChar_not_space c Hc).
Qed.

(* ===================================================================== *)
(** ** A date that is already canonical                                   *)
(* ===================================================================== *)

Section Canonical.

Local Open Scope Z_scope.

Ltac zdiv := Z.to_euclidean_division_equations; lia.

(** Evaluates [k - 1] for the months [k] of the goal. *)
Ltac pred_months :=
  repeat match goal with
    | |- context [Z.pos ?k - 1] =>
        let v := eval vm_compute in (Z.pos k - 1) in
        change (Z.pos k - 1) with v
    end.

(** The year is determined by the day. *)
Lemma YearFromDay_unique d y :
  DayFromYear y <= d < DayFromYear (y + 1) -> YearFromDay d = y.
Proof.
  intros H. pose proof (YearFromDay_spec d) as H'.
  set (y' := YearFromDay d) in *. clearbody y'.
  unfold DayFromYear in *. zdiv.
Qed.

Lemma monthStart_bounds l m :
  l = 0 \/ l = 1 -> 1 <= m <= 12 ->
  0 <= monthStart l (m - 1) /\ monthStart l m <= 365 + l.
Proof.
  intros Hl Hm.
  assert (m = 1 \/ m = 2 \/ m = 3 \/ m = 4 \/ m = 5 \/ m = 6 \/ m = 7 \/
          m = 8 \/ m = 9 \/ m = 10 \/ m = 11 \/ m = 12) as Hc by lia.
  repeat destruct Hc as [-> | Hc]; subst; pred_months; unfold monthStart;
    cbn; lia.
Qed.

Lemma MonthFromDayInYear_unique l m dy :
  l = 0 \/ l = 1 -> 1 <= m <= 12 ->
  monthStart l (m - 1) <= dy < monthStart l m ->
  MonthFromDayInYear l dy = m - 1.
Proof.
  intros Hl Hm.
  assert (m = 1 \/ m = 2 \/ m = 3 \/ m = 4 \/ m = 5 \/ m = 6 \/ m = 7 \/
          m = 8 \/ m = 9 \/ m = 10 \/ m = 11 \/ m = 12) as Hc by lia.
  repeat destruct Hc as [-> | Hc]; subst; pred_months; unfold monthStart;
    cbn; intros Hdy; unfold MonthFromDayInYear;
    repeat match goal with
      | |- context [if ?a <? ?b then _ else _] =>
          destruct (Z.ltb_spec a b); try lia
      end.
Qed.

(** The fields of a date of the calendar are those of its day. *)
Lemma civil_of_MakeDay y m d :
  1 <= m <= 12 -> 1 <= d <= DaysInMonth y (m - 1) ->
  YearFromTime (MakeDate (MakeDay y (m - 1) d)) = y /\
  MonthFromTime (MakeDate (MakeDay y (m - 1) d)) = m - 1 /\
  DateFromTime (MakeDate (MakeDay y (m - 1) d)) = d.
Proof.
  intros Hm Hd.
  pose proof (leapDay_cases y) as Hl.
  destruct (monthStart_bounds (leapDay y) m Hl Hm) as [Hlo Hhi].
  unfold DaysInMonth in Hd.
  replace (m - 1 + 1) with m in Hd by lia.
  assert (Hy : YearFromTime (MakeDate (MakeDay y (m - 1) d)) = y).
  { unfold YearFromTime. rewrite Day_MakeDate.
    apply YearFromDay_unique. rewrite DayFromYear_succ.
    unfold MakeDay. lia. }
  assert (Hdy : DayWithinYear (MakeDate (MakeDay y (m - 1) d))
                = monthStart (leapDay y) (m - 1) + d - 1).
  { unfold DayWithinYear. rewrite Hy, Day_MakeDate. unfold MakeDay. lia. }
  assert (Hmo : MonthFromTime (MakeDate (MakeDay y (m - 1) d)) = m - 1).
  { unfold MonthFromTime. rewrite Hy, Hdy.
    apply MonthFromDayInYear_unique; [exact Hl | exact Hm | lia]. }
  split; [exact Hy |]. split; [exact Hmo |].
  unfold DateFromTime. rewrite Hy, Hdy, Hmo. lia.
Qed.

Lemma digitChar_digitVal c : isDigit c = true -> digitChar (digitVal c) = c.
Proof.
  unfold isDigit, digitChar, digitVal. rewrite inRange_spec. lia.
Qed.

Lemma digitVal_range c : isDigit c = true -> 0 <= digitVal c <= 9.
Proof. unfold isDigit, digitVal. rewrite inRange_spec. lia. Qed.

Lemma pad2_number a b :
  isDigit a = true -> isDigit b = true ->
  pad2 (number [a; b]) = [a; b] /\ 0 <= number [a; b] <= 99.
Proof.
  intros Ha Hb. pose proof (digitVal_range a Ha). pose proof (digitVal_range b Hb).
  unfold pad2, number. cbn [fold_left].
  set (n := 10 * (10 * 0 + digitVal a) + digitVal b).
  assert (E1 : n / 10 = digitVal a) by (unfold n; zdiv).
  assert (E2 : n mod 10 = digitVal b) by (unfold n; zdiv).
  rewrite E1, E2, !digitChar_digitVal by assumption.
  split; [reflexivity | unfold n; lia].
Qed.

Lemma pad4_number a b c d :
  isDigit a = true -> isDigit b = true -> isDigit c = true ->
  isDigit d = true ->
  pad4 (number [a; b; c; d]) = [a; b; c; d] /\
  0 <= number [a; b; c; d] <= 9999.
Proof.
  intros Ha Hb Hc Hd.
  pose proof (digitVal_range a Ha). pose proof (digitVal_range b Hb).
  pose proof (digitVal_range c Hc). pose proof (digitVal_range d Hd).
  unfold pad4, number. cbn [fold_left].
  set (n := 10 * (10 * (10 * (10 * 0 + digitVal a) + digitVal b)
                  + digitVal c) + digitVal d).
  assert (E1 : n / 1000 = digitVal a) by (unfold n; zdiv).
  assert (E2 : n / 100 mod 10 = digitVal b) by (unfold n; zdiv).
  assert (E3 : n / 10 mod 10 = digitVal c) by (unfold n; zdiv).
  assert (E4 : n mod 10 = digitVal d) by (unfold n; zdiv).
  rewrite E1, E2, E3, E4, !digitChar_digitVal by assumption.
  split; [reflexivity | unfold n; lia].
Qed.

(** What [isoPlainDate] has read. *)
Lemma isoPlainDate_Some s y m d :
  isoPlainDate s = Some (y, m, d) ->
  exists y1 y2 y3 y4 m1 m2 d1 d2,
    s = [y1; y2; y3; y4; 45%N; m1; m2; 45%N; d1; d2] /\
    forallb isDigit [y1; y2; y3; y4; m1; m2; d1; d2] = true /\
    y = number [y1; y2; y3; y4] /\ m = number [m1; m2] /\
    d = number [d1; d2] /\
    1 <= m <= 12 /\ 1 <= d <= DaysInMonth y (m - 1).
Proof.
  unfold isoPlainDate.
  destruct s as [| y1 [| y2 [| y3 [| y4 [| h1 [| m1 [| m2 [| h2 [| d1 [| d2 [| x s]]]]]]]]]]];
    try discriminate.
  destruct (N.eqb_spec h1 45) as [-> |]; [| discriminate].
  destruct (N.eqb_spec h2 45) as [-> |]; [| discriminate].
  cbn [andb]. unfold isoDateFields, allDigits. cbn [forallb].
  destruct (isDigit y1) eqn:D1, (isDigit y2) eqn:D2, (isDigit y3) eqn:D3,
    (isDigit y4) eqn:D4, (isDigit m1) eqn:D5, (isDigit m2) eqn:D6,
    (isDigit d1) eqn:D7, (isDigit d2) eqn:D8;
    cbn [andb]; try discriminate.
  destruct ((1 <=? number [m1; m2]) && (number [m1; m2] <=? 12)
            && (1 <=? number [d1; d2])
            && (number [d1; d2]
                <=? DaysInMonth (1 * number [y1; y2; y3; y4])
                                (number [m1; m2] - 1))) eqn:E;
    [| discriminate].
  intros H. inversion H; subst; clear H.
  rewrite !andb_true_iff, !Z.leb_le in E.
  exists y1, y2, y3, y4, m1, m2, d1, d2.
  rewrite Z.mul_1_l in *. cbn [forallb].
  rewrite D1, D2, D3, D4, D5, D6, D7, D8. repeat split; tauto || lia.
Qed.

Variable parseOther : jsstring -> option Z.

(** A ten-character date [YYYY-MM-DD] that names a day of the calendar is
    parsed, and printed back as it is. *)
Lemma canonical_date_round_trip s y m d :
  isoPlainDate s = Some (y, m, d) ->
  exists t, DateParse parseOther s = Some t /\ isoDatePart t = s.
Proof.
  intros Hs. pose proof Hs as Hp.
  apply isoPlainDate_Some in Hp
    as (y1 & y2 & y3 & y4 & m1 & m2 & d1 & d2 & -> & Hdig & -> & -> & -> & Hm & Hd).
  cbn [forallb] in Hdig. rewrite !andb_true_iff in Hdig.
  destruct Hdig as (D1 & D2 & D3 & D4 & D5 & D6 & D7 & D8 & _).
  destruct (pad4_number y1 y2 y3 y4 D1 D2 D3 D4) as [Py Ry].
  destruct (pad2_number m1 m2 D5 D6) as [Pm Rm].
  destruct (pad2_number d1 d2 D7 D8) as [Pd Rd].
  set (y := number [y1; y2; y3; y4]) in *.
  set (m := number [m1; m2]) in *.
  set (d := number [d1; d2]) in *.
  assert (Hfirst : isoDateOnly [y1; y2; y3; y4; 45%N; m1; m2; 45%N; d1; d2]
                   = Some (y, m, d)).
  { unfold isoDateOnly.
    assert ((y1 =? 43)%N = false /\ (y1 =? 45)%N = false) as [-> ->].
    { unfold isDigit in D1. rewrite inRange_spec in D1.
      split; apply N.eqb_neq; lia. }
    exact Hs. }
  destruct (civil_of_MakeDay y m d Hm Hd) as (Cy & Cm & Cd).
  exists (MakeDate (MakeDay y (m - 1) d)). split.
  - unfold DateParse. rewrite Hfirst. unfold TimeClip.
    replace (Z.abs (MakeDate (MakeDay y (m - 1) d)) <=? maxTime) with true;
      [reflexivity |].
    symmetry. apply Z.leb_le.
    pose proof (leapDay_cases y) as Hl.
    destruct (monthStart_bounds (leapDay y) m Hl Hm) as [Hlo Hhi].
    pose proof (DaysInMonth_le y (m - 1)) as H31.
    unfold MakeDate, MakeDay, maxTime, msPerDay, DayFromYear.
    assert (monthStart (leapDay y) (m - 1) <= 366).
    { pose proof Hd as Hd'. unfold DaysInMonth in Hd'.
      replace (m - 1 + 1) with m in Hd' by lia. lia. }
    zdiv.
  - unfold isoDatePart. rewrite Cy, Cm, Cd.
    replace (m - 1 + 1) with m by lia.
    unfold isoYear.
    replace ((0 <=? y) && (y <=? 9999)) with true
      by (symmetry; rewrite andb_true_iff, !Z.leb_le; lia).
    now rewrite Py, Pm, Pd.
Qed.

End Canonical.

(* ===================================================================== *)
(** ** More on the Event hook                                             *)
(* ===================================================================== *)

Section EventMore.

Variable unicodeLower : jsstring -> jsstring.
Variable parseOther : jsstring -> option Z.

(** X17. A modified date that is already [YYYY-MM-DD] and names a day of the
    calendar passes the date step, and the step leaves the document as it
    is. *)
Theorem canonical_date_kept (doc : Event.Doc) (s : jsstring) (y m d : Z) :
  Event.date (Event.fields doc) = Some s ->
  isoPlainDate s = Some (y, m, d) ->
  Event.stepDate parseOther doc = Next doc.
Proof.
  intros Hd Hs.
  destruct (canonical_date_round_trip parseOther s y m d Hs) as (t & Hp & Hi).
  unfold Event.stepDate, Event.parsedDate. rewrite Hd, Hp, Hi.
  destruct (Event.isModified doc "date"); [| reflexivity].
  destruct doc as [id f new paths]. destruct f. cbn in *. now subst.
Qed.



Lemma firstMissing_all f names :
  (forall n, In n names -> truthy (Event.get f n) = true) ->
  Event.firstMissing f names = None.
Proof.
  induction names as [| n names IH]; intros H; cbn; [reflexivity |].
  rewrite (H n) by now left. apply IH. intros n' Hn'. apply H. now right.
Qed.

Lemma required_nil path msg v : Event.required path msg v = [] -> truthy v = true.
Proof. unfold Event.required. now destruct (truthy v). Qed.

Lemma requiredMax_nil path msg n msg' v :
  Event.requiredMax path msg n msg' v = [] -> truthy v = true.
Proof. unfold Event.requiredMax. now destruct v as [[| c s] |]. Qed.

Lemma requiredEnum_nil path msg v :
  Event.requiredEnum path msg v = [] -> truthy v = true.
Proof. unfold Event.requiredEnum. now destruct v as [[| c s] |]. Qed.

(** A record that passes the validation of the schema has every required
    field of the hook. *)
Lemma validate_required f :
  Event.validate f = [] ->
  forall n, In n Event.requiredFields -> truthy (Event.get f n) = true.
Proof.
  unfold Event.validate. intros H.
  repeat match goal with
    | H : _ ++ _ = [] |- _ => apply app_eq_nil in H as [? H]
    end.
  repeat match goal with
    | H : Event.required _ _ _ = [] |- _ => apply required_nil in H
    | H : Event.requiredMax _ _ _ _ _ = [] |- _ => apply requiredMax_nil in H
    | H : Event.requiredEnum _ _ _ = [] |- _ => apply requiredEnum_nil in H
    end.
  intros n Hin. cbn in Hin.
  repeat destruct Hin as [<- | Hin]; try assumption. contradiction.
Qed.

Lemma isoDatePart_truthy t : truthy (Some (isoDatePart t)) = true.
Proof.
  unfold isoDatePart, isoYear.
  destruct ((0 <=? YearFromTime t)%Z && (YearFromTime t <=? 9999)%Z);
    [reflexivity |].
  now destruct (YearFromTime t <? 0)%Z.
Qed.

(** X19. When the validation of the schema has passed, as it has whenever
    [save] runs the hook, the hook does not throw and its loop over the
    required fields rejects nothing: the hook accepts, or it rejects with
    the error of the date step or of the time step. *)
Theorem hook_after_validation (doc : Event.Doc) :
  Event.validate (Event.fields doc) = [] ->
  (exists d, Event.pre_save unicodeLower parseOther doc = Next d) \/
  Event.pre_save unicodeLower parseOther doc
  = NextError "Error" "Invalid date format" \/
  Event.pre_save unicodeLower parseOther doc
  = NextError "Error" "Time must be in HH:MM format".
Proof.
  intros Hv. pose proof (validate_required _ Hv) as Hreq.
  assert (Ht : truthy (Event.title (Event.fields doc)) = true)
    by (apply (Hreq "title"%string); cbn; tauto).
  assert (H1 : exists d1, Event.stepSlug unicodeLower doc = Next d1).
  { unfold Event.stepSlug.
    destruct (Event.isModified doc "title" || Event.isNew doc); [| eauto].
    destruct (Event.title (Event.fields doc)); [eauto | discriminate]. }
  destruct H1 as [d1 H1].
  destruct (stepSlug_frame _ _ _ H1) as (_ & _ & _ & Hg1).
  unfold Event.pre_save, mbind, outcome_bind. rewrite H1.
  destruct (Event.stepDate parseOther d1) as [d2 | n msg |] eqn:H2.
  - assert (Hreq2 : forall n, In n Event.requiredFields ->
              truthy (Event.get (Event.fields d2) n) = true).
    { intros n Hin.
      destruct (String.eqb_spec n "date") as [-> | Hne].
      - unfold Event.stepDate in H2.
        destruct (Event.isModified d1 "date").
        + destruct (Event.parsedDate parseOther d1); [| discriminate].
          inversion H2; subst d2. apply isoDatePart_truthy.
        + inversion H2; subst d2. rewrite Hg1 by exact Hin. now apply Hreq.
      - destruct (stepDate_frame _ _ _ H2) as (_ & _ & _ & _ & Hg2).
        rewrite Hg2, Hg1 by assumption. now apply Hreq. }
    unfold Event.stepTime.
    destruct (Event.isModified d2 "time"); [destruct (Event.timeTest d2) |];
      try (right; right; reflexivity);
      left; exists d2; unfold Event.stepRequired;
      now rewrite (firstMissing_all _ _ Hreq2).
  - right. left. unfold Event.stepDate in H2.
    destruct (Event.isModified d1 "date"); [| discriminate].
    destruct (Event.parsedDate parseOther d1); [discriminate |].
    now inversion H2.
  - unfold Event.stepDate in H2.
    destruct (Event.isModified d1 "date"); [| discriminate].
    destruct (Event.parsedDate parseOther d1); discriminate.
Qed.

End EventMore.

(* ===================================================================== *)
(** ** The date the hook writes                                           *)
(* ===================================================================== *)

Section DateClaim.

Local Open Scope Z_scope.

Variable unicodeLower : jsstring -> jsstring.
Variable parseOther : jsstring -> option Z.

Lemma YYYYMMDD_length s : YYYYMMDD s -> List.length s = 10%nat.
Proof.
  intros (y & m & d & ys & ms & ds & -> & H1 & H2 & H3 & _).
  rewrite !length_app, H1, H2, H3. reflexivity.
Qed.

(** For a year from 0 to 9999 [toISOString] prints the day as
    [YYYY-MM-DD]. *)
Lemma isoDatePart_in_range t :
  0 <= YearFromTime t <= 9999 ->
  dateDigits (YearFromTime t) (MonthFromTime t + 1) (DateFromTime t)
             (isoDatePart t).
Proof.
  intros Hy. destruct (civil_fields t) as (Hm & Hd & _).
  pose proof (DaysInMonth_le (YearFromTime t) (MonthFromTime t) Hm) as H31.
  destruct (pad4_digits (YearFromTime t) Hy) as [A1 N1].
  destruct (pad2_digits (MonthFromTime t + 1)) as [A2 N2]; [lia |].
  destruct (pad2_digits (DateFromTime t)) as [A3 N3]; [lia |].
  exists (pad4 (YearFromTime t)), (pad2 (MonthFromTime t + 1)),
         (pad2 (DateFromTime t)).
  unfold isoDatePart, isoYear.
  replace ((0 <=? YearFromTime t) && (YearFromTime t <=? 9999)) with true
    by (symmetry; rewrite andb_true_iff, !Z.leb_le; lia).
  repeat split; try reflexivity; assumption.
Qed.

(** For every other year it prints a sign and six digits of the year. *)
Lemma isoDatePart_out_of_range t :
  ~ (0 <= YearFromTime t <= 9999) -> List.length (isoDatePart t) = 13%nat.
Proof.
  intros Hy. unfold isoDatePart, isoYear.
  replace ((0 <=? YearFromTime t) && (YearFromTime t <=? 9999)) with false
    by (symmetry; rewrite andb_false_iff, !Z.leb_gt; lia).
  destruct (YearFromTime t <? 0); reflexivity.
Qed.

Lemma isoDatePart_YYYYMMDD t :
  YYYYMMDD (isoDatePart t) <-> 0 <= YearFromTime t <= 9999.
Proof.
  split.
  - intros H. apply YYYYMMDD_length in H.
    destruct (decide (0 <= YearFromTime t <= 9999)) as [Hy | Hn];
      [exact Hy |].
    rewrite (isoDatePart_out_of_range t Hn) in H. discriminate.
  - intros H. eexists _, _, _. now apply isoDatePart_in_range.
Qed.

(** A date-only string that is read names a day of the calendar. *)
Lemma isoDateFields_range ys ms ds sign y m d :
  isoDateFields ys ms ds sign = Some (y, m, d) ->
  1 <= m <= 12 /\ 1 <= d <= DaysInMonth y (m - 1).
Proof.
  unfold isoDateFields.
  destruct (allDigits ys && allDigits ms && allDigits ds); [| discriminate].
  destruct ((1 <=? number ms) && (number ms <=? 12) && (1 <=? number ds)
            && (number ds <=? DaysInMonth (sign * number ys) (number ms - 1)))
    eqn:E; [| discriminate].
  intros H. inversion H; subst; clear H.
  rewrite !andb_true_iff, !Z.leb_le in E. tauto.
Qed.

Lemma isoDateOnly_range s y m d :
  isoDateOnly s = Some (y, m, d) ->
  1 <= m <= 12 /\ 1 <= d <= DaysInMonth y (m - 1).
Proof.
  unfold isoDateOnly. destruct s as [| c rest]; [discriminate |].
  destruct (c =? 43)%N; [| destruct (c =? 45)%N].
  - unfold isoExpandedDate.
    repeat (destruct rest as [| ? rest]; try discriminate).
    destruct (_ && _ && _); [apply isoDateFields_range | discriminate].
  - unfold isoExpandedDate.
    repeat (destruct rest as [| ? rest]; try discriminate).
    destruct (_ && _ && _); [apply isoDateFields_range | discriminate].
  - unfold isoPlainDate.
    repeat (destruct rest as [| ? rest]; try discriminate).
    destruct (_ && _); [apply isoDateFields_range | discriminate].
Qed.

(** The time value of a date-only string has the fields the string
    names. *)
Lemma DateParse_dateOnly s y m d t :
  isoDateOnly s = Some (y, m, d) ->
  DateParse parseOther s = Some t ->
  YearFromTime t = y /\ MonthFromTime t + 1 = m /\ DateFromTime t = d.
Proof.
  intros Hs Ht. unfold DateParse in Ht. rewrite Hs in Ht.
  unfold TimeClip in Ht.
  destruct (Z.abs (MakeDate (MakeDay y (m - 1) d)) <=? maxTime);
    [| discriminate].
  inversion Ht; subst t; clear Ht.
  destruct (isoDateOnly_range _ _ _ _ Hs) as [Hm Hd].
  destruct (civil_of_MakeDay y m d Hm Hd) as (Cy & Cm & Cd).
  rewrite Cy, Cm, Cd. lia.
Qed.

(** The date step leaves what it has written as it is. *)
Lemma stepDate_idempotent doc d :
  Event.stepDate parseOther doc = Next d ->
  Event.stepDate parseOther d = Next d.
Proof.
  intros H. unfold Event.stepDate in H.
  destruct (Event.isModified doc "date") eqn:Hm.
  - destruct (Event.parsedDate parseOther doc) as [t |] eqn:Hp; [| discriminate].
    inversion H; subst; clear H.
    assert (Ht : Z.abs t <= maxTime).
    { unfold Event.parsedDate in Hp.
      destruct (Event.date (Event.fields doc)); [| discriminate].
      eapply DateParse_clipped; eassumption. }
    match goal with |- Event.stepDate _ ?r = _ => set (d := r) end.
    assert (Hmd : Event.isModified d "date" = true) by exact Hm.
    assert (Hpd : Event.parsedDate parseOther d = Some (MakeDate (Day t))).
    { unfold Event.parsedDate, d.
      cbn [Event.fields Event.withDate Event.date].
      now apply DateParse_isoDatePart. }
    unfold Event.stepDate. rewrite Hmd, Hpd, isoDatePart_Day. reflexivity.
  - inversion H; subst. unfold Event.stepDate. now rewrite Hm.
Qed.

(** The slug step has nothing left to do on a document the slug and date
    steps have passed. *)
Lemma stepSlug_again doc d1 d :
  Event.stepSlug unicodeLower doc = Next d1 ->
  Event.stepDate parseOther d1 = Next d ->
  Event.stepSlug unicodeLower d = Next d.
Proof.
  intros H1 H2.
  destruct (stepDate_frame _ _ _ H2) as (Hn2 & Hi2 & Hp2 & Hs2 & Hg2).
  assert (Ht2 : Event.title (Event.fields d) = Event.title (Event.fields d1)).
  { apply (Hg2 "title"%string); [cbn; tauto | discriminate]. }
  assert (Hm2 : Event.isModified d "title" = Event.isModified d1 "title")
    by (unfold Event.isModified; now rewrite Hp2).
  unfold Event.stepSlug in H1.
  destruct (Event.isModified doc "title" || Event.isNew doc) eqn:C.
  - destruct (Event.title (Event.fields doc)) as [t |] eqn:Et; [| discriminate].
    inversion H1; subst d1; clear H1.
    cbn [Event.fields Event.isNew Event.modifiedPaths Event.withSlug
         Event.slug Event.title] in *.
    assert (Hm1 : Event.isModified d "title" = Event.isModified doc "title").
    { rewrite Hm2. unfold Event.isModified at 1.
      cbn [Event.modifiedPaths]. now apply isModified_assigned. }
    unfold Event.stepSlug. rewrite Hm1, Hn2, C, Ht2, Et.
    destruct d as [id f new paths].
    cbn [Event.fields Event.isNew Event.modifiedPaths Event._id] in *.
    subst new paths. f_equal. f_equal.
    + destruct f. cbn in Hs2. now subst.
    + rewrite Hs2, bool_decide_eq_true_2 by reflexivity.
      unfold Event.assigned.
      cbn [Event.isNew Event.modifiedPaths negb].
      rewrite orb_false_r.
      destruct (Event.isNew doc); [| reflexivity].
      cbn [orb]. apply markModified_again.
  - inversion H1; subst d1; clear H1.
    unfold Event.stepSlug. now rewrite Hm2, Hn2, C.
Qed.

(** The hook leaves a document it has accepted as it is. *)
Lemma pre_save_idempotent doc d :
  Event.pre_save unicodeLower parseOther doc = Next d ->
  Event.pre_save unicodeLower parseOther d = Next d.
Proof.
  intros H. destruct (pre_save_Next _ _ _ _ H) as (d1 & H1 & H2 & H3 & H4).
  unfold Event.pre_save, mbind, outcome_bind.
  now rewrite (stepSlug_again _ _ _ H1 H2), (stepDate_idempotent _ _ H2), H3.
Qed.

(** The slug step hands the date on as it is. *)
Lemma stepSlug_date doc d1 :
  Event.stepSlug unicodeLower doc = Next d1 ->
  Event.isModified d1 "date" = Event.isModified doc "date" /\
  Event.date (Event.fields d1) = Event.date (Event.fields doc).
Proof.
  intros H1. destruct (stepSlug_frame _ _ _ H1) as (_ & _ & Hm1 & Hg1).
  split; [apply Hm1; discriminate |].
  apply (Hg1 "date"%string). cbn. tauto.
Qed.

(** C5. A modified date that parses is rewritten to the date part of the
    ISO form of the parsed time: the date step accepts and changes nothing
    but [date]. What it writes is the canonical [YYYY-MM-DD] of the day
    (in UTC) of the parsed time exactly when the year of that day is from
    0 to 9999, and that day is the one the string names when the string is
    a complete date-only form; it is read again as midnight of the same
    day, the date step leaves it as it is, and so does the whole hook
    whenever it accepts. A modified date that does not parse is rejected
    with the format error: by the date step, by the hook for a document
    that has a title, and by a save of a document that has passed the
    validation of the schema, which writes nothing. *)
Theorem C5_date_normalization (doc : Event.Doc) (s : jsstring) :
  Event.isModified doc "date" = true ->
  Event.date (Event.fields doc) = Some s ->
  (forall t, DateParse parseOther s = Some t ->
     exists d,
       Event.stepDate parseOther doc = Next d /\
       Event.date (Event.fields d) = Some (isoDatePart t) /\
       Event.withDate (Some s) (Event.fields d) = Event.fields doc /\
       Event.modifiedPaths d = Event.modifiedPaths doc /\
       (0 <= YearFromTime t <= 9999 ->
        dateDigits (YearFromTime t) (MonthFromTime t + 1) (DateFromTime t)
                   (isoDatePart t)) /\
       (YYYYMMDD (isoDatePart t) <-> 0 <= YearFromTime t <= 9999) /\
       MakeDay (YearFromTime t) (MonthFromTime t) (DateFromTime t) = Day t /\
       (forall y m dd, isoDateOnly s = Some (y, m, dd) ->
          YearFromTime t = y /\ MonthFromTime t + 1 = m /\
          DateFromTime t = dd) /\
       DateParse parseOther (isoDatePart t) = Some (MakeDate (Day t)) /\
       Event.stepDate parseOther d = Next d /\
       (forall d', Event.pre_save unicodeLower parseOther doc = Next d' ->
          Event.date (Event.fields d') = Some (isoDatePart t) /\
          Event.pre_save unicodeLower parseOther d' = Next d')) /\
  (DateParse parseOther s = None ->
     Event.stepDate parseOther doc = NextError "Error" "Invalid date format" /\
     (forall ttl, Event.title (Event.fields doc) = Some ttl ->
        Event.pre_save unicodeLower parseOther doc
        = NextError "Error" "Invalid date format") /\
     (forall db, Event.validate (Event.fields doc) = [] ->
        saveEvent unicodeLower parseOther db doc
        = (db, Rejected "Error" "Invalid date format"))).
Proof.
  intros Hm Hs. split.
  - intros t Ht.
    assert (Hstep : Event.stepDate parseOther doc
                    = Next {| Event._id := Event._id doc;
                              Event.fields :=
                                Event.withDate (Some (isoDatePart t))
                                               (Event.fields doc);
                              Event.isNew := Event.isNew doc;
                              Event.modifiedPaths := Event.modifiedPaths doc |}).
    { unfold Event.stepDate, Event.parsedDate. now rewrite Hm, Hs, Ht. }
    eexists. split; [exact Hstep |].
    split; [reflexivity |].
    split; [destruct doc as [id f new paths]; destruct f; cbn in *;
            now subst |].
    split; [reflexivity |].
    split; [apply isoDatePart_in_range |].
    split; [apply isoDatePart_YYYYMMDD |].
    split; [apply civil_fields |].
    split; [intros y m dd Hy; exact (DateParse_dateOnly _ _ _ _ _ Hy Ht) |].
    split; [apply DateParse_isoDatePart;
            now apply (DateParse_clipped parseOther s) |].
    split; [exact (stepDate_idempotent _ _ Hstep) |].
    intros d' Hd'. split; [| exact (pre_save_idempotent _ _ Hd')].
    destruct (pre_save_Next _ _ _ _ Hd') as (d1 & H1 & H2 & _).
    destruct (stepSlug_date _ _ H1) as [Hm1 Hd1].
    unfold Event.stepDate, Event.parsedDate in H2.
    rewrite Hm1, Hm, Hd1, Hs, Ht in H2. now inversion H2.
  - intros Hn.
    assert (Hhook : forall ttl, Event.title (Event.fields doc) = Some ttl ->
              Event.pre_save unicodeLower parseOther doc
              = NextError "Error" "Invalid date format").
    { intros ttl Httl.
      assert (H1 : exists d1, Event.stepSlug unicodeLower doc = Next d1).
      { unfold Event.stepSlug. rewrite Httl.
        destruct (Event.isModified doc "title" || Event.isNew doc); eauto. }
      destruct H1 as [d1 H1]. destruct (stepSlug_date _ _ H1) as [Hm1 Hd1].
      unfold Event.pre_save, mbind, outcome_bind. rewrite H1.
      unfold Event.stepDate, Event.parsedDate.
      now rewrite Hm1, Hm, Hd1, Hs, Hn. }
    split; [unfold Event.stepDate, Event.parsedDate; now rewrite Hm, Hs, Hn |].
    split; [exact Hhook |].
    intros db Hv. unfold saveEvent. rewrite Hv.
    assert (Ht : truthy (Event.title (Event.fields doc)) = true)
      by (apply (validate_required _ Hv "title"%string); cbn; tauto).
    destruct (Event.title (Event.fields doc)) as [ttl |] eqn:Et;
      [| discriminate].
    now rewrite (Hhook ttl eq_refl).
Qed.

End DateClaim.

(** An update that changes the date to an expanded-year form of the same
    day: the date written is the canonical date. *)
Lemma C5_date_normalization_witness :
  exists d,
    Event.stepDate noOtherFormat
      (storedEvent (js "AWS re:Invent 2024") (js "+002024-11-18") (js "09:00")
                   ["date"%string])
    = Next d /\
    Event.date (Event.fields d) = Some (js "2024-11-18") /\
    YYYYMMDD (js "2024-11-18") /\
    Event.stepDate noOtherFormat d = Next d.
Proof.
  destruct (proj1 (C5_date_normalization noUnicode noOtherFormat
                     (storedEvent (js "AWS re:Invent 2024")
                                  (js "+002024-11-18") (js "09:00")
                                  ["date"%string])
                     (js "+002024-11-18") eq_refl eq_refl)
                  (MakeDate (MakeDay 2024 10 18)) eq_refl)
    as (d & H1 & H2 & _ & _ & _ & H6 & _ & _ & _ & H8 & _).
  exists d. split; [exact H1 |]. split; [exact H2 |].
  split; [apply H6; vm_compute; split; discriminate | exact H8].
Defined.

(** A date in the year 10000 parses, and the date the hook stores for it
    has a sign and a six-digit year: it is not a [YYYY-MM-DD] date. *)
Lemma C5_year_10000_not_canonical :
  DateParse noOtherFormat (js "+010000-01-01")
  = Some (MakeDate (MakeDay 10000 0 1)) /\
  Event.stepDate noOtherFormat
    (storedEvent (js "AWS re:Invent 2024") (js "+010000-01-01") (js "09:00")
                 ["date"%string])
  = Next (storedEvent (js "AWS re:Invent 2024") (js "+010000-01-01")
                      (js "09:00") ["date"%string]) /\
  ~ YYYYMMDD (js "+010000-01-01").
Proof.
  split; [vm_compute; reflexivity |]. split; [vm_compute; reflexivity |].
  intros H. apply YYYYMMDD_length in H. discriminate H.
Qed.

(* ===================================================================== *)
(** ** [save] and the store                                               *)
(* ===================================================================== *)

Lemma slugTaken_false db id f :
  slugTaken db id f = false ->
  forall r, r ∈ events db -> fst r <> id ->
            Event.slug (snd r) <> Event.slug f.
Proof.
  unfold slugTaken. intros H r Hr Hne Heq.
  apply not_true_iff_false in H. apply H.
  apply existsb_exists. exists r. split; [now apply list_elem_of_In |].
  apply andb_true_iff. split.
  - apply negb_true_iff, N.eqb_neq. exact Hne.
  - now apply bool_decide_eq_true.
Qed.

(** Case analysis on the comparison of two identities in the goal. *)
Ltac case_id :=
  match goal with
  | |- context [N.eqb ?a ?b] => destruct (N.eqb_spec a b)
  end.

Lemma put_update_ids (id : ObjectId) (f : Event.Fields)
    (l : list (ObjectId * Event.Fields)) :
  (put false id f l).*1 = l.*1.
Proof.
  unfold put. induction l as [| r l IH]; cbn; [reflexivity |].
  f_equal; [| exact IH].
  case_id; [cbn; symmetry; assumption | reflexivity].
Qed.

Lemma put_update_absent (id : ObjectId) (f : Event.Fields)
    (l : list (ObjectId * Event.Fields)) :
  id ∉ l.*1 -> put false id f l = l.
Proof.
  unfold put. induction l as [| r l IH]; cbn; [reflexivity |].
  intros H. apply not_elem_of_cons in H as [Hne H].
  rewrite IH by exact H.
  case_id; [exfalso; apply Hne; symmetry; assumption | reflexivity].
Qed.

Lemma put_update_slugs (id : ObjectId) (f : Event.Fields)
    (l : list (ObjectId * Event.Fields)) :
  NoDup l.*1 ->
  NoDup ((fun r => Event.slug (snd r)) <$> l) ->
  (forall r, r ∈ l -> fst r <> id -> Event.slug (snd r) <> Event.slug f) ->
  NoDup ((fun r => Event.slug (snd r)) <$> put false id f l).
Proof.
  induction l as [| r l IH]; intros Hid Hsl Hf; [constructor |].
  cbn [fmap list_fmap] in Hid, Hsl. apply NoDup_cons in Hid as [Hr Hid].
  apply NoDup_cons in Hsl as [Hs Hsl].
  destruct (N.eqb_spec (fst r) id) as [E | Hne].
  - subst id. replace (put false (fst r) f (r :: l)) with ((fst r, f) :: l).
    + cbn. apply NoDup_cons. split; [| exact Hsl].
      intros Hin. apply list_elem_of_fmap in Hin as (r' & Heq & Hr').
      apply (Hf r'); [now apply elem_of_cons; right | | now symmetry].
      intros E. apply Hr. rewrite <- E. now apply list_elem_of_fmap_2.
    + unfold put. cbn.
      case_id; [| match goal with H : _ <> _ |- _ => now destruct H end].
      f_equal.
      symmetry. now apply (put_update_absent (fst r) f l).
  - replace (put false id f (r :: l)) with (r :: put false id f l).
    + cbn. apply NoDup_cons. split.
      * intros Hin. apply list_elem_of_fmap in Hin as (x & Heq & Hx).
        unfold put in Hx. apply list_elem_of_In, in_map_iff in Hx as (r' & Hg & Hr').
        apply list_elem_of_In in Hr'. revert Hg. case_id; intros Hg.
        -- subst x. cbn in Heq.
           apply (Hf r); [now apply elem_of_cons; left | exact Hne | exact Heq].
        -- subst x. apply Hs. rewrite Heq.
           exact (list_elem_of_fmap_2 (fun r => Event.slug (snd r)) _ _ Hr').
      * apply IH; [exact Hid | exact Hsl |].
        intros r' Hr'. apply Hf. now apply elem_of_cons; right.
    + unfold put. cbn. case_id; [contradiction | reflexivity].
Qed.

Section StoreMore.

Variable unicodeLower : jsstring -> jsstring.
Variable parseOther : jsstring -> option Z.

Lemma pre_save_identity doc d :
  Event.pre_save unicodeLower parseOther doc = Next d ->
  Event._id d = Event._id doc /\ Event.isNew d = Event.isNew doc.
Proof.
  intros H. destruct (pre_save_Next _ _ _ _ H) as (d1 & H1 & H2 & _).
  destruct (stepSlug_frame _ _ _ H1) as (Hn1 & Hi1 & _).
  destruct (stepDate_frame _ _ _ H2) as (Hn2 & Hi2 & _).
  split; congruence.
Qed.

(** X20. [save] keeps the Events of the store apart: if no two of them share
    an [_id] or a slug before, none do after, provided the [_id] of a new
    document is not yet in the store. A save that does not succeed leaves
    the store as it was, and no save touches the Bookings. *)
Theorem saveEvent_keeps_events_unique (db : Database) (doc : Event.Doc) :
  uniqueEvents db ->
  (Event.isNew doc = true -> Event._id doc ∉ (events db).*1) ->
  uniqueEvents (fst (saveEvent unicodeLower parseOther db doc)) /\
  bookings (fst (saveEvent unicodeLower parseOther db doc)) = bookings db /\
  ((forall d, snd (saveEvent unicodeLower parseOther db doc) <> Saved d) ->
   fst (saveEvent unicodeLower parseOther db doc) = db).
Proof.
  intros [Hid Hsl] Hnew. unfold saveEvent.
  destruct (Event.validate (Event.fields doc)); [| now repeat split].
  destruct (Event.pre_save unicodeLower parseOther doc) as [d | |] eqn:Hd;
    [| now repeat split | now repeat split].
  destruct (negb (online db)); [now repeat split |].
  destruct (slugTaken db (Event._id d) (Event.fields d)) eqn:Ht;
    [now repeat split |].
  cbn [fst snd]. split; [| split; [reflexivity |]].
  - destruct (pre_save_identity _ _ Hd) as [Hi Hn].
    pose proof (slugTaken_false _ _ _ Ht) as Hother.
    unfold uniqueEvents. cbn [events].
    destruct (Event.isNew d) eqn:En.
    + assert (Hdn : Event.isNew doc = true) by congruence.
      specialize (Hnew Hdn). rewrite <- Hi in Hnew.
      unfold put. rewrite !fmap_app. cbn. split.
      * apply NoDup_app. split; [exact Hid |]. split; [| apply NoDup_singleton].
        intros x Hx Hx'. apply list_elem_of_singleton in Hx'. now subst.
      * apply NoDup_app. split; [exact Hsl |]. split; [| apply NoDup_singleton].
        intros x Hx Hx'. apply list_elem_of_singleton in Hx'. subst x.
        apply list_elem_of_fmap in Hx as (r & Heq & Hr).
        apply (Hother r Hr); [| now symmetry].
        intros E. apply Hnew. rewrite <- E. now apply list_elem_of_fmap_2.
    + split; [now rewrite put_update_ids |].
      now apply put_update_slugs.
  - intros H. now specialize (H d).
Qed.

(** The slug of a new document that the hook accepts is the slug derived
    from its title. *)
Lemma new_document_slug doc d :
  Event.isNew doc = true ->
  Event.pre_save unicodeLower parseOther doc = Next d ->
  exists t, Event.title (Event.fields doc) = Some t /\
            Event.slug (Event.fields d)
            = Some (Event.slugSetter unicodeLower (Event.slugify unicodeLower t)).
Proof.
  intros Hn H. destruct (pre_save_Next _ _ _ _ H) as (d1 & H1 & H2 & _).
  destruct (stepDate_frame _ _ _ H2) as (_ & _ & _ & Hs & _).
  unfold Event.stepSlug in H1. rewrite Hn, orb_true_r in H1.
  destruct (Event.title (Event.fields doc)) as [t |]; [| discriminate].
  inversion H1; subst d1. exists t. split; [reflexivity |]. now rewrite Hs.
Qed.

(** X21. While an Event is stored, no Event with the same title can be
    created: the attempt changes nothing in the store, and if it gets as
    far as the write, it ends with the duplicate-key error of the index on
    [slug]. *)
Theorem same_title_twice (db db' : Database) (oid oid' : ObjectId)
    (p p' : Event.Fields) (d : Event.Doc) :
  createEvent unicodeLower parseOther db oid p = (db', Saved d) ->
  oid' <> oid ->
  Event.title p' = Event.title p ->
  fst (createEvent unicodeLower parseOther db' oid' p') = db' /\
  (forall d', snd (createEvent unicodeLower parseOther db' oid' p') <> Saved d') /\
  (forall d',
     Event.validate (Event.fields (Event.build unicodeLower oid' p')) = [] ->
     Event.pre_save unicodeLower parseOther (Event.build unicodeLower oid' p')
     = Next d' ->
     snd (createEvent unicodeLower parseOther db' oid' p') = DuplicateKey "slug").
Proof.
  intros Hc Hne Ht.
  assert (Hfirst : online db' = true /\ Event._id d = oid /\
            (oid, Event.fields d) ∈ events db' /\
            exists t, Event.title (Event.applySetters unicodeLower p) = Some t /\
              Event.slug (Event.fields d)
              = Some (Event.slugSetter unicodeLower
                        (Event.slugify unicodeLower t))).
  { unfold createEvent, saveEvent in Hc.
    destruct (Event.validate _); [| discriminate].
    destruct (Event.pre_save unicodeLower parseOther
                (Event.build unicodeLower oid p)) as [d0 | |] eqn:Hd;
      try discriminate.
    destruct (online db) eqn:Hon; [| discriminate]. cbn [negb] in Hc.
    destruct (slugTaken db _ _); [discriminate |].
    inversion Hc; subst; clear Hc. cbn [online events].
    destruct (pre_save_identity _ _ Hd) as [Hi Hn]. cbn in Hi, Hn.
    split; [reflexivity |]. split; [exact Hi |]. split.
    - rewrite Hn. unfold put. apply list_elem_of_In, in_or_app. right.
      rewrite Hi. now left.
    - exact (new_document_slug (Event.build unicodeLower oid p) d eq_refl Hd). }
  destruct Hfirst as (Hon & Hid & Hin & t & Htitle & Hslug).
  assert (Hdup : forall d',
            Event.pre_save unicodeLower parseOther
              (Event.build unicodeLower oid' p') = Next d' ->
            slugTaken db' (Event._id d') (Event.fields d') = true).
  { intros d' Hd'. destruct (pre_save_identity _ _ Hd') as [Hi' _]. cbn in Hi'.
    destruct (new_document_slug (Event.build unicodeLower oid' p') d'
                eq_refl Hd') as (t' & Ht' & Hs').
    cbn in Ht'. cbn in Htitle. rewrite Ht in Ht'. rewrite Htitle in Ht'.
    inversion Ht'; subst t'.
    unfold slugTaken. apply existsb_exists. exists (oid, Event.fields d).
    split; [now apply list_elem_of_In |]. cbn [fst snd].
    apply andb_true_iff. split.
    - apply negb_true_iff, N.eqb_neq. congruence.
    - apply bool_decide_eq_true. congruence. }
  unfold createEvent, saveEvent.
  destruct (Event.validate (Event.fields (Event.build unicodeLower oid' p')));
    [| repeat split; discriminate].
  destruct (Event.pre_save unicodeLower parseOther
              (Event.build unicodeLower oid' p')) as [d' | |] eqn:Hd';
    [| repeat split; discriminate | repeat split; discriminate].
  rewrite Hon. cbn [negb]. rewrite (Hdup d' eq_refl).
  repeat split; discriminate || reflexivity.
Qed.

End StoreMore.

(** X22. A Booking that [save] stores had, when it was new or its [eventId] was
    modified, its Event in the store at that moment; its e-mail has the
    syntax of an address. The document is stored as it was given: the
    Bookings of the store are those it had with this record written (added
    at the end when the document is new, in the place of the record of its
    [_id] otherwise), and the Events are not touched. *)
Theorem saved_booking_has_event (db db' : Database) (doc d : Booking.Doc) :
  saveBooking db doc = (db', Saved d) ->
  d = doc /\
  events db' = events db /\
  bookings db'
  = put (Booking.isNew doc) (Booking._id doc) (Booking.fields doc) (bookings db) /\
  (Booking.isNew doc = true ->
   bookings db' = bookings db ++ [(Booking._id doc, Booking.fields doc)]) /\
  (exists e, Booking.email (Booking.fields doc) = Some e /\ emailSyntax e) /\
  (Booking.isNew doc || Booking.isModified doc "eventId" = true ->
   exists f, (Booking.eventId (Booking.fields doc), f) ∈ events db).
Proof.
  unfold saveBooking. intros H.
  destruct (Booking.validate (Booking.fields doc)) eqn:Hv; [| discriminate].
  destruct (Booking.pre_save (Event_exists db) doc) as [d0 | |] eqn:Hh;
    try discriminate.
  destruct (negb (online db)); [discriminate |].
  inversion H; subst; clear H. cbn [events].
  unfold Booking.pre_save, mbind, outcome_bind in Hh.
  destruct (Booking.checkEvent (Event_exists db) doc) as [d1 | |] eqn:Hc;
    try discriminate.
  assert (d1 = doc) as ->.
  { unfold Booking.checkEvent in Hc.
    destruct (Booking.isNew doc || Booking.isModified doc "eventId");
      [destruct (Event_exists db _) as [[|] |]; try discriminate |];
      now inversion Hc. }
  assert (d = doc) as ->.
  { unfold Booking.checkEmail in Hh.
    destruct (negb (truthy _)); [discriminate |].
    destruct (negb (Booking.emailTest doc)); [discriminate |]. now inversion Hh. }
  split; [reflexivity |]. split; [reflexivity |].
  split; [reflexivity |].
  split; [intros Hn; cbn [bookings]; unfold put; now rewrite Hn |]. split.
  - unfold Booking.checkEmail, Booking.emailTest in Hh.
    destruct (Booking.email (Booking.fields doc)) as [e |]; [| discriminate].
    exists e. split; [reflexivity |].
    destruct (negb (truthy (Some e))); [discriminate |].
    destruct (test emailRegex e) eqn:E; [| discriminate].
    now apply emailRegex_test.
  - intros Hnew. unfold Booking.checkEvent in Hc. rewrite Hnew in Hc.
    unfold Event_exists in Hc. destruct (online db); [| discriminate].
    match type of Hc with
    | context [existsb ?g ?l] => destruct (existsb g l) eqn:Ex
    end; [| discriminate].
    apply existsb_exists in Ex as ([id f] & Hin & Heq). cbn in Heq.
    apply N.eqb_eq in Heq. subst id. exists f. now apply list_elem_of_In.
Qed.

(** X23. In a [save], where the validation of the schema comes first, the hook
    of a Booking rejects only for the Event: with the referential error
    when the store answers that there is none, with the error of the
    [catch] branch when the store does not answer. Its own checks of the
    e-mail reject nothing the schema has accepted. *)
Theorem booking_hook_errors_in_save (db db' : Database) (doc : Booking.Doc)
    (name msg : string) :
  saveBooking db doc = (db', Rejected name msg) ->
  db' = db /\
  Booking.isNew doc || Booking.isModified doc "eventId" = true /\
  (online db = true /\ name = "Error"%string /\
   msg = "Referenced event does not exist"%string /\
   (forall f, (Booking.eventId (Booking.fields doc), f) ∉ events db)
   \/
   online db = false /\ name = "ValidationError"%string /\
   msg = "Invalid event ID format or database error"%string).
Proof.
  unfold saveBooking. intros H.
  destruct (Booking.validate (Booking.fields doc)) eqn:Hv; [| discriminate].
  destruct (Booking.pre_save (Event_exists db) doc) as [d0 | n m |] eqn:Hh;
    try discriminate.
  { destruct (negb (online db)); discriminate. }
  injection H as E1 E2 E3. subst db' name msg. split; [reflexivity |].
  assert (Hemail : Booking.checkEmail doc = Next doc).
  { unfold Booking.validate in Hv. unfold Booking.checkEmail, Booking.emailTest.
    destruct (Booking.email (Booking.fields doc)) as [[| c s] |];
      try discriminate.
    destruct (test emailRegex (c :: s)); [reflexivity | discriminate]. }
  unfold Booking.pre_save, mbind, outcome_bind, Booking.checkEvent in Hh.
  destruct (Booking.isNew doc || Booking.isModified doc "eventId");
    [| rewrite Hemail in Hh; discriminate].
  split; [reflexivity |].
  unfold Event_exists in Hh. destruct (online db).
  - match type of Hh with
    | context [existsb ?g ?l] => destruct (existsb g l) eqn:Ex
    end; [rewrite Hemail in Hh; discriminate |].
    inversion Hh; subst. left. repeat split.
    intros f Hin. apply not_true_iff_false in Ex. apply Ex.
    apply existsb_exists. eexists. split; [apply list_elem_of_In, Hin |].
    cbn. apply N.eqb_refl.
  - inversion Hh; subst. right. auto.
Qed.

(* ===================================================================== *)
(** ** The list of events                                                 *)
(* ===================================================================== *)

Lemma addByLocation_thrown (events : list Listing.Event) :
  fold_left (fun acc event => acc ← acc; Listing.addByLocation acc event)
            events None = None.
Proof. induction events as [| e events IH]; [reflexivity | exact IH]. Qed.

(** What the [reduce] has made of the accumulator [acc]. *)
Lemma addByLocation_fold (events : list Listing.Event) :
  forall acc : gmap jsstring (list Listing.Event),
  match fold_left (fun acc event => acc ← acc; Listing.addByLocation acc event)
                  events (Some acc) with
  | None => exists e, e ∈ events /\ Listing.inherited (Listing.location e) = true
  | Some m =>
      (forall e, e ∈ events -> Listing.inherited (Listing.location e) = true ->
                 is_Some (acc !! Listing.location e)) /\
      forall loc,
        m !! loc
        = match List.filter (fun e => bool_decide (Listing.location e = loc))
                            events with
          | [] => acc !! loc
          | e :: l => Some (default [] (acc !! loc) ++ e :: l)
          end
  end.
Proof.
  induction events as [| e events IH]; intros acc; cbn [fold_left].
  - split; [| reflexivity]. intros e He. now apply elem_of_nil in He.
  - change (Some acc ≫= (fun acc0 => Listing.addByLocation acc0 e))
      with (Listing.addByLocation acc e).
    unfold Listing.addByLocation.
    destruct (acc !! Listing.location e) as [group |] eqn:Hg;
      [| destruct (Listing.inherited (Listing.location e)) eqn:Hi].
    + specialize (IH (<[Listing.location e := group ++ [e]]> acc)).
      destruct (fold_left _ events _) as [m |].
      * destruct IH as [Hown Hm]. split.
        -- intros e' He' Hi'. apply elem_of_cons in He' as [-> | He'];
             [now rewrite Hg |].
           specialize (Hown e' He' Hi').
           destruct (decide (Listing.location e' = Listing.location e)) as [E | Hne].
           ++ rewrite E, Hg. eauto.
           ++ now rewrite lookup_insert_ne in Hown.
        -- intros loc. rewrite Hm. cbn [List.filter].
           destruct (decide (Listing.location e = loc)) as [E | Hne].
           ++ rewrite bool_decide_eq_true_2 by exact E. subst loc.
              rewrite lookup_insert_eq, Hg. cbn.
              destruct (List.filter _ events); cbn; [reflexivity |].
              now rewrite <- app_assoc.
           ++ rewrite bool_decide_eq_false_2 by exact Hne.
              now rewrite lookup_insert_ne.
      * destruct IH as (e' & He' & Hi'). exists e'.
        split; [apply elem_of_cons; now right | exact Hi'].
    + rewrite addByLocation_thrown. exists e.
      split; [apply elem_of_cons; now left | exact Hi].
    + specialize (IH (<[Listing.location e := [e]]> acc)).
      destruct (fold_left _ events _) as [m |].
      * destruct IH as [Hown Hm]. split.
        -- intros e' He' Hi'. apply elem_of_cons in He' as [-> | He'];
             [congruence |].
           specialize (Hown e' He' Hi').
           destruct (decide (Listing.location e' = Listing.location e)) as [E | Hne].
           ++ rewrite E in Hi'. congruence.
           ++ now rewrite lookup_insert_ne in Hown.
        -- intros loc. rewrite Hm. cbn [List.filter].
           destruct (decide (Listing.location e = loc)) as [E | Hne].
           ++ rewrite bool_decide_eq_true_2 by exact E. subst loc.
              rewrite lookup_insert_eq, Hg. cbn.
              now destruct (List.filter _ events).
           ++ rewrite bool_decide_eq_false_2 by exact Hne.
              now rewrite lookup_insert_ne.
      * destruct IH as (e' & He' & Hi'). exists e'.
        split; [apply elem_of_cons; now right | exact Hi'].
Qed.

(** X24. [eventsByLocation] throws exactly when the location of some event is
    the name of a member of [Object.prototype]. Otherwise it has, under each
    location, the events of that location in the order of the list, and
    nothing under a location that no event has. *)
Theorem eventsByLocation_groups (events : list Listing.Event) :
  match Listing.eventsByLocation events with
  | None =>
      exists e, e ∈ events /\ Listing.inherited (Listing.location e) = true
  | Some m =>
      (forall e, e ∈ events -> Listing.inherited (Listing.location e) = false) /\
      forall loc,
        m !! loc
        = match List.filter (fun e => bool_decide (Listing.location e = loc))
                            events with
          | [] => None
          | e :: l => Some (e :: l)
          end
  end.
Proof.
  unfold Listing.eventsByLocation.
  pose proof (addByLocation_fold events ∅) as H.
  destruct (fold_left _ events (Some ∅)) as [m |]; [| exact H].
  destruct H as [Hown Hm]. split.
  - intros e He. destruct (Listing.inherited (Listing.location e)) eqn:Hi;
      [| reflexivity].
    destruct (Hown e He Hi) as [g Hgr]. now rewrite lookup_empty in Hgr.
  - intros loc. rewrite Hm, lookup_empty. reflexivity.
Qed.

Section UpcomingEvents.

Variable parseOther : jsstring -> option Z.

Abbreviation key := (Listing.sortKey parseOther).
Abbreviation insertByDate := (Listing.insertByDate parseOther).
Abbreviation sortByDate := (Listing.sortByDate parseOther).

Lemma insertByDate_perm e l : insertByDate e l ≡ₚ e :: l.
Proof.
  induction l as [| x l IH]; cbn; [reflexivity |].
  destruct (key e <=? key x)%Z; [reflexivity |].
  rewrite IH. apply perm_swap.
Qed.

Lemma sortByDate_perm l : sortByDate l ≡ₚ l.
Proof.
  induction l as [| e l IH]; cbn; [reflexivity |].
  now rewrite insertByDate_perm, IH.
Qed.

Lemma insertByDate_sorted e l :
  StronglySorted (fun a b => (key a <= key b)%Z) l ->
  StronglySorted (fun a b => (key a <= key b)%Z) (insertByDate e l).
Proof.
  induction l as [| x l IH]; intros Hs; cbn.
  - repeat constructor.
  - apply StronglySorted_inv in Hs as [Hl Hx].
    destruct (Z.leb_spec (key e) (key x)) as [Hle | Hgt].
    + constructor; [now constructor |].
      constructor; [exact Hle |].
      eapply Forall_impl; [exact Hx |]. cbn. intros a Ha. lia.
    + constructor; [now apply IH |].
      rewrite insertByDate_perm. constructor; [lia | exact Hx].
Qed.

Lemma sortByDate_sorted l :
  StronglySorted (fun a b => (key a <= key b)%Z) (sortByDate l).
Proof.
  induction l as [| e l IH]; cbn; [constructor |].
  now apply insertByDate_sorted.
Qed.

Lemma insertByDate_stable (k : Z) e l :
  List.filter (fun a => (key a =? k)%Z) (insertByDate e l)
  = List.filter (fun a => (key a =? k)%Z) (e :: l).
Proof.
  induction l as [| x l IH]; [reflexivity |].
  cbn [Listing.insertByDate].
  destruct (Z.leb_spec (key e) (key x)) as [Hle | Hgt]; [reflexivity |].
  cbn [List.filter] in *. rewrite IH.
  destruct (Z.eqb_spec (key e) k) as [He | He]; [| reflexivity].
  destruct (Z.eqb_spec (key x) k) as [Hx | Hx]; [lia | reflexivity].
Qed.

Lemma sortByDate_stable (k : Z) l :
  List.filter (fun a => (key a =? k)%Z) (sortByDate l)
  = List.filter (fun a => (key a =? k)%Z) l.
Proof.
  induction l as [| e l IH]; [reflexivity |].
  cbn [Listing.sortByDate fold_right]. rewrite insertByDate_stable.
  cbn [List.filter]. fold (sortByDate l). now rewrite IH.
Qed.

Lemma filterUpcoming_elem clock e events : forall i,
  e ∈ Listing.filterUpcoming parseOther clock i events <->
  exists j t, events !! j = Some e /\
              Listing.dateOf parseOther e = Some t /\ (clock (i + j)%nat <= t)%Z.
Proof.
  induction events as [| x events IH]; intros i; cbn [Listing.filterUpcoming].
  - split; [intros H; now apply elem_of_nil in H |].
    intros (j & t & H & _). discriminate H.
  - assert (Hrest : e ∈ Listing.filterUpcoming parseOther clock (S i) events <->
              exists j t, (x :: events) !! S j = Some e /\
                Listing.dateOf parseOther e = Some t /\
                (clock (i + S j)%nat <= t)%Z).
    { rewrite IH. split; intros (j & t & H1 & H2 & H3); exists j, t;
        (split; [exact H1 |]); (split; [exact H2 |]);
        now replace (i + S j)%nat with (S i + j)%nat in * by lia. }
    assert (Hhead : Listing.isUpcoming parseOther (clock i) x = true <->
              exists t, Listing.dateOf parseOther x = Some t /\
                        (clock (i + 0)%nat <= t)%Z).
    { unfold Listing.isUpcoming. rewrite Nat.add_0_r.
      destruct (Listing.dateOf parseOther x) as [t |].
      - rewrite Z.leb_le. split; [eauto |].
        intros (t' & Ht & H). now inversion Ht; subst.
      - split; [discriminate | intros (t & Ht & _); discriminate]. }
    destruct (Listing.isUpcoming parseOther (clock i) x) eqn:Hx.
    + rewrite elem_of_cons, Hrest. split.
      * intros [-> | (j & t & H)].
        -- destruct (proj1 Hhead eq_refl) as (t & Ht & Hle).
           exists 0%nat, t. auto.
        -- exists (S j), t. exact H.
      * intros ([| j] & t & H1 & H2 & H3).
        -- left. cbn in H1. now inversion H1.
        -- right. exists j, t. auto.
    + rewrite Hrest. split.
      * intros (j & t & H). exists (S j), t. exact H.
      * intros ([| j] & t & H1 & H2 & H3).
        -- cbn in H1. inversion H1; subst x.
           assert (false = true) by (apply Hhead; eauto). discriminate.
        -- exists j, t. auto.
Qed.

(** X25. [upcomingEvents] holds exactly the events of the list whose date is
    valid and not before the time at which the filter looked at them, in
    ascending order of their dates, events of the same date in the order
    of the list. *)
Theorem upcomingEvents_sorted (clock : nat -> Z) (events : list Listing.Event) :
  (forall e, e ∈ Listing.upcomingEvents parseOther clock events <->
     exists i t, events !! i = Some e /\
                 Listing.dateOf parseOther e = Some t /\ (clock i <= t)%Z) /\
  Listing.upcomingEvents parseOther clock events
  ≡ₚ Listing.filterUpcoming parseOther clock 0 events /\
  StronglySorted (fun a b => (key a <= key b)%Z)
    (Listing.upcomingEvents parseOther clock events) /\
  (forall k,
     List.filter (fun a => (key a =? k)%Z)
       (Listing.upcomingEvents parseOther clock events)
     = List.filter (fun a => (key a =? k)%Z)
         (Listing.filterUpcoming parseOther clock 0 events)).
Proof.
  unfold Listing.upcomingEvents.
  split; [| split; [apply sortByDate_perm |
                    split; [apply sortByDate_sorted |
                            intros k; apply sortByDate_stable]]].
  intros e. rewrite sortByDate_perm. apply filterUpcoming_elem.
Qed.

End UpcomingEvents.

(* ===================================================================== *)
(** ** The route that creates an Event                                    *)
(* ===================================================================== *)

(** X26. [POST] answers 201 only when the Event was stored, and then the store
    is the one [Event.create] left. Every failure of the connection, of
    reading the body or of [Event.create] (a validation error, an error of
    the hook, a duplicate slug alike) is answered with status 500 and the
    message [Event creation failed], and status 400 is given only when the
    copy of the body fails; in both cases the store is as it was before. *)
Theorem POST_responses (unicodeLower : jsstring -> jsstring)
    (parseOther : jsstring -> option Z) (env : option string)
    (w : Manager.World) (db : Database) (body : option Event.Fields)
    (copied : bool) (oid : ObjectId) (ok : bool) :
  (exists payload d,
     body = Some payload /\ copied = true /\
     createEvent unicodeLower parseOther db oid payload
     = (snd (fst (POST unicodeLower parseOther env w db body copied oid ok)),
        Saved d) /\
     snd (POST unicodeLower parseOther env w db body copied oid ok)
     = {| status := 201; message := "Event created successfully" |}) \/
  (snd (fst (POST unicodeLower parseOther env w db body copied oid ok)) = db /\
   (snd (POST unicodeLower parseOther env w db body copied oid ok)
    = {| status := 500; message := "Event creation failed" |} \/
    copied = false /\
    snd (POST unicodeLower parseOther env w db body copied oid ok)
    = {| status := 400; message := "Invalid form data" |})).
Proof.
  unfold POST.
  destruct (connectToDatabase env w None ok) as [w1 [h | |]];
    [| right; split; auto | right; split; auto].
  destruct body as [payload |]; [| right; split; auto].
  destruct copied; [| right; split; auto].
  destruct (createEvent unicodeLower parseOther db oid payload)
    as [db1 r] eqn:Hc.
  assert (Hdb : (forall d, r <> Saved d) -> db1 = db).
  { intros Hr. unfold createEvent, saveEvent in Hc.
    destruct (Event.validate _); [| now inversion Hc].
    destruct (Event.pre_save _ _ _) as [d0 | |]; try now inversion Hc.
    destruct (negb (online db)); [now inversion Hc |].
    destruct (slugTaken db _ _); [now inversion Hc |].
    inversion Hc; subst. now destruct (Hr d0). }
  destruct r as [d | errs | n m | | i |];
    try (right; cbn; split; [apply Hdb; discriminate | auto]).
  left. exists payload, d. auto.
Qed.

(* ===================================================================== *)
(** ** The further properties at sample records                           *)
(* ===================================================================== *)

Lemma sampleUri_listener (uri : string) :
  Manager.listeners liveWorld !! 0%nat = Some uri ->
  Manager.inherited uri = false.
Proof. intros H. vm_compute in H. now inversion H. Qed.

Lemma liveWorld_ordinary : Manager.ownKeysOrdinary liveWorld.
Proof.
  apply ownKeysOrdinary_emit.
  - intros uri H. vm_compute in H. now inversion H.
  - apply ownKeysOrdinary_connect;
      [reflexivity | apply ownKeysOrdinary_initial].
Qed.

Lemma active_connections_cached_witness :
  sampleUri ∈ Manager.getActiveConnections liveWorld /\
  Manager.inherited "constructor" = true /\
  "constructor"%string ∉ Manager.getActiveConnections liveWorld.
Proof.
  destruct (active_connections_cached liveWorld liveWorld_ordinary)
    as (Hin & Hno & _).
  split; [apply (Hin sampleUri eq_refl); exists 0%nat; reflexivity |].
  split; [reflexivity |].
  intros H. specialize (Hno _ H). discriminate Hno.
Defined.

Lemma cleanup_removes_dead_only_witness :
  Manager.connectionCache
    (Manager.manager
       (fst (Manager.cleanup (Manager.emit 0%nat Manager.disconnected liveWorld))))
    !! sampleUri = None /\
  Manager.isConnected
    (Manager.manager
       (fst (Manager.cleanup (Manager.emit 0%nat Manager.disconnected liveWorld))))
    !! sampleUri = None.
Proof.
  apply (proj1 (cleanup_removes_dead_only
                  (Manager.emit 0%nat Manager.disconnected liveWorld)
                  (ownKeysOrdinary_emit _ _ _ sampleUri_listener
                                        liveWorld_ordinary))
               sampleUri 0%nat); reflexivity.
Defined.

Lemma disconnect_cached_witness :
  Manager.disconnect liveWorld sampleUri false = (liveWorld, false).
Proof.
  exact (proj2 (disconnect_cached liveWorld sampleUri 0%nat eq_refl)).
Defined.

Lemma connect_reuses_live_connection_witness :
  exists w1,
    Manager.connect Manager.initial sampleUri true = (w1, Some 0%nat) /\
    Manager.connect (Manager.emit 0%nat Manager.connected w1) sampleUri false
    = (Manager.emit 0%nat Manager.connected w1, Some 0%nat) /\
    Manager.established (Manager.emit 0%nat Manager.connected w1) = [0%nat].
Proof.
  exact (connect_reuses_live_connection Manager.initial sampleUri false
           eq_refl eq_refl).
Defined.

Lemma connect_again_before_connected_witness :
  exists w1 w2,
    Manager.connect Manager.initial sampleUri true = (w1, Some 0%nat) /\
    Manager.getConnection w1 sampleUri = Some 0%nat /\
    Manager.isConnectionAlive w1 sampleUri = false /\
    Manager.connect w1 sampleUri true = (w2, Some 1%nat) /\
    Manager.getConnection w2 sampleUri = Some 1%nat /\
    Manager.established w2 = [0; 1]%nat.
Proof.
  destruct (connect_again_before_connected Manager.initial sampleUri
              eq_refl (or_introl eq_refl))
    as (w1 & H1 & H2 & H3 & H4 & _).
  destruct (H4 eq_refl) as (w2 & H5 & H6 & H7).
  exists w1, w2.
  repeat split; [exact H1 | exact H2 | exact H3 | exact H5 | exact H6 | exact H7].
Defined.

Lemma connect_failure_caches_nothing_witness :
  Manager.getConnection
    (Manager.emit 0%nat Manager.connected
       (Manager.emit 0%nat Manager.error liveWorld)) sampleUri = None /\
  exists w1,
    Manager.connect
      (Manager.emit 0%nat Manager.connected
         (Manager.emit 0%nat Manager.error liveWorld)) sampleUri false
    = (w1, None) /\
    Manager.getConnection w1 sampleUri = None /\
    Manager.isConnectionAlive w1 sampleUri = true /\
    Manager.established w1 = [0%nat].
Proof.
  split; [reflexivity |].
  destruct (connect_failure_caches_nothing
              (Manager.emit 0%nat Manager.connected
                 (Manager.emit 0%nat Manager.error liveWorld)) sampleUri
              eq_refl (or_introl eq_refl))
    as (w1 & H1 & H2 & H3 & H5 & _).
  exists w1. repeat split; [exact H1 | exact H2 | exact H3 | exact H5].
Defined.

Lemma other_identities_untouched_witness :
  Manager.getConnection (fst (Manager.connect Manager.initial sampleUri true))
    "mongodb://localhost:27017/other"
  = Manager.getConnection Manager.initial "mongodb://localhost:27017/other" /\
  Manager.getConnection (Manager.emit 0%nat Manager.error liveWorld)
    "mongodb://localhost:27017/other"
  = Manager.getConnection liveWorld "mongodb://localhost:27017/other".
Proof.
  assert (Hne : "mongodb://localhost:27017/other"%string <> sampleUri)
    by discriminate.
  split.
  - exact (proj1 (proj1 (other_identities_untouched Manager.initial sampleUri
                           "mongodb://localhost:27017/other" true Hne))).
  - apply (proj2 (proj2 (other_identities_untouched liveWorld sampleUri
                           "mongodb://localhost:27017/other" true Hne))).
    discriminate.
Defined.

Lemma no_connection_string_witness :
  connectToDatabase (Some ""%string) Manager.initial None true
  = (Manager.initial, UriMissing).
Proof.
  exact (proj1 (no_connection_string (Some ""%string) None Manager.initial true
                  eq_refl eq_refl)).
Defined.

Lemma explicit_uri_not_default_witness :
  exists w1,
    connectToDatabase (Some "mongodb://localhost:27017/main"%string)
      Manager.initial (Some sampleUri) true
    = (w1, Handle 0%nat) /\
    Manager.getConnection w1 sampleUri = Some 0%nat /\
    getDatabaseConnection (Some "mongodb://localhost:27017/main"%string) w1
    = None /\
    isDatabaseConnected (Some "mongodb://localhost:27017/main"%string) w1
    = false.
Proof.
  apply (explicit_uri_not_default "mongodb://localhost:27017/main" sampleUri
           Manager.initial); [discriminate | discriminate | discriminate |
                              reflexivity | reflexivity].
Defined.

Lemma default_connection_life_witness :
  exists w1 w3,
    connectToDatabase (Some sampleUri) Manager.initial None true
    = (w1, Handle 0%nat) /\
    getDatabaseConnection (Some sampleUri) w1 = Some 0%nat /\
    isDatabaseConnected (Some sampleUri) w1 = false /\
    isDatabaseConnected (Some sampleUri)
      (Manager.emit 0%nat Manager.connected w1) = true /\
    disconnectDatabase (Some sampleUri)
      (Manager.emit 0%nat Manager.connected w1) true = (w3, true) /\
    getDatabaseConnection (Some sampleUri) w3 = None /\
    isDatabaseConnected (Some sampleUri) w3 = false.
Proof.
  apply (default_connection_life sampleUri Manager.initial);
    [discriminate | reflexivity | reflexivity].
Defined.

Lemma derived_slug_shape_witness :
  exists s,
    Event.slug (Event.fields
      (match Event.stepSlug noUnicode
               (Event.build noUnicode 1
                  (sampleEvent (js "Keynote (2024)") (js "2024-11-18")
                               (js "09:00"))) with
       | Next d => d
       | _ => Event.build noUnicode 1
                (sampleEvent (js "Keynote (2024)") (js "2024-11-18")
                             (js "09:00"))
       end))
    = Some s /\
    forallb slugChar s = true /\ singleHyphens s = true /\ lastHyphen s = false.
Proof.
  apply (derived_slug_shape noUnicode
           (Event.build noUnicode 1
              (sampleEvent (js "Keynote (2024)") (js "2024-11-18")
                           (js "09:00"))));
    vm_compute; reflexivity.
Defined.

Lemma canonical_date_kept_witness :
  Event.stepDate noOtherFormat
    (storedEvent (js "AWS re:Invent 2024") (js "2024-02-29") (js "09:00")
                 ["date"%string])
  = Next (storedEvent (js "AWS re:Invent 2024") (js "2024-02-29") (js "09:00")
                      ["date"%string]).
Proof.
  apply (canonical_date_kept noOtherFormat _ (js "2024-02-29") 2024 2 29);
    vm_compute; reflexivity.
Defined.


Lemma hook_after_validation_witness :
  (exists d,
     Event.pre_save noUnicode noOtherFormat
       (storedEvent (js "AWS re:Invent 2024") (js "soon") (js "09:00")
                    ["date"%string]) = Next d) \/
  Event.pre_save noUnicode noOtherFormat
    (storedEvent (js "AWS re:Invent 2024") (js "soon") (js "09:00")
                 ["date"%string])
  = NextError "Error" "Invalid date format" \/
  Event.pre_save noUnicode noOtherFormat
    (storedEvent (js "AWS re:Invent 2024") (js "soon") (js "09:00")
                 ["date"%string])
  = NextError "Error" "Time must be in HH:MM format".
Proof.
  apply (hook_after_validation noUnicode noOtherFormat). vm_compute. reflexivity.
Defined.

Lemma saveEvent_keeps_events_unique_witness :
  uniqueEvents
    (fst (saveEvent noUnicode noOtherFormat oneEventStore
            (storedEvent (js "AWS re:Invent 2024") (js "2025-12-01")
                         (js "10:00") ["date"; "time"]%string))).
Proof.
  apply (saveEvent_keeps_events_unique noUnicode noOtherFormat oneEventStore).
  - split; vm_compute; apply NoDup_singleton.
  - intros H. discriminate H.
Defined.

Lemma same_title_twice_witness :
  fst (createEvent noUnicode noOtherFormat
         (fst (createEvent noUnicode noOtherFormat emptyStore 1
                 (sampleEvent (js "PyCon US 2024") (js "2024-05-15")
                              (js "08:00"))))
         2
         (sampleEvent (js "PyCon US 2024") (js "2025-05-14") (js "09:00")))
  = fst (createEvent noUnicode noOtherFormat emptyStore 1
           (sampleEvent (js "PyCon US 2024") (js "2024-05-15") (js "08:00"))).
Proof.
  apply (same_title_twice noUnicode noOtherFormat emptyStore _ 1 2
           (sampleEvent (js "PyCon US 2024") (js "2024-05-15") (js "08:00"))
           (sampleEvent (js "PyCon US 2024") (js "2025-05-14") (js "09:00"))
           (match Event.pre_save noUnicode noOtherFormat
                    (Event.build noUnicode 1
                       (sampleEvent (js "PyCon US 2024") (js "2024-05-15")
                                    (js "08:00"))) with
            | Next d => d
            | _ => Event.build noUnicode 1
                     (sampleEvent (js "PyCon US 2024") (js "2024-05-15")
                                  (js "08:00"))
            end)).
  - vm_compute. reflexivity.
  - discriminate.
  - reflexivity.
Defined.

Lemma saved_booking_has_event_witness :
  bookings (fst (saveBooking oneEventStore (newBooking 7 (js "a@b.co"))))
  = [(21, Booking.fields (newBooking 7 (js "a@b.co")))] /\
  exists f, (7, f) ∈ events oneEventStore.
Proof.
  destruct (saved_booking_has_event oneEventStore
              (fst (saveBooking oneEventStore (newBooking 7 (js "a@b.co"))))
              (newBooking 7 (js "a@b.co")) (newBooking 7 (js "a@b.co"))
              eq_refl)
    as (_ & _ & _ & Hb & _ & He).
  split; [exact (Hb eq_refl) | exact (He eq_refl)].
Defined.

Lemma booking_hook_errors_in_save_witness :
  fst (saveBooking oneEventStore (newBooking 8 (js "a@b.co"))) = oneEventStore.
Proof.
  apply (booking_hook_errors_in_save oneEventStore
           (fst (saveBooking oneEventStore (newBooking 8 (js "a@b.co"))))
           (newBooking 8 (js "a@b.co")) "Error"
           "Referenced event does not exist").
  vm_compute. reflexivity.
Defined.
